(** * ThreePortfolio.svelte: the interactive scene of the portfolio page

    A shallow embedding of [threeSceneAction] (the Svelte action of
    [src/app/src/components/ThreePortfolio.svelte]) and of the older
    [onMount] variant of the same component: the frame loop [animate], the
    hover state, the light smoothing, the camera focus transition
    [focusOn]/[move], the resize handler and the teardown [destroy].

    The closure variables of the action become the fields of one [State]
    record; the host (the browser's animation frame queue, the window's
    listeners, the console) is part of the same record, and every function of
    the component is a state transformer.  JavaScript numbers are IEEE-754
    binary64 values: the embedding is written once over an interface
    [Number], instantiated with the kernel's binary64 floats (the code as it
    runs) and with rationals under a rounding operator (for the properties
    that are stated about every tick). *)

From Stdlib Require Import ZArith QArith Qabs Floats List String Bool Lia Lqa
  Permutation.
Import ListNotations.

Set Warnings "-inexact-float,-register-all,-abstract-large-number".
Set Implicit Arguments.

(** ** JavaScript numbers *)

Declare Scope num_scope.
Delimit Scope num_scope with num.

(** The arithmetic the component uses: [+ - * /], unary minus, [<]
    (and [>], its mirror image), and decimal literals. *)
Class Number (num : Type) := {
  nadd : num -> num -> num;
  nsub : num -> num -> num;
  nmul : num -> num -> num;
  ndiv : num -> num -> num;
  nopp : num -> num;
  nltb : num -> num -> bool;
  lit : Q -> num
}.
Arguments lit {num _} _%_Q.

Notation "x + y" := (nadd x y) : num_scope.
Notation "x - y" := (nsub x y) : num_scope.
Notation "x * y" := (nmul x y) : num_scope.
Notation "x / y" := (ndiv x y) : num_scope.
Notation "- x" := (nopp x) : num_scope.
Notation "x <? y" := (nltb x y) : num_scope.
Notation "x >? y" := (nltb y x) : num_scope.

(** *** Binary64: the numbers of the running code *)

Module Binary64.

(** An integer as a double (exact below 2^53). *)
Definition of_Z (z : Z) : float :=
  match z with
  | Z0 => 0%float
  | Zpos _ => of_uint63 (Uint63.of_Z z)
  | Zneg p => (- of_uint63 (Uint63.of_Z (Zpos p)))%float
  end.

(** A decimal literal [p/q] denotes the double nearest to it: both parts are
    exact doubles and the division is correctly rounded. *)
Definition of_Q (q : Q) : float :=
  (of_Z (Qnum q) / of_Z (Zpos (Qden q)))%float.

#[global] Instance number : Number float := {
  nadd := PrimFloat.add;
  nsub := PrimFloat.sub;
  nmul := PrimFloat.mul;
  ndiv := PrimFloat.div;
  nopp := PrimFloat.opp;
  nltb := PrimFloat.ltb;
  lit := of_Q
}.

End Binary64.

(** *** Rationals under a rounding operator

    Every operation is the exact one followed by [rnd].  With [rnd] the
    identity this is exact arithmetic; round-to-nearest onto the binary64 grid
    is another such operator as long as nothing overflows. *)

Module Rounded.

Definition Qltb (x y : Q) : bool := negb (Qle_bool y x).

Definition number (rnd : Q -> Q) : Number Q := {|
  nadd := fun x y => rnd (x + y)%Q;
  nsub := fun x y => rnd (x - y)%Q;
  nmul := fun x y => rnd (x * y)%Q;
  ndiv := fun x y => rnd (x / y)%Q;
  nopp := fun x => rnd (- x)%Q;
  nltb := Qltb;
  lit := rnd
|}.

(** Exact arithmetic. *)
Definition exact : Number Q := number (fun x => x).

(** What the proofs below need of a rounding operator: it is monotone, keeps
    what it produced, commutes with negation and keeps 0 and 1. *)
Record monotone_rounding (rnd : Q -> Q) : Prop := {
  rnd_le : forall x y, (x <= y)%Q -> (rnd x <= rnd y)%Q;
  rnd_idem : forall x, (rnd (rnd x) == rnd x)%Q;
  rnd_opp : forall x, (rnd (- x) == - rnd x)%Q;
  rnd_0 : (rnd 0 == 0)%Q;
  rnd_1 : (rnd 1 == 1)%Q
}.

End Rounded.

(** ** Vectors *)

Section Vectors.
Context {num : Type} {N : Number num}.
Local Open Scope num_scope.

Record Vector3 : Type := vec3 { vx : num; vy : num; vz : num }.

(** [new THREE.Vector3(x, y, z)] from literals. *)
Definition vec3_lit (x y z : Q) : Vector3 := vec3 (lit x) (lit y) (lit z).

(** [a.clone().add(b)] *)
Definition vec3_add (a b : Vector3) : Vector3 :=
  vec3 (vx a + vx b) (vy a + vy b) (vz a + vz b).

(** [this.lerpVectors(v1, v2, alpha)] of three.js:
    [this.x = v1.x + (v2.x - v1.x) * alpha], likewise for [y] and [z]. *)
Definition lerpVectors (v1 v2 : Vector3) (alpha : num) : Vector3 :=
  vec3 (vx v1 + (vx v2 - vx v1) * alpha)
       (vy v1 + (vy v2 - vy v1) * alpha)
       (vz v1 + (vz v2 - vz v1) * alpha).

End Vectors.
Arguments Vector3 num : clear implicits.

(** ** The scene graph

    An [Object3D] is identified by its place in the scene graph: the child
    indices from the object up to the scene, innermost first, so that the
    scene itself is [[]] and [o.parent] is the tail.  Two references are the
    same object ([===]) exactly when the addresses are equal. *)

Definition Object3D : Type := list nat.

Definition Object3D_eqb (a b : Object3D) : bool :=
  if list_eq_dec Nat.eq_dec a b then true else false.

(** A JavaScript reference: a variable that was never assigned is
    [undefined], the parent of a root is [null]. *)
Inductive Ref : Type :=
| undefined
| null
| ref (o : Object3D).

(** [a === b] *)
Definition Ref_eqb (a b : Ref) : bool :=
  match a, b with
  | undefined, undefined => true
  | null, null => true
  | ref x, ref y => Object3D_eqb x y
  | _, _ => false
  end.

(** [o.parent] *)
Definition parent (o : Object3D) : Ref :=
  match o with
  | [] => null
  | _ :: p => ref p
  end.

(** [r?.parent] *)
Definition parent_opt (r : Ref) : Ref :=
  match r with
  | ref o => parent o
  | _ => undefined
  end.

(** [models.includes(o)] *)
Definition includes (models : list Object3D) (o : Object3D) : bool :=
  existsb (Object3D_eqb o) models.

(** [[a, b].filter(Boolean)] *)
Definition filter_Boolean (rs : list Ref) : list Object3D :=
  flat_map (fun r => match r with ref o => [o] | _ => [] end) rs.

(** The loop [while (parent && !models.includes(parent)) parent = parent.parent],
    entered with [parent] the object [o]; the result is the final
    [parent]. *)
Fixpoint walk_up (models : list Object3D) (o : Object3D) : Ref :=
  if includes models o then ref o
  else match o with
       | [] => null
       | _ :: p => walk_up models p
       end.

(** The same loop entered with any reference. *)
Definition find_root (models : list Object3D) (r : Ref) : Ref :=
  match r with
  | ref o => walk_up models o
  | _ => r
  end.

(** The contents of the scene graph, as [scene.traverse] sees them: a node
    is a mesh with a geometry and a material (resource ids) or not, and has
    children. *)
Record Mesh : Type := { geometry : nat; material : nat }.

Inductive SceneNode : Type :=
| Node (mesh : option Mesh) (children : list SceneNode).

(** What teardown releases. *)
Inductive Disposal : Type :=
| renderer_dispose
| controls_dispose
| geometry_dispose (g : nat)
| material_dispose (m : nat).

(** [node.traverse(callback)]: the node first, then its children in order;
    the calls the callback makes are collected. *)
Fixpoint traverse (callback : SceneNode -> list Disposal) (n : SceneNode)
  : list Disposal :=
  match n with
  | Node _ cs =>
      callback n ++
      (fix children (l : list SceneNode) : list Disposal :=
         match l with
         | [] => []
         | c :: l' => traverse callback c ++ children l'
         end) cs
  end.

(** The callback of [destroy]:
    [if (object instanceof THREE.Mesh) { geometry.dispose(); material.dispose() }] *)
Definition dispose_mesh (n : SceneNode) : list Disposal :=
  match n with
  | Node (Some m) _ => [geometry_dispose (geometry m); material_dispose (material m)]
  | Node None _ => []
  end.

(** ** The host: window events and animation frames *)

Inductive EventType : Type := mousemove | click | resize.

Inductive Handler : Type := onMouseMove_handler | onClick_handler | handleResize_handler.

Definition EventType_eqb (a b : EventType) : bool :=
  match a, b with
  | mousemove, mousemove | click, click | resize, resize => true
  | _, _ => false
  end.

Definition Handler_eqb (a b : Handler) : bool :=
  match a, b with
  | onMouseMove_handler, onMouseMove_handler
  | onClick_handler, onClick_handler
  | handleResize_handler, handleResize_handler => true
  | _, _ => false
  end.

Section Component.
Context {num : Type} {N : Number num}.
Local Open Scope num_scope.

(** The closure of one [focusOn] call: [start], [end], [progress] and the
    [portfolio] key its [move] function captured. *)
Record Focus : Type := {
  start : Vector3 num;
  end_ : Vector3 num;
  progress : num;
  portfolio : string
}.

(** What [requestAnimationFrame] was given. *)
Inductive Callback : Type :=
| Animate
| Move (f : Focus).

(** What the environment answers during one run of [animate]: where
    [controls.update()] puts the camera, the result of
    [raycaster.intersectObjects(models, true)] (nearest first), and the two
    values of [Math.sin]. *)
Record FrameInput : Type := {
  controls_update : Vector3 num -> Vector3 num;
  intersects : list Object3D;
  sin_camera : num;
  sin_computer : num
}.

Record State : Type := mkState {
  (* camera and renderer *)
  camera_position : Vector3 num;
  camera_aspect : num;
  projection_aspect : num;
  renderer_size : Z * Z;
  (* the two point lights' intensities *)
  cameraGlow : num;
  computerGlow : num;
  (* the children of the scene *)
  scene : list SceneNode;
  (* the action's variables *)
  cameraModel : Ref;
  macbookModel : Ref;
  hoveredObject : Ref;
  mouse : num * num;
  cameraTargetIntensity : num;
  computerTargetIntensity : num;
  animationFrameId : nat;
  (* the host *)
  frame_requests : list (nat * Callback);
  next_request : nat;
  listeners : list (EventType * Handler);
  console : list (string * string);
  rendered : list (Vector3 num);
  disposed : list Disposal
}.

Definition set_camera_position (v : Vector3 num) (s : State) : State :=
  mkState v (camera_aspect s) (projection_aspect s) (renderer_size s)
    (cameraGlow s) (computerGlow s) (scene s) (cameraModel s) (macbookModel s)
    (hoveredObject s) (mouse s) (cameraTargetIntensity s)
    (computerTargetIntensity s) (animationFrameId s) (frame_requests s)
    (next_request s) (listeners s) (console s) (rendered s) (disposed s).

Definition set_camera_aspect (v : num) (s : State) : State :=
  mkState (camera_position s) v (projection_aspect s) (renderer_size s)
    (cameraGlow s) (computerGlow s) (scene s) (cameraModel s) (macbookModel s)
    (hoveredObject s) (mouse s) (cameraTargetIntensity s)
    (computerTargetIntensity s) (animationFrameId s) (frame_requests s)
    (next_request s) (listeners s) (console s) (rendered s) (disposed s).

Definition set_projection_aspect (v : num) (s : State) : State :=
  mkState (camera_position s) (camera_aspect s) v (renderer_size s)
    (cameraGlow s) (computerGlow s) (scene s) (cameraModel s) (macbookModel s)
    (hoveredObject s) (mouse s) (cameraTargetIntensity s)
    (computerTargetIntensity s) (animationFrameId s) (frame_requests s)
    (next_request s) (listeners s) (console s) (rendered s) (disposed s).

Definition set_renderer_size (v : Z * Z) (s : State) : State :=
  mkState (camera_position s) (camera_aspect s) (projection_aspect s) v
    (cameraGlow s) (computerGlow s) (scene s) (cameraModel s) (macbookModel s)
    (hoveredObject s) (mouse s) (cameraTargetIntensity s)
    (computerTargetIntensity s) (animationFrameId s) (frame_requests s)
    (next_request s) (listeners s) (console s) (rendered s) (disposed s).

Definition set_cameraGlow (v : num) (s : State) : State :=
  mkState (camera_position s) (camera_aspect s) (projection_aspect s)
    (renderer_size s) v (computerGlow s) (scene s) (cameraModel s)
    (macbookModel s) (hoveredObject s) (mouse s) (cameraTargetIntensity s)
    (computerTargetIntensity s) (animationFrameId s) (frame_requests s)
    (next_request s) (listeners s) (console s) (rendered s) (disposed s).

Definition set_computerGlow (v : num) (s : State) : State :=
  mkState (camera_position s) (camera_aspect s) (projection_aspect s)
    (renderer_size s) (cameraGlow s) v (scene s) (cameraModel s)
    (macbookModel s) (hoveredObject s) (mouse s) (cameraTargetIntensity s)
    (computerTargetIntensity s) (animationFrameId s) (frame_requests s)
    (next_request s) (listeners s) (console s) (rendered s) (disposed s).

Definition set_scene (v : list SceneNode) (s : State) : State :=
  mkState (camera_position s) (camera_aspect s) (projection_aspect s)
    (renderer_size s) (cameraGlow s) (computerGlow s) v (cameraModel s)
    (macbookModel s) (hoveredObject s) (mouse s) (cameraTargetIntensity s)
    (computerTargetIntensity s) (animationFrameId s) (frame_requests s)
    (next_request s) (listeners s) (console s) (rendered s) (disposed s).

Definition set_cameraModel (v : Ref) (s : State) : State :=
  mkState (camera_position s) (camera_aspect s) (projection_aspect s)
    (renderer_size s) (cameraGlow s) (computerGlow s) (scene s) v
    (macbookModel s) (hoveredObject s) (mouse s) (cameraTargetIntensity s)
    (computerTargetIntensity s) (animationFrameId s) (frame_requests s)
    (next_request s) (listeners s) (console s) (rendered s) (disposed s).

Definition set_macbookModel (v : Ref) (s : State) : State :=
  mkState (camera_position s) (camera_aspect s) (projection_aspect s)
    (renderer_size s) (cameraGlow s) (computerGlow s) (scene s)
    (cameraModel s) v (hoveredObject s) (mouse s) (cameraTargetIntensity s)
    (computerTargetIntensity s) (animationFrameId s) (frame_requests s)
    (next_request s) (listeners s) (console s) (rendered s) (disposed s).

Definition set_hoveredObject (v : Ref) (s : State) : State :=
  mkState (camera_position s) (camera_aspect s) (projection_aspect s)
    (renderer_size s) (cameraGlow s) (computerGlow s) (scene s)
    (cameraModel s) (macbookModel s) v (mouse s) (cameraTargetIntensity s)
    (computerTargetIntensity s) (animationFrameId s) (frame_requests s)
    (next_request s) (listeners s) (console s) (rendered s) (disposed s).

Definition set_mouse (v : num * num) (s : State) : State :=
  mkState (camera_position s) (camera_aspect s) (projection_aspect s)
    (renderer_size s) (cameraGlow s) (computerGlow s) (scene s)
    (cameraModel s) (macbookModel s) (hoveredObject s) v
    (cameraTargetIntensity s) (computerTargetIntensity s) (animationFrameId s)
    (frame_requests s) (next_request s) (listeners s) (console s) (rendered s)
    (disposed s).

Definition set_cameraTargetIntensity (v : num) (s : State) : State :=
  mkState (camera_position s) (camera_aspect s) (projection_aspect s)
    (renderer_size s) (cameraGlow s) (computerGlow s) (scene s)
    (cameraModel s) (macbookModel s) (hoveredObject s) (mouse s) v
    (computerTargetIntensity s) (animationFrameId s) (frame_requests s)
    (next_request s) (listeners s) (console s) (rendered s) (disposed s).

Definition set_computerTargetIntensity (v : num) (s : State) : State :=
  mkState (camera_position s) (camera_aspect s) (projection_aspect s)
    (renderer_size s) (cameraGlow s) (computerGlow s) (scene s)
    (cameraModel s) (macbookModel s) (hoveredObject s) (mouse s)
    (cameraTargetIntensity s) v (animationFrameId s) (frame_requests s)
    (next_request s) (listeners s) (console s) (rendered s) (disposed s).

Definition set_animationFrameId (v : nat) (s : State) : State :=
  mkState (camera_position s) (camera_aspect s) (projection_aspect s)
    (renderer_size s) (cameraGlow s) (computerGlow s) (scene s)
    (cameraModel s) (macbookModel s) (hoveredObject s) (mouse s)
    (cameraTargetIntensity s) (computerTargetIntensity s) v (frame_requests s)
    (next_request s) (listeners s) (console s) (rendered s) (disposed s).

Definition set_frame_requests (v : list (nat * Callback)) (s : State) : State :=
  mkState (camera_position s) (camera_aspect s) (projection_aspect s)
    (renderer_size s) (cameraGlow s) (computerGlow s) (scene s)
    (cameraModel s) (macbookModel s) (hoveredObject s) (mouse s)
    (cameraTargetIntensity s) (computerTargetIntensity s) (animationFrameId s)
    v (next_request s) (listeners s) (console s) (rendered s) (disposed s).

Definition set_next_request (v : nat) (s : State) : State :=
  mkState (camera_position s) (camera_aspect s) (projection_aspect s)
    (renderer_size s) (cameraGlow s) (computerGlow s) (scene s)
    (cameraModel s) (macbookModel s) (hoveredObject s) (mouse s)
    (cameraTargetIntensity s) (computerTargetIntensity s) (animationFrameId s)
    (frame_requests s) v (listeners s) (console s) (rendered s) (disposed s).

Definition set_listeners (v : list (EventType * Handler)) (s : State) : State :=
  mkState (camera_position s) (camera_aspect s) (projection_aspect s)
    (renderer_size s) (cameraGlow s) (computerGlow s) (scene s)
    (cameraModel s) (macbookModel s) (hoveredObject s) (mouse s)
    (cameraTargetIntensity s) (computerTargetIntensity s) (animationFrameId s)
    (frame_requests s) (next_request s) v (console s) (rendered s)
    (disposed s).

Definition set_console (v : list (string * string)) (s : State) : State :=
  mkState (camera_position s) (camera_aspect s) (projection_aspect s)
    (renderer_size s) (cameraGlow s) (computerGlow s) (scene s)
    (cameraModel s) (macbookModel s) (hoveredObject s) (mouse s)
    (cameraTargetIntensity s) (computerTargetIntensity s) (animationFrameId s)
    (frame_requests s) (next_request s) (listeners s) v (rendered s)
    (disposed s).

Definition set_rendered (v : list (Vector3 num)) (s : State) : State :=
  mkState (camera_position s) (camera_aspect s) (projection_aspect s)
    (renderer_size s) (cameraGlow s) (computerGlow s) (scene s)
    (cameraModel s) (macbookModel s) (hoveredObject s) (mouse s)
    (cameraTargetIntensity s) (computerTargetIntensity s) (animationFrameId s)
    (frame_requests s) (next_request s) (listeners s) (console s) v
    (disposed s).

Definition set_disposed (v : list Disposal) (s : State) : State :=
  mkState (camera_position s) (camera_aspect s) (projection_aspect s)
    (renderer_size s) (cameraGlow s) (computerGlow s) (scene s)
    (cameraModel s) (macbookModel s) (hoveredObject s) (mouse s)
    (cameraTargetIntensity s) (computerTargetIntensity s) (animationFrameId s)
    (frame_requests s) (next_request s) (listeners s) (console s) (rendered s)
    v.

(** *** The host's services *)

(** [requestAnimationFrame(cb)]: the callback joins the queue of the next
    frame; the request's id is returned. *)
Definition requestAnimationFrame (cb : Callback) (s : State) : nat * State :=
  let id := next_request s in
  (id, set_next_request (S id) (set_frame_requests (frame_requests s ++ [(id, cb)]) s)).

(** [cancelAnimationFrame(id)] *)
Definition cancelAnimationFrame (id : nat) (s : State) : State :=
  set_frame_requests
    (filter (fun r => negb (Nat.eqb (fst r) id)) (frame_requests s)) s.

Definition same_listener (ty : EventType) (h : Handler) (l : EventType * Handler) : bool :=
  EventType_eqb ty (fst l) && Handler_eqb h (snd l).

(** [window.addEventListener(ty, h)]: a listener is registered once. *)
Definition addEventListener (ty : EventType) (h : Handler) (s : State) : State :=
  if existsb (same_listener ty h) (listeners s) then s
  else set_listeners (listeners s ++ [(ty, h)]) s.

(** [window.removeEventListener(ty, h)] *)
Definition removeEventListener (ty : EventType) (h : Handler) (s : State) : State :=
  set_listeners (filter (fun l => negb (same_listener ty h l)) (listeners s)) s.

(** *** Lights (lines 167-177) *)

(** [intensity += (target - intensity) * 0.08] *)
Definition smooth (intensity target : num) : num :=
  intensity + (target - intensity) * lit 0.08.

(** [if (intensity > 0.3) intensity += Math.sin(...) * 0.05], the sine
    being [sin]. *)
Definition flicker (intensity sin : num) : num :=
  if intensity >? lit 0.3 then intensity + sin * lit 0.05 else intensity.

(** *** Hover (lines 137-165) *)

Definition models (s : State) : list Object3D :=
  filter_Boolean [cameraModel s; macbookModel s].

Definition hover (i : FrameInput) (s : State) : State :=
  let models := models s in
  if (0 <? List.length models)%nat then
    match intersects i with
    | target :: _ =>
        let s := set_hoveredObject (ref target) s in
        let parent := find_root models (parent target) in
        if Ref_eqb parent (cameraModel s) then
          set_computerTargetIntensity (lit 0) (set_cameraTargetIntensity (lit 2.5) s)
        else if Ref_eqb parent (macbookModel s) then
          set_computerTargetIntensity (lit 2.5) (set_cameraTargetIntensity (lit 0) s)
        else s
    | [] =>
        set_computerTargetIntensity (lit 0)
          (set_cameraTargetIntensity (lit 0) (set_hoveredObject null s))
    end
  else s.

(** *** The frame loop (lines 133-180) *)

Definition animate (i : FrameInput) (s : State) : State :=
  let (id, s) := requestAnimationFrame Animate s in
  let s := set_animationFrameId id s in
  let s := set_camera_position (controls_update i (camera_position s)) s in
  let s := hover i s in
  let s := set_cameraGlow (smooth (cameraGlow s) (cameraTargetIntensity s)) s in
  let s := set_computerGlow (smooth (computerGlow s) (computerTargetIntensity s)) s in
  let s := set_cameraGlow (flicker (cameraGlow s) (sin_camera i)) s in
  let s := set_computerGlow (flicker (computerGlow s) (sin_computer i)) s in
  set_rendered (rendered s ++ [camera_position s]) s.

(** *** The camera focus transition (lines 183-205) *)

Definition duration : num := lit 1.2.

Definition with_progress (p : num) (f : Focus) : Focus :=
  {| start := start f; end_ := end_ f; progress := p; portfolio := portfolio f |}.

Definition move (f : Focus) (s : State) : State :=
  let progress := progress f + lit 0.02 / duration in
  if progress <? lit 1 then
    let s := set_camera_position (lerpVectors (start f) (end_ f) progress) s in
    snd (requestAnimationFrame (Move (with_progress progress f)) s)
  else
    let s := set_camera_position (end_ f) s in
    set_console (console s ++ [("Open portfolio:"%string, portfolio f)]) s.

(** [obj.getWorldPosition(targetPos)] for a model root: the position the
    load callback gave it (lines 58 and 86), its parent being the scene,
    which is not transformed. *)
Definition getWorldPosition (s : State) (o : Object3D) : Vector3 num :=
  if Ref_eqb (ref o) (cameraModel s) then vec3_lit (-0.3) 0 0
  else if Ref_eqb (ref o) (macbookModel s) then vec3_lit 0.3 0 0
  else vec3_lit 0 0 0.

(** [focusOn(obj, portfolio)]; a call on [undefined] throws at
    [obj.getWorldPosition] before anything is written. *)
Definition focusOn (obj : Ref) (portfolio : string) (s : State) : State :=
  match obj with
  | ref o =>
      let targetPos := getWorldPosition s o in
      let start := camera_position s in
      let end_ := vec3_add targetPos (vec3_lit 0 0.5 2) in
      move {| start := start; end_ := end_; progress := lit 0; portfolio := portfolio |} s
  | _ => s
  end.

(** *** Input handlers (lines 107-122, 210-214) *)

Definition onMouseMove (clientX clientY left top width height : num) (s : State) : State :=
  set_mouse (((clientX - left) / width) * lit 2 - lit 1,
             - ((clientY - top) / height) * lit 2 + lit 1) s.

Definition onClick (s : State) : State :=
  match hoveredObject s with
  | ref h =>
      if Ref_eqb (parent h) (cameraModel s)
         || Ref_eqb (parent_opt (parent h)) (cameraModel s)
      then focusOn (cameraModel s) "photography"%string s
      else if Ref_eqb (parent h) (macbookModel s)
              || Ref_eqb (parent_opt (parent h)) (macbookModel s)
      then focusOn (macbookModel s) "computerscience"%string s
      else s
  | _ => s
  end.

(** [handleResize], [clientWidth] and [clientHeight] being the node's size
    when the handler runs. *)
Definition handleResize (clientWidth clientHeight : Z) (s : State) : State :=
  let s := set_camera_aspect (lit (inject_Z clientWidth) / lit (inject_Z clientHeight)) s in
  let s := set_projection_aspect (camera_aspect s) s in
  set_renderer_size (clientWidth, clientHeight) s.

(** *** Loading (lines 56-89): [scene.add] makes the model the next child of
    the scene. *)

Definition camera_loaded (gltf_scene : SceneNode) (s : State) : State :=
  let s := set_cameraModel (ref [List.length (scene s)]) s in
  set_scene (scene s ++ [gltf_scene]) s.

Definition computer_loaded (gltf_scene : SceneNode) (s : State) : State :=
  let s := set_macbookModel (ref [List.length (scene s)]) s in
  set_scene (scene s ++ [gltf_scene]) s.

(** *** Teardown (lines 219-237) *)

Definition destroy (s : State) : State :=
  let s := cancelAnimationFrame (animationFrameId s) s in
  let s := removeEventListener mousemove onMouseMove_handler s in
  let s := removeEventListener click onClick_handler s in
  let s := removeEventListener resize handleResize_handler s in
  let s := set_disposed (disposed s ++ [renderer_dispose]) s in
  let s := set_disposed (disposed s ++ [controls_dispose]) s in
  set_disposed (disposed s ++ traverse dispose_mesh (Node None (scene s))) s.

(** *** Setup (lines 12-50, 92-105, 124-130, 207, 215) *)

(** The floor is the scene's only mesh at setup; the lights follow it. *)
Definition floor : SceneNode := Node (Some {| geometry := 0; material := 0 |}) [].
Definition light : SceneNode := Node None [].

Definition threeSceneAction (clientWidth clientHeight : Z) (i : FrameInput) : State :=
  let aspect := lit (inject_Z clientWidth) / lit (inject_Z clientHeight) in
  let s := {|
    camera_position := vec3_lit 0.5 0 1;
    camera_aspect := aspect;
    projection_aspect := aspect;
    renderer_size := (clientWidth, clientHeight);
    cameraGlow := lit 0;
    computerGlow := lit 0;
    scene := [floor; light; light; light; light];
    cameraModel := undefined;
    macbookModel := undefined;
    hoveredObject := null;
    mouse := (lit 0, lit 0);
    cameraTargetIntensity := lit 0;
    computerTargetIntensity := lit 0;
    animationFrameId := 0;
    frame_requests := [];
    next_request := 1;
    listeners := [];
    console := [];
    rendered := [];
    disposed := []
  |} in
  let s := addEventListener mousemove onMouseMove_handler s in
  let s := addEventListener click onClick_handler s in
  let s := animate i s in
  addEventListener resize handleResize_handler s.

(** *** The component under its host *)

Inductive Event : Type :=
| animation_frame (i : FrameInput)
| window_mousemove (clientX clientY left top width height : num)
| window_click
| window_resize (clientWidth clientHeight : Z)
| loaded_camera (gltf_scene : SceneNode)
| loaded_computer (gltf_scene : SceneNode)
| teardown.

Definition run_callback (i : FrameInput) (cb : Callback) (s : State) : State :=
  match cb with
  | Animate => animate i s
  | Move f => move f s
  end.

(** One animation frame: the callbacks requested before the frame run in
    the order they were requested; what they request is for the next
    frame. *)
Definition frame (i : FrameInput) (s : State) : State :=
  fold_left (fun s r => run_callback i (snd r) s)
            (frame_requests s) (set_frame_requests [] s).

Definition listening (ty : EventType) (h : Handler) (s : State) : bool :=
  existsb (same_listener ty h) (listeners s).

Definition step (s : State) (e : Event) : State :=
  match e with
  | animation_frame i => frame i s
  | window_mousemove x y l t w h =>
      if listening mousemove onMouseMove_handler s then onMouseMove x y l t w h s else s
  | window_click =>
      if listening click onClick_handler s then onClick s else s
  | window_resize w h =>
      if listening resize handleResize_handler s then handleResize w h s else s
  | loaded_camera g => camera_loaded g s
  | loaded_computer g => computer_loaded g s
  | teardown => destroy s
  end.

Definition run (s : State) (es : list Event) : State := fold_left step es s.

End Component.

Arguments Focus num : clear implicits.
Arguments Callback num : clear implicits.
Arguments FrameInput num : clear implicits.
Arguments State num : clear implicits.
Arguments Event num : clear implicits.

(** ** The [onMount] variant

    The older variant of the component (the second script of the file)
    differs in four places: the hover stage writes the light intensities
    themselves (there is no target and no smoothing), [onClick] looks at the
    parent only, [move] does not write [end] on its last tick, and the
    clean-up removes two listeners and nothing else.  It shares the state;
    the target fields stay as they are. *)

Module OnMount.
Section Component.
Context {num : Type} {N : Number num}.
Local Open Scope num_scope.

(** Lines 363-387. *)
Definition hover (i : FrameInput num) (s : State num) : State num :=
  let models := models s in
  if (0 <? List.length models)%nat then
    match intersects i with
    | target :: _ =>
        if negb (Ref_eqb (ref target) (hoveredObject s)) then
          let s := set_hoveredObject (ref target) s in
          if Ref_eqb (parent target) (cameraModel s) then
            set_computerGlow (lit 0) (set_cameraGlow (lit 2) s)
          else if Ref_eqb (parent target) (macbookModel s) then
            set_computerGlow (lit 2) (set_cameraGlow (lit 0) s)
          else s
        else s
    | [] =>
        set_computerGlow (lit 0) (set_cameraGlow (lit 0) (set_hoveredObject null s))
    end
  else s.

(** Lines 358-390. *)
Definition animate (i : FrameInput num) (s : State num) : State num :=
  let s := snd (requestAnimationFrame Animate s) in
  let s := set_camera_position (controls_update i (camera_position s)) s in
  let s := hover i s in
  set_rendered (rendered s ++ [camera_position s]) s.

(** Lines 402-411. *)
Definition move (f : Focus num) (s : State num) : State num :=
  let progress := progress f + lit 0.02 / duration in
  if progress <? lit 1 then
    let s := set_camera_position (lerpVectors (start f) (end_ f) progress) s in
    snd (requestAnimationFrame (Move (with_progress progress f)) s)
  else
    set_console (console s ++ [("Open portfolio:"%string, portfolio f)]) s.

(** The models stand at [(-0.5, 0, 0)] and [(0.5, 0, 0)] (lines 305, 314). *)
Definition getWorldPosition (s : State num) (o : Object3D) : Vector3 num :=
  if Ref_eqb (ref o) (cameraModel s) then vec3_lit (-0.5) 0 0
  else if Ref_eqb (ref o) (macbookModel s) then vec3_lit 0.5 0 0
  else vec3_lit 0 0 0.

(** Lines 393-413. *)
Definition focusOn (obj : Ref) (portfolio : string) (s : State num) : State num :=
  match obj with
  | ref o =>
      let targetPos := getWorldPosition s o in
      let start := camera_position s in
      let end_ := vec3_add targetPos (vec3_lit 0 0.5 2) in
      move {| start := start; end_ := end_; progress := lit 0; portfolio := portfolio |} s
  | _ => s
  end.

(** Lines 344-352. *)
Definition onClick (s : State num) : State num :=
  match hoveredObject s with
  | ref h =>
      if Ref_eqb (parent h) (cameraModel s)
      then focusOn (cameraModel s) "photography"%string s
      else if Ref_eqb (parent h) (macbookModel s)
      then focusOn (macbookModel s) "computerscience"%string s
      else s
  | _ => s
  end.

(** Lines 424-427: what [onMount] returns. *)
Definition cleanup (s : State num) : State num :=
  let s := removeEventListener mousemove onMouseMove_handler s in
  removeEventListener click onClick_handler s.

Definition run_callback (i : FrameInput num) (cb : Callback num) (s : State num) : State num :=
  match cb with
  | Animate => animate i s
  | Move f => move f s
  end.

Definition frame (i : FrameInput num) (s : State num) : State num :=
  fold_left (fun s r => run_callback i (snd r) s)
            (frame_requests s) (set_frame_requests [] s).

Definition step (s : State num) (e : Event num) : State num :=
  match e with
  | animation_frame i => frame i s
  | window_mousemove x y l t w h =>
      if listening mousemove onMouseMove_handler s then onMouseMove x y l t w h s else s
  | window_click =>
      if listening click onClick_handler s then onClick s else s
  | window_resize w h =>
      if listening resize handleResize_handler s then handleResize w h s else s
  | loaded_camera g => camera_loaded g s
  | loaded_computer g => computer_loaded g s
  | teardown => cleanup s
  end.

Definition run (s : State num) (es : list (Event num)) : State num := fold_left step es s.

End Component.
End OnMount.

(** ** Vocabulary of the properties *)

Section Vocabulary.
Context {num : Type} {N : Number num}.
Local Open Scope num_scope.

(** The focus transitions that are Running: the [move] closures waiting for
    the next frame. *)
Definition moves_in (q : list (nat * Callback num)) : list (Focus num) :=
  flat_map (fun r => match snd r with Move f => [f] | Animate => [] end) q.

Definition pending_moves (s : State num) : list (Focus num) :=
  moves_in (frame_requests s).

Definition running (s : State num) : nat := List.length (pending_moves s).

(** Whether the main loop has a tick scheduled. *)
Definition is_animate (cb : Callback num) : bool :=
  match cb with Animate => true | Move _ => false end.



(** The value [move] gives its variable [progress]. *)
Definition next_progress (f : Focus num) : num := progress f + lit 0.02 / duration.

(** [progress] after [n] ticks of one transition. *)
Fixpoint progress_after (n : nat) : num :=
  match n with
  | O => lit 0
  | S k => progress_after k + lit 0.02 / duration
  end.

(** The end position [focusOn] computes for a model root. *)
Definition focus_end (s : State num) (o : Object3D) : Vector3 num :=
  vec3_add (getWorldPosition s o) (vec3_lit 0 0.5 2).

(** [m] is a proper ancestor of [o] in the scene graph. *)
Definition belongs_to (m o : Object3D) : Prop :=
  exists below, below <> [] /\ o = below ++ m.

(** The hover state after a tick, as the hit test defines it: the model
    that owns the nearest intersection, if any. *)
Definition hovering_camera (s : State num) (i : FrameInput num) : Prop :=
  exists target rest m,
    intersects i = target :: rest /\ cameraModel s = ref m /\ belongs_to m target.

Definition hovering_computer (s : State num) (i : FrameInput num) : Prop :=
  exists target rest m,
    intersects i = target :: rest /\ macbookModel s = ref m /\ belongs_to m target.

(** The frame inputs of a list of events. *)
Definition frame_inputs (es : list (Event num)) : list (FrameInput num) :=
  flat_map (fun e => match e with animation_frame i => [i] | _ => [] end) es.

(** [hoveredObject]'s parent or grandparent is the model [m]: the test of
    [onClick]. *)
Definition near (m : Ref) (h : Object3D) : Prop :=
  parent h = m \/ parent_opt (parent h) = m.

(** The part of the state that the hover stage and the lights own. *)
Definition hover_lights (s : State num) :=
  (cameraModel s, macbookModel s, scene s, hoveredObject s,
   (cameraTargetIntensity s, computerTargetIntensity s),
   (cameraGlow s, computerGlow s)).

(** A model variable is unassigned or holds a child of the scene, as
    [scene.add] makes it. *)
Definition scene_child (r : Ref) (n : nat) : Prop :=
  r = undefined \/ exists k, r = ref [k] /\ (k < n)%nat.

(** What holds of the hover state whenever the host is about to run a
    callback. *)
Record hover_invariant (s : State num) : Prop := {
  camera_is_scene_child : scene_child (cameraModel s) (List.length (scene s));
  macbook_is_scene_child : scene_child (macbookModel s) (List.length (scene s));
  models_distinct : forall m, cameraModel s = ref m -> macbookModel s = ref m -> False;
  idle_before_load :
    models s = [] ->
    hoveredObject s = null /\
    cameraTargetIntensity s = lit 0 /\ computerTargetIntensity s = lit 0
}.

End Vocabulary.

(** *** The lights

    The invariant of the two intensities, for a property [sine_ok] of what
    [Math.sin] returns and a property [glow_ok] of an intensity. *)

Section LightVocabulary.
Context {num : Type} {N : Number num}.
Variables sine_ok glow_ok : num -> Prop.

Definition sines_ok (i : FrameInput num) : Prop :=
  sine_ok (sin_camera i) /\ sine_ok (sin_computer i).

(** The targets the hover stage writes (lines 146-159). *)
Definition is_target (t : num) : Prop := t = lit 0 \/ t = lit 2.5.

Definition light_invariant (s : State num) : Prop :=
  glow_ok (cameraGlow s) /\ glow_ok (computerGlow s) /\
  is_target (cameraTargetIntensity s) /\ is_target (computerTargetIntensity s).

End LightVocabulary.

(** Under a rounding operator: [Math.sin] returns a value between -1 and 1,
    and an intensity is one the arithmetic produced and that is not
    negative. *)

Definition sine_bounded (x : Q) : Prop := (-1 <= x <= 1)%Q.

Definition intensity_ok (rnd : Q -> Q) (x : Q) : Prop := (0 <= x)%Q /\ (rnd x == x)%Q.

(** In binary64: between -1 and 1, and between 0 and [hi], which no
    infinity and no NaN is. *)

Definition sine_in_range (x : float) : Prop :=
  ((-1 <=? x) && (x <=? 1))%float = true.

Definition in_range (hi x : float) : bool := ((0 <=? x) && (x <=? hi))%float.

(** *** Values of doubles

    The value of a finite double [m * 2^e] as an integer, in units of
    2^-2200: every double and every product of two doubles is a whole
    number of them. *)

Definition scaled (m : Z) (e : Z) : Z := (m * 2 ^ (e + 2200))%Z.

Definition value (x : spec_float) : Z :=
  match x with
  | S754_finite true m e => (- scaled (Zpos m) e)%Z
  | S754_finite false m e => scaled (Zpos m) e
  | _ => 0%Z
  end.

Definition finite (x : spec_float) : Prop :=
  match x with
  | S754_finite _ _ _ | S754_zero _ => True
  | _ => False
  end.

Definition valid (x : spec_float) : Prop := valid_binary x = true.

(** ** Sample runs

    Concrete inputs and the states they lead to, in binary64: the component
    mounted in an 800 by 400 node, the camera model loaded as sixth child of
    the scene with one mesh below its root, the pointer over that mesh, and a
    click. *)

Definition still : FrameInput float := {|
  controls_update := fun v => v;
  intersects := [];
  sin_camera := lit 0;
  sin_computer := lit 0
|}.

Definition pointing_at (o : Object3D) : FrameInput float := {|
  controls_update := fun v => v;
  intersects := [o];
  sin_camera := lit 1;
  sin_computer := lit 1
|}.

(** Orbit controls that take the camera back to where it was set up. *)
Definition orbiting : FrameInput float := {|
  controls_update := fun _ => vec3_lit 0.5 0 1;
  intersects := [];
  sin_camera := lit 0;
  sin_computer := lit 0
|}.

Definition camera_gltf : SceneNode :=
  Node None [Node (Some {| geometry := 1; material := 1 |}) []].

Definition mounted : State float := threeSceneAction 800 400 still.

Definition hovered : State float :=
  run mounted [loaded_camera camera_gltf; animation_frame (pointing_at [0; 5]%nat)].

Definition focusing : State float := step hovered window_click.


(** Teardown while the transition is Running. *)
Definition torn_down : State float := step focusing teardown.


(** The states a list of events leads through. *)
Fixpoint states {num : Type} {N : Number num} (s : State num) (es : list (Event num))
  : list (State num) :=
  s :: match es with
       | [] => []
       | e :: es' => states (step s e) es'
       end.

(** The pointer over the model for 300 frames and away for 300 more, the
    sines at their lowest throughout. *)
Definition darkest (hits : list Object3D) : FrameInput float := {|
  controls_update := fun v => v;
  intersects := hits;
  sin_camera := lit (-1);
  sin_computer := lit (-1)
|}.

Definition flickering : list (Event float) :=
  loaded_camera camera_gltf
  :: repeat (animation_frame (darkest [[0; 5]%nat])) 300
  ++ repeat (animation_frame (darkest [])) 300.

(** The same run in exact arithmetic. *)
Definition still_exact : FrameInput Q := {|
  controls_update := fun v => v;
  intersects := [];
  sin_camera := 0;
  sin_computer := 0
|}.

Definition pointing_at_exact (o : Object3D) : FrameInput Q := {|
  controls_update := fun v => v;
  intersects := [o];
  sin_camera := -1;
  sin_computer := 1
|}.

Definition sample_events_exact : list (Event Q) :=
  [loaded_camera camera_gltf;
   animation_frame (pointing_at_exact [0; 5]%nat);
   animation_frame (pointing_at_exact [0; 5]%nat);
   animation_frame (pointing_at_exact [0; 5]%nat);
   window_click;
   animation_frame still_exact].

(** ** Vocabulary of the further properties *)

(** The meshes of a subtree, in the order [traverse] visits them. *)
Fixpoint meshes (n : SceneNode) : list Mesh :=
  match n with
  | Node m cs =>
      match m with Some x => [x] | None => [] end ++ flat_map meshes cs
  end.

(** What [destroy] releases of one mesh. *)
Definition mesh_disposals (m : Mesh) : list Disposal :=
  [geometry_dispose (geometry m); material_dispose (material m)].

Section MoreVocabulary.
Context {num : Type} {N : Number num}.
Local Open Scope num_scope.

(** The state [threeSceneAction] builds before it registers its listeners
    and calls [animate] (lines 12-50, 92-105, 124-130). *)
Definition initial_state (clientWidth clientHeight : Z) : State num :=
  let aspect := lit (inject_Z clientWidth) / lit (inject_Z clientHeight) in
  {|
    camera_position := vec3_lit 0.5 0 1;
    camera_aspect := aspect;
    projection_aspect := aspect;
    renderer_size := (clientWidth, clientHeight);
    cameraGlow := lit 0;
    computerGlow := lit 0;
    scene := [floor; light; light; light; light];
    cameraModel := undefined;
    macbookModel := undefined;
    hoveredObject := null;
    mouse := (lit 0, lit 0);
    cameraTargetIntensity := lit 0;
    computerTargetIntensity := lit 0;
    animationFrameId := 0;
    frame_requests := [];
    next_request := 1;
    listeners := [];
    console := [];
    rendered := [];
    disposed := []
  |}.

(** The gltf scenes the load callbacks of a list of events added. *)
Definition loaded_scenes (es : list (Event num)) : list SceneNode :=
  flat_map (fun e => match e with
                     | loaded_camera g | loaded_computer g => [g]
                     | _ => []
                     end) es.

(** The events up to the first teardown. *)
Fixpoint before_teardown (es : list (Event num)) : list (Event num) :=
  match es with
  | [] => []
  | teardown :: _ => []
  | e :: es' => e :: before_teardown es'
  end.

(** The ids of the main loop's pending ticks. *)
Definition animates_in (q : list (nat * Callback num)) : list nat :=
  flat_map (fun r => match snd r with Animate => [fst r] | Move _ => [] end) q.

(** The camera's aspect, the render target, the pointer, the listeners and
    what was disposed. *)
Definition surroundings (s : State num) :=
  (camera_aspect s, projection_aspect s, renderer_size s, mouse s, listeners s, disposed s).

(** The light targets: both off, or exactly one lit. *)
Definition target_pair_ok (s : State num) : Prop :=
  (cameraTargetIntensity s = lit 0 /\ computerTargetIntensity s = lit 0) \/
  (cameraTargetIntensity s = lit 2.5 /\ computerTargetIntensity s = lit 0) \/
  (cameraTargetIntensity s = lit 0 /\ computerTargetIntensity s = lit 2.5).

(** The aspect is that of the render target, and the projection is that
    of the aspect. *)
Definition aspect_in_sync (s : State num) : Prop :=
  camera_aspect s
    = lit (inject_Z (fst (renderer_size s))) / lit (inject_Z (snd (renderer_size s))) /\
  projection_aspect s = camera_aspect s.

(** The ids the host has given out are below [next_request]; the id in
    [animationFrameId] is one of them, and no transition's tick has it. *)
Definition ids_ok (s : State num) : Prop :=
  (forall r, In r (frame_requests s) -> (fst r < next_request s)%nat) /\
  (animationFrameId s < next_request s)%nat /\
  (forall id f, In (id, Move f) (frame_requests s) -> id <> animationFrameId s).

(** The main loop has exactly one tick pending, the one whose id
    [animationFrameId] holds. *)
Definition looping (s : State num) : Prop :=
  animates_in (frame_requests s) = [animationFrameId s].

(** The main loop has no tick pending. *)
Definition stopped (s : State num) : Prop :=
  animates_in (frame_requests s) = [].

(** What the main loop and the input handlers write. *)
Definition appearance (s : State num) :=
  (rendered s, hoveredObject s,
   (cameraTargetIntensity s, computerTargetIntensity s),
   (cameraGlow s, computerGlow s),
   (mouse s, camera_aspect s, projection_aspect s, renderer_size s)).

(** The listeners [threeSceneAction] registers. *)
Definition three_listeners : list (EventType * Handler) :=
  [(mousemove, onMouseMove_handler); (click, onClick_handler);
   (resize, handleResize_handler)].

(** One tick of a transition: whether [move] finds its progress below 1,
    the closure it requests the next tick with, and what it logs
    otherwise (lines 193-201). *)
Definition still_running (f : Focus num) : bool := next_progress f <? lit 1.

Definition advance (f : Focus num) : Focus num := with_progress (next_progress f) f.

Definition selection_log (f : Focus num) : string * string :=
  ("Open portfolio:"%string, portfolio f).

End MoreVocabulary.

(** A transition that has made between [60 - r] and 59 ticks: at most [r]
    frames are left to it. *)
Definition frames_left (r : nat) (f : Focus float) : Prop :=
  exists n, (60 - r <= n <= 59)%nat /\ progress f = progress_after n.

(** *** The [onMount] variant's setup (lines 249-422)

    The callback given to [onMount]: the same scene with the camera at
    [(0.5, 0, 4)]; the resize listener is an arrow function with the body
    of [handleResize], and no request id is kept. *)

Section OnMountSetup.
Context {num : Type} {N : Number num}.
Local Open Scope num_scope.

Definition onMount (clientWidth clientHeight : Z) (i : FrameInput num) : State num :=
  let aspect := lit (inject_Z clientWidth) / lit (inject_Z clientHeight) in
  let s := {|
    camera_position := vec3_lit 0.5 0 4;
    camera_aspect := aspect;
    projection_aspect := aspect;
    renderer_size := (clientWidth, clientHeight);
    cameraGlow := lit 0;
    computerGlow := lit 0;
    scene := [floor; light; light; light; light];
    cameraModel := undefined;
    macbookModel := undefined;
    hoveredObject := null;
    mouse := (lit 0, lit 0);
    cameraTargetIntensity := lit 0;
    computerTargetIntensity := lit 0;
    animationFrameId := 0;
    frame_requests := [];
    next_request := 1;
    listeners := [];
    console := [];
    rendered := [];
    disposed := []
  |} in
  let s := addEventListener mousemove onMouseMove_handler s in
  let s := addEventListener click onClick_handler s in
  let s := OnMount.animate i s in
  addEventListener resize handleResize_handler s.

(** The two lights of the [onMount] variant: both off, or exactly one at
    2 (lines 372-384). *)
Definition glow_pair_ok (s : State num) : Prop :=
  (cameraGlow s = lit 0 /\ computerGlow s = lit 0) \/
  (cameraGlow s = lit 2 /\ computerGlow s = lit 0) \/
  (cameraGlow s = lit 0 /\ computerGlow s = lit 2).

(** What holds between two events of the [onMount] variant: one tick of
    the loop is pending, the resize listener is registered, and the lights
    are both off or one is at 2. *)
Definition onMount_invariant (n : nat) (s : State num) : Prop :=
  List.length (animates_in (frame_requests s)) = 1%nat /\
  List.length (rendered s) = n /\
  listening resize handleResize_handler s = true /\
  glow_pair_ok s.

End OnMountSetup.

(** *** The pointer (lines 107-111), in binary64

    An offset of the pointer that lies on a canvas of positive, finite
    size, and a coordinate between -1 and 1. *)

Definition on_canvas (offset size : float) : bool :=
  (in_range size offset && (0 <? size) && (size <? infinity))%float.

Definition in_device_range (v : float) : bool := ((-1 <=? v) && (v <=? 1))%float.

(** A model whose only mesh is three levels below its root. *)
Definition nested_gltf : SceneNode :=
  Node None [Node None [Node None [Node (Some {| geometry := 1; material := 1 |}) []]]].

(** * Properties *)

Unset Implicit Arguments.

(** Reads a field through the assignments made since. *)
Ltac fields :=
  cbn [camera_position camera_aspect projection_aspect renderer_size cameraGlow computerGlow scene cameraModel macbookModel hoveredObject mouse cameraTargetIntensity computerTargetIntensity animationFrameId frame_requests next_request listeners console rendered disposed
       set_camera_position set_camera_aspect set_projection_aspect set_renderer_size set_cameraGlow set_computerGlow set_scene set_cameraModel set_macbookModel set_hoveredObject set_mouse set_cameraTargetIntensity set_computerTargetIntensity set_animationFrameId set_frame_requests set_next_request set_listeners set_console set_rendered set_disposed
       fst snd].

Ltac fields_in H :=
  cbn [camera_position camera_aspect projection_aspect renderer_size cameraGlow computerGlow scene cameraModel macbookModel hoveredObject mouse cameraTargetIntensity computerTargetIntensity animationFrameId frame_requests next_request listeners console rendered disposed
       set_camera_position set_camera_aspect set_projection_aspect set_renderer_size set_cameraGlow set_computerGlow set_scene set_cameraModel set_macbookModel set_hoveredObject set_mouse set_cameraTargetIntensity set_computerTargetIntensity set_animationFrameId set_frame_requests set_next_request set_listeners set_console set_rendered set_disposed
       fst snd] in H.

(** ** Numbers *)

Lemma exact_monotone : Rounded.monotone_rounding (fun x => x).
Proof. split; intros; try assumption; reflexivity. Qed.

Lemma Qltb_lt (x y : Q) : Rounded.Qltb x y = true <-> (x < y)%Q.
Proof.
  unfold Rounded.Qltb. rewrite negb_true_iff.
  destruct (Qle_bool y x) eqn:E.
  - apply Qle_bool_iff in E. split; [discriminate | intro H; exfalso; lra].
  - split; [intros _ | reflexivity].
    apply Qnot_le_lt. intro H. apply Qle_bool_iff in H. congruence.
Qed.

(** The literals of the component denote the doubles JavaScript reads them
    as. *)
Example literals_binary64 :
  (lit 0.08 : float) = 0.08%float /\ (lit 0.3 : float) = 0.3%float /\
  (lit 0.05 : float) = 0.05%float /\ (lit 2.5 : float) = 2.5%float /\
  (lit 0.02 : float) = 0.02%float /\ (lit 1.2 : float) = 1.2%float /\
  (lit (-0.3) : float) = (-0.3)%float /\ (lit 1 : float) = 1%float.
Proof. vm_compute. repeat split. Qed.

(** ** References *)

Lemma Object3D_eqb_eq (a b : Object3D) : Object3D_eqb a b = true <-> a = b.
Proof.
  unfold Object3D_eqb. destruct (list_eq_dec Nat.eq_dec a b); split; congruence.
Qed.

Lemma Object3D_eqb_refl (a : Object3D) : Object3D_eqb a a = true.
Proof. now apply Object3D_eqb_eq. Qed.

Lemma Ref_eqb_eq (a b : Ref) : Ref_eqb a b = true <-> a = b.
Proof.
  destruct a, b; cbn; try (split; congruence).
  rewrite Object3D_eqb_eq. split; congruence.
Qed.

Lemma Ref_eqb_refl (a : Ref) : Ref_eqb a a = true.
Proof. now apply Ref_eqb_eq. Qed.

Lemma Ref_eqb_neq (a b : Ref) : Ref_eqb a b = false <-> a <> b.
Proof.
  rewrite <- Ref_eqb_eq. destruct (Ref_eqb a b); split; congruence.
Qed.

(** ** The frame loop without models (lines 138-179) *)

Section FrameLoop.
Context {num : Type} {N : Number num}.
Local Open Scope num_scope.

Lemma hover_without_models (i : FrameInput num) (s : State num) :
  models s = [] -> hover i s = s.
Proof. intros H. unfold hover. now rewrite H. Qed.


End FrameLoop.

(** ** What each function leaves alone *)

Section Frames.
Context {num : Type} {N : Number num}.
Local Open Scope num_scope.

Lemma requestAnimationFrame_hover_lights (cb : Callback num) (s : State num) :
  hover_lights (snd (requestAnimationFrame cb s)) = hover_lights s.
Proof. destruct s; reflexivity. Qed.

Lemma move_hover_lights (f : Focus num) (s : State num) :
  hover_lights (move f s) = hover_lights s.
Proof.
  unfold move. destruct (_ <? _); destruct s; reflexivity.
Qed.

Lemma focusOn_hover_lights (obj : Ref) (key : string) (s : State num) :
  hover_lights (focusOn obj key s) = hover_lights s.
Proof.
  unfold focusOn. destruct obj; try reflexivity. apply move_hover_lights.
Qed.

Lemma onClick_hover_lights (s : State num) :
  hover_lights (onClick s) = hover_lights s.
Proof.
  unfold onClick. destruct (hoveredObject s); try reflexivity.
  destruct (_ || _); [apply focusOn_hover_lights|].
  destruct (_ || _); [apply focusOn_hover_lights|reflexivity].
Qed.

Lemma onMouseMove_hover_lights (x y l t w h : num) (s : State num) :
  hover_lights (onMouseMove x y l t w h s) = hover_lights s.
Proof. destruct s; reflexivity. Qed.

Lemma handleResize_hover_lights (w h : Z) (s : State num) :
  hover_lights (handleResize w h s) = hover_lights s.
Proof. destruct s; reflexivity. Qed.

Lemma destroy_hover_lights (s : State num) :
  hover_lights (destroy s) = hover_lights s.
Proof. destruct s; reflexivity. Qed.

Lemma hover_invariant_ext (s s' : State num) :
  hover_lights s' = hover_lights s -> hover_invariant s -> hover_invariant s'.
Proof.
  unfold hover_lights. intros E [H1 H2 H3 H4].
  injection E as E1 E2 E3 E4 E5 E6 E7 E8.
  split; unfold models in *; rewrite ?E1, ?E2, ?E3, ?E4, ?E5, ?E6; assumption.
Qed.

End Frames.

(** ** The hover stage (lines 137-165) *)

Section Hover.
Context {num : Type} {N : Number num}.
Local Open Scope num_scope.

(** The ancestor walk stops at the model root above the object: the roots
    are children of the scene, everything deeper is no root. *)
Lemma walk_up_finds (ms : list Object3D) (k : nat) (below : list nat) :
  In [k] ms ->
  (forall m, In m ms -> List.length m = 1%nat) ->
  walk_up ms (below ++ [k]) = ref [k].
Proof.
  intros Hin Hlen. induction below as [|b below IH]; cbn [app walk_up].
  - replace (includes ms [k]) with true; [reflexivity|].
    symmetry. apply existsb_exists. exists [k]. split; [exact Hin|apply Object3D_eqb_refl].
  - replace (includes ms (b :: below ++ [k])) with false; [exact IH|].
    symmetry. apply not_true_is_false. intros H.
    apply existsb_exists in H. destruct H as [m [Hm E]].
    apply Object3D_eqb_eq in E. subst m. apply Hlen in Hm.
    cbn in Hm. rewrite length_app in Hm. cbn in Hm. lia.
Qed.

Lemma models_roots (s : State num) :
  hover_invariant s -> forall m, In m (models s) -> List.length m = 1%nat.
Proof.
  intros [Hc Hm _ _] m. unfold models, filter_Boolean. cbn.
  destruct Hc as [Hc|[k [Hc _]]], Hm as [Hm|[k' [Hm _]]]; rewrite Hc, Hm; cbn;
    intuition (subst; reflexivity).
Qed.

Lemma hover_camera (i : FrameInput num) (s : State num) :
  hover_invariant s -> hovering_camera s i ->
  cameraTargetIntensity (hover i s) = lit 2.5 /\
  computerTargetIntensity (hover i s) = lit 0.
Proof.
  intros Hinv (target & rest & m & Hi & Hm & below & Hne & Ht).
  pose proof (models_roots s Hinv) as Hroots.
  destruct (camera_is_scene_child Hinv) as [Hu|[k [Hk _]]]; [congruence|].
  assert (m = [k]) by congruence. subst m.
  assert (Hin : In [k] (models s)).
  { unfold models. rewrite Hk. cbn. now left. }
  unfold hover. rewrite Hi.
  destruct (models s) as [|m0 ms] eqn:Hms; [destruct Hin|]. cbn [List.length Nat.ltb Nat.leb].
  destruct below as [|b below]; [congruence|]. subst target. cbn [app parent find_root].
  rewrite (walk_up_finds _ k below Hin Hroots).
  fields. rewrite Hk, Ref_eqb_refl. fields. split; reflexivity.
Qed.

Lemma hover_computer (i : FrameInput num) (s : State num) :
  hover_invariant s -> hovering_computer s i ->
  cameraTargetIntensity (hover i s) = lit 0 /\
  computerTargetIntensity (hover i s) = lit 2.5.
Proof.
  intros Hinv (target & rest & m & Hi & Hm & below & Hne & Ht).
  pose proof (models_roots s Hinv) as Hroots.
  destruct (macbook_is_scene_child Hinv) as [Hu|[k [Hk _]]]; [congruence|].
  assert (m = [k]) by congruence. subst m.
  assert (Hin : In [k] (models s)).
  { unfold models. rewrite Hk. destruct (cameraModel s); cbn; auto. }
  assert (Hcam : Ref_eqb (ref [k]) (cameraModel s) = false).
  { apply Ref_eqb_neq. intros E. exact (models_distinct Hinv (eq_sym E) Hk). }
  unfold hover. rewrite Hi.
  destruct (models s) as [|m0 ms] eqn:Hms; [destruct Hin|]. cbn [List.length Nat.ltb Nat.leb].
  destruct below as [|b below]; [congruence|]. subst target. cbn [app parent find_root].
  rewrite (walk_up_finds _ k below Hin Hroots).
  fields. rewrite Hcam, Hk, Ref_eqb_refl. fields. split; reflexivity.
Qed.

Lemma hover_nothing (i : FrameInput num) (s : State num) :
  hover_invariant s -> intersects i = [] ->
  hoveredObject (hover i s) = null /\
  cameraTargetIntensity (hover i s) = lit 0 /\
  computerTargetIntensity (hover i s) = lit 0.
Proof.
  intros Hinv Hi. unfold hover. rewrite Hi.
  destruct (models s) as [|m0 ms] eqn:Hms; cbn [List.length Nat.ltb Nat.leb].
  - exact (idle_before_load Hinv Hms).
  - fields. repeat split.
Qed.

(** A hit belongs to one model at most: the roots are distinct children of
    the scene. *)
Lemma one_model_hovered (i : FrameInput num) (s : State num) :
  hover_invariant s -> hovering_camera s i -> hovering_computer s i -> False.
Proof.
  intros Hinv (t & r & m & Hi & Hm & b & _ & Ht) (t' & r' & m' & Hi' & Hm' & b' & _ & Ht').
  destruct (camera_is_scene_child Hinv) as [Hu|[k [Hk _]]]; [congruence|].
  destruct (macbook_is_scene_child Hinv) as [Hu|[k' [Hk' _]]]; [congruence|].
  assert (E : b ++ [k] = b' ++ [k']) by congruence.
  apply app_inj_tail in E. destruct E as [_ E]. subst k'.
  exact (models_distinct Hinv Hk Hk').
Qed.

(** The hover stage reads the two model variables and the hit list, and
    writes the hovered object and the two targets. *)
Lemma hover_reads (i : FrameInput num) (s s' : State num) :
  cameraModel s' = cameraModel s -> macbookModel s' = macbookModel s ->
  hoveredObject s' = hoveredObject s ->
  cameraTargetIntensity s' = cameraTargetIntensity s ->
  computerTargetIntensity s' = computerTargetIntensity s ->
  hoveredObject (hover i s') = hoveredObject (hover i s) /\
  cameraTargetIntensity (hover i s') = cameraTargetIntensity (hover i s) /\
  computerTargetIntensity (hover i s') = computerTargetIntensity (hover i s).
Proof.
  intros H1 H2 H3 H4 H5. unfold hover, models. rewrite H1, H2.
  destruct (0 <? _)%nat; [|auto].
  destruct (intersects i) as [|t r]; fields; [auto|].
  rewrite H1, H2.
  destruct (Ref_eqb _ (cameraModel s)); fields; [auto|].
  destruct (Ref_eqb _ (macbookModel s)); fields; auto.
Qed.

Lemma hover_writes (i : FrameInput num) (s : State num) :
  cameraModel (hover i s) = cameraModel s /\
  macbookModel (hover i s) = macbookModel s /\
  scene (hover i s) = scene s /\
  camera_position (hover i s) = camera_position s /\
  cameraGlow (hover i s) = cameraGlow s /\
  computerGlow (hover i s) = computerGlow s /\
  frame_requests (hover i s) = frame_requests s /\
  next_request (hover i s) = next_request s /\
  console (hover i s) = console s /\
  rendered (hover i s) = rendered s /\
  listeners (hover i s) = listeners s.
Proof.
  unfold hover.
  destruct (0 <? _)%nat; [|repeat split].
  destruct (intersects i) as [|t r]; fields; [repeat split|].
  destruct (Ref_eqb _ (cameraModel s)); fields; [repeat split|].
  destruct (Ref_eqb _ (macbookModel s)); fields; repeat split.
Qed.

(** [animate] changes the hover state in its hover stage only. *)
Lemma animate_hover (i : FrameInput num) (s : State num) :
  hoveredObject (animate i s) = hoveredObject (hover i s) /\
  cameraTargetIntensity (animate i s) = cameraTargetIntensity (hover i s) /\
  computerTargetIntensity (animate i s) = computerTargetIntensity (hover i s) /\
  cameraModel (animate i s) = cameraModel s /\
  macbookModel (animate i s) = macbookModel s /\
  scene (animate i s) = scene s.
Proof.
  unfold animate, requestAnimationFrame. fields.
  match goal with |- context [hover i ?s1] => set (s' := s1) end.
  destruct (hover_reads i s s') as (H1 & H2 & H3); try reflexivity.
  destruct (hover_writes i s') as (W1 & W2 & W3 & _).
  rewrite H1, H2, H3, W1, W2, W3. repeat split.
Qed.

End Hover.

(** ** The hover invariant holds whatever the host does *)

Section HoverInvariant.
Context {num : Type} {N : Number num}.
Local Open Scope num_scope.

Lemma addEventListener_hover_lights (ty : EventType) (h : Handler) (s : State num) :
  hover_lights (addEventListener ty h s) = hover_lights s.
Proof. unfold addEventListener. destruct (existsb _ _); reflexivity. Qed.

Lemma animate_invariant (i : FrameInput num) (s : State num) :
  hover_invariant s -> hover_invariant (animate i s).
Proof.
  intros Hinv.
  destruct (animate_hover i s) as (H1 & H2 & H3 & H4 & H5 & H6).
  split.
  - rewrite H4, H6. apply Hinv.
  - rewrite H5, H6. apply Hinv.
  - rewrite H4, H5. apply Hinv.
  - unfold models. rewrite H4, H5. intros Hm.
    rewrite H1, H2, H3, hover_without_models by exact Hm.
    exact (idle_before_load Hinv Hm).
Qed.

Lemma loaded_invariant (g : SceneNode) (s : State num) :
  hover_invariant s ->
  hover_invariant (camera_loaded g s) /\ hover_invariant (computer_loaded g s).
Proof.
  intros [Hc Hm Hd Hi].
  split; split; unfold camera_loaded, computer_loaded, models, scene_child in *; fields;
    rewrite ?length_app; cbn [List.length];
    try (right; eexists; split; [reflexivity|lia]);
    try (destruct Hc as [Hc|[k [Hc Hk]]]; [now left|right; exists k; split; [exact Hc|lia]]);
    try (destruct Hm as [Hm|[k [Hm Hk]]]; [now left|right; exists k; split; [exact Hm|lia]]).
  - intros m E1 E2. destruct Hm as [Hm|[k [Hm Hk]]]; [congruence|].
    rewrite Hm in E2. rewrite <- E2 in E1. injection E1 as E1. lia.
  - cbn. discriminate.
  - intros m E1 E2. destruct Hc as [Hc|[k [Hc Hk]]]; [congruence|].
    rewrite Hc in E1. rewrite <- E1 in E2. injection E2 as E2. lia.
  - destruct (cameraModel s); cbn; discriminate.
Qed.

Lemma run_callback_invariant (i : FrameInput num) (cb : Callback num) (s : State num) :
  hover_invariant s -> hover_invariant (run_callback i cb s).
Proof.
  destruct cb as [|f]; cbn [run_callback].
  - apply animate_invariant.
  - apply hover_invariant_ext, move_hover_lights.
Qed.

Lemma frame_invariant (i : FrameInput num) (s : State num) :
  hover_invariant s -> hover_invariant (frame i s).
Proof.
  intros Hinv. unfold frame.
  assert (H0 : hover_invariant (set_frame_requests [] s))
    by (revert Hinv; apply hover_invariant_ext; reflexivity).
  revert H0. generalize (set_frame_requests [] s).
  induction (frame_requests s) as [|r q IH]; intros s0 H0; cbn [fold_left]; [exact H0|].
  apply IH, run_callback_invariant, H0.
Qed.

Lemma step_invariant (s : State num) (e : Event num) :
  hover_invariant s -> hover_invariant (step s e).
Proof.
  intros Hinv. destruct e; cbn [step].
  - now apply frame_invariant.
  - destruct (listening _ _ _); [|exact Hinv].
    revert Hinv. apply hover_invariant_ext, onMouseMove_hover_lights.
  - destruct (listening _ _ _); [|exact Hinv].
    revert Hinv. apply hover_invariant_ext, onClick_hover_lights.
  - destruct (listening _ _ _); [|exact Hinv].
    revert Hinv. apply hover_invariant_ext, handleResize_hover_lights.
  - now apply loaded_invariant.
  - now apply loaded_invariant.
  - revert Hinv. apply hover_invariant_ext, destroy_hover_lights.
Qed.

Lemma run_invariant (es : list (Event num)) (s : State num) :
  hover_invariant s -> hover_invariant (run s es).
Proof.
  revert s. induction es as [|e es IH]; intros s Hinv; cbn; [exact Hinv|].
  apply IH, step_invariant, Hinv.
Qed.

Lemma threeSceneAction_invariant (w h : Z) (i : FrameInput num) :
  hover_invariant (threeSceneAction w h i).
Proof.
  unfold threeSceneAction.
  eapply hover_invariant_ext; [apply addEventListener_hover_lights|].
  apply animate_invariant.
  eapply hover_invariant_ext; [apply addEventListener_hover_lights|].
  eapply hover_invariant_ext; [apply addEventListener_hover_lights|].
  split; fields; unfold scene_child; auto; discriminate.
Qed.

(** C4.  Whatever happened since the component was set up, the tick of the
    frame loop leaves the light targets determined by its hit test: when
    the nearest intersection lies below the camera model's root, the
    camera light's target is 2.5 and the other 0; below the computer
    model's root, the reverse; when nothing is hit, no object is hovered
    and both targets are 0; and one hit never belongs to both models. *)
Theorem hover_decides_light_targets
  (w h : Z) (i0 : FrameInput num) (es : list (Event num)) (i : FrameInput num) :
  let s := run (threeSceneAction w h i0) es in
  (hovering_camera s i ->
     cameraTargetIntensity (animate i s) = lit 2.5 /\
     computerTargetIntensity (animate i s) = lit 0) /\
  (hovering_computer s i ->
     cameraTargetIntensity (animate i s) = lit 0 /\
     computerTargetIntensity (animate i s) = lit 2.5) /\
  (intersects i = [] ->
     hoveredObject (animate i s) = null /\
     cameraTargetIntensity (animate i s) = lit 0 /\
     computerTargetIntensity (animate i s) = lit 0) /\
  (hovering_camera s i -> hovering_computer s i -> False).
Proof.
  intros s.
  assert (Hinv : hover_invariant s)
    by apply run_invariant, threeSceneAction_invariant.
  destruct (animate_hover i s) as (H1 & H2 & H3 & _).
  rewrite H1, H2, H3.
  split; [|split; [|split]].
  - now apply hover_camera.
  - now apply hover_computer.
  - now apply hover_nothing.
  - now apply one_model_hovered.
Qed.

End HoverInvariant.

(** ** The light intensities (lines 167-177) *)

Section Lights.
Context {num : Type} {N : Number num}.
Local Open Scope num_scope.

Lemma hover_targets (i : FrameInput num) (s : State num) :
  (cameraTargetIntensity (hover i s) = cameraTargetIntensity s \/
   cameraTargetIntensity (hover i s) = lit 0 \/
   cameraTargetIntensity (hover i s) = lit 2.5) /\
  (computerTargetIntensity (hover i s) = computerTargetIntensity s \/
   computerTargetIntensity (hover i s) = lit 0 \/
   computerTargetIntensity (hover i s) = lit 2.5).
Proof.
  unfold hover.
  destruct (0 <? _)%nat; [|auto].
  destruct (intersects i) as [|t r]; fields; [auto|].
  destruct (Ref_eqb _ (cameraModel s)); fields; [auto|].
  destruct (Ref_eqb _ (macbookModel s)); fields; auto.
Qed.

(** The intensities after a tick: smoothed toward the targets the hover
    stage of the same tick left, then flickered. *)
Lemma animate_glow (i : FrameInput num) (s : State num) :
  cameraGlow (animate i s)
    = flicker (smooth (cameraGlow s) (cameraTargetIntensity (animate i s))) (sin_camera i) /\
  computerGlow (animate i s)
    = flicker (smooth (computerGlow s) (computerTargetIntensity (animate i s))) (sin_computer i).
Proof.
  unfold animate, requestAnimationFrame. fields.
  match goal with |- context [hover i ?s1] => set (s' := s1) end.
  destruct (hover_writes i s') as (_ & _ & _ & _ & W1 & W2 & _).
  rewrite W1, W2. split; reflexivity.
Qed.

End Lights.

Section LightInvariant.
Context {num : Type} {N : Number num}.
Variables sine_ok glow_ok : num -> Prop.
Hypothesis glow_init : glow_ok (lit 0).
Hypothesis glow_step : forall c t x : num,
  glow_ok c -> is_target t -> sine_ok x -> glow_ok (flicker (smooth c t) x).

Lemma animate_light_invariant (i : FrameInput num) (s : State num) :
  sines_ok sine_ok i -> light_invariant glow_ok s ->
  light_invariant glow_ok (animate i s).
Proof.
  intros [Hs1 Hs2] (Hg1 & Hg2 & Ht1 & Ht2).
  destruct (animate_glow i s) as [G1 G2].
  destruct (animate_hover i s) as (_ & T1 & T2 & _).
  destruct (hover_targets i s) as [C1 C2].
  assert (Ht1' : is_target (cameraTargetIntensity (animate i s))).
  { rewrite T1. destruct C1 as [C|C]; [rewrite C; exact Ht1|exact C]. }
  assert (Ht2' : is_target (computerTargetIntensity (animate i s))).
  { rewrite T2. destruct C2 as [C|C]; [rewrite C; exact Ht2|exact C]. }
  unfold light_invariant. rewrite G1, G2.
  repeat split; try assumption; apply glow_step; assumption.
Qed.

Lemma light_invariant_same (s s' : State num) :
  cameraGlow s' = cameraGlow s -> computerGlow s' = computerGlow s ->
  cameraTargetIntensity s' = cameraTargetIntensity s ->
  computerTargetIntensity s' = computerTargetIntensity s ->
  light_invariant glow_ok s -> light_invariant glow_ok s'.
Proof.
  unfold light_invariant. intros E1 E2 E3 E4. rewrite E1, E2, E3, E4. auto.
Qed.

Lemma light_invariant_ext (s s' : State num) :
  hover_lights s' = hover_lights s -> light_invariant glow_ok s -> light_invariant glow_ok s'.
Proof.
  unfold hover_lights. intros E. injection E as E1 E2 E3 E4 E5 E6 E7 E8.
  now apply light_invariant_same.
Qed.

Lemma run_callback_light_invariant (i : FrameInput num) (cb : Callback num) (s : State num) :
  sines_ok sine_ok i -> light_invariant glow_ok s ->
  light_invariant glow_ok (run_callback i cb s).
Proof.
  intros Hi. destruct cb as [|f]; cbn [run_callback].
  - now apply animate_light_invariant.
  - apply light_invariant_ext, move_hover_lights.
Qed.

Lemma frame_light_invariant (i : FrameInput num) (s : State num) :
  sines_ok sine_ok i -> light_invariant glow_ok s ->
  light_invariant glow_ok (frame i s).
Proof.
  intros Hi Hinv. unfold frame.
  assert (H0 : light_invariant glow_ok (set_frame_requests [] s))
    by (revert Hinv; apply light_invariant_ext; reflexivity).
  revert H0. generalize (set_frame_requests [] s).
  induction (frame_requests s) as [|r q IH]; intros s0 H0; cbn [fold_left]; [exact H0|].
  apply IH, run_callback_light_invariant; assumption.
Qed.

Lemma step_light_invariant (s : State num) (e : Event num) :
  Forall (sines_ok sine_ok) (frame_inputs [e]) -> light_invariant glow_ok s ->
  light_invariant glow_ok (step s e).
Proof.
  intros Hi Hinv. destruct e; cbn [step].
  - apply frame_light_invariant; [|exact Hinv]. now inversion Hi.
  - destruct (listening _ _ _); [|exact Hinv].
    revert Hinv. apply light_invariant_ext, onMouseMove_hover_lights.
  - destruct (listening _ _ _); [|exact Hinv].
    revert Hinv. apply light_invariant_ext, onClick_hover_lights.
  - destruct (listening _ _ _); [|exact Hinv].
    revert Hinv. apply light_invariant_ext, handleResize_hover_lights.
  - revert Hinv. now apply light_invariant_same.
  - revert Hinv. now apply light_invariant_same.
  - revert Hinv. apply light_invariant_ext, destroy_hover_lights.
Qed.

Lemma run_light_invariant (es : list (Event num)) (s : State num) :
  Forall (sines_ok sine_ok) (frame_inputs es) -> light_invariant glow_ok s ->
  light_invariant glow_ok (run s es).
Proof.
  revert s. induction es as [|e es IH]; intros s Hi Hinv; cbn; [exact Hinv|].
  change (e :: es) with ([e] ++ es) in Hi. unfold frame_inputs in Hi.
  rewrite flat_map_app in Hi. apply Forall_app in Hi. destruct Hi as [He Hes].
  apply IH; [exact Hes|]. now apply step_light_invariant.
Qed.

Lemma threeSceneAction_light_invariant (w h : Z) (i : FrameInput num) :
  sines_ok sine_ok i -> light_invariant glow_ok (threeSceneAction w h i).
Proof.
  intros Hi. unfold threeSceneAction.
  eapply light_invariant_ext; [apply addEventListener_hover_lights|].
  apply animate_light_invariant; [exact Hi|].
  eapply light_invariant_ext; [apply addEventListener_hover_lights|].
  eapply light_invariant_ext; [apply addEventListener_hover_lights|].
  unfold light_invariant, is_target. fields. auto.
Qed.

(** With sines that are [sine_ok], both intensities are [glow_ok] after every
    event since setup, whatever the hover outcomes were. *)
Lemma lights_stay_ok (w h : Z) (i0 : FrameInput num) (es : list (Event num)) :
  sines_ok sine_ok i0 -> Forall (sines_ok sine_ok) (frame_inputs es) ->
  glow_ok (cameraGlow (run (threeSceneAction w h i0) es)) /\
  glow_ok (computerGlow (run (threeSceneAction w h i0) es)).
Proof.
  intros H0 Hes.
  assert (Hinv : light_invariant glow_ok (run (threeSceneAction w h i0) es))
    by (apply run_light_invariant; [exact Hes|now apply threeSceneAction_light_invariant]).
  destruct Hinv as (H1 & H2 & _). split; assumption.
Qed.

End LightInvariant.

(** *** Under a rounding operator *)

Section RoundedLights.
Variable rnd : Q -> Q.
Hypothesis Hrnd : Rounded.monotone_rounding rnd.
Local Open Scope Q_scope.

Lemma rnd_nonneg (x : Q) : 0 <= x -> 0 <= rnd x.
Proof.
  intros H. apply (Rounded.rnd_le Hrnd) in H. rewrite (Rounded.rnd_0 Hrnd) in H. exact H.
Qed.

Lemma rnd_above (a x : Q) : rnd a == a -> a <= x -> a <= rnd x.
Proof.
  intros Ha H. apply (Rounded.rnd_le Hrnd) in H. rewrite Ha in H. exact H.
Qed.

Lemma rnd_fixed_opp (a : Q) : rnd a == a -> rnd (- a) == - a.
Proof. intros Ha. rewrite (Rounded.rnd_opp Hrnd). rewrite Ha. reflexivity. Qed.

Lemma rnd_at_most_1 (x : Q) : x <= 1 -> rnd x <= 1.
Proof.
  intros H. apply (Rounded.rnd_le Hrnd) in H. rewrite (Rounded.rnd_1 Hrnd) in H. exact H.
Qed.

(** Smoothing toward a target that is not negative keeps an intensity that
    is not negative so. *)
Lemma smooth_ok (c t : Q) :
  intensity_ok rnd c -> 0 <= t ->
  intensity_ok rnd (smooth (N := Rounded.number rnd) c t).
Proof.
  intros [Hc Hfix] Ht. unfold smooth. cbn [nadd nsub nmul lit Rounded.number].
  split; [|apply (Rounded.rnd_idem Hrnd)].
  set (k := rnd 0.08).
  assert (Hk0 : 0 <= k) by (apply rnd_nonneg; lra).
  assert (Hk1 : k <= 1) by (apply rnd_at_most_1; lra).
  set (d := rnd (t - c)).
  assert (Hd : - c <= d).
  { apply rnd_above; [now apply rnd_fixed_opp|lra]. }
  assert (Hdfix : rnd d == d) by apply (Rounded.rnd_idem Hrnd).
  assert (He : - c <= rnd (d * k)).
  { destruct (Qlt_le_dec d 0) as [Hneg|Hpos].
    - apply Qle_trans with d; [exact Hd|].
      apply rnd_above; [exact Hdfix|]. nra.
    - apply Qle_trans with 0; [lra|]. apply rnd_nonneg. nra. }
  apply rnd_nonneg. lra.
Qed.

(** The flicker is added above 0.3 only, and is 0.05 at most. *)
Lemma flicker_ok (c s : Q) :
  intensity_ok rnd c -> -1 <= s ->
  intensity_ok rnd (flicker (N := Rounded.number rnd) c s).
Proof.
  intros [Hc Hfix] Hs. unfold flicker. cbn [nadd nmul nltb lit Rounded.number].
  destruct (Rounded.Qltb (rnd 0.3) c) eqn:E; [|split; assumption].
  apply Qltb_lt in E.
  split; [|apply (Rounded.rnd_idem Hrnd)].
  set (k := rnd 0.05) in *.
  assert (Hk0 : 0 <= k) by (apply rnd_nonneg; lra).
  assert (Hk3 : k <= rnd 0.3) by (apply (Rounded.rnd_le Hrnd); lra).
  assert (Hkfix : rnd k == k) by apply (Rounded.rnd_idem Hrnd).
  assert (He : - k <= rnd (s * k)).
  { apply rnd_above; [now apply rnd_fixed_opp|]. nra. }
  apply rnd_nonneg. lra.
Qed.

Lemma target_nonneg (t : Q) : is_target (N := Rounded.number rnd) t -> 0 <= t.
Proof. intros [->| ->]; apply rnd_nonneg; lra. Qed.

(** Under any arithmetic that rounds monotonically (exact arithmetic, or
    round-to-nearest as long as nothing overflows), and with sines between
    -1 and 1, both light intensities are non-negative after every event
    since setup. *)
Lemma rounded_intensities_not_negative
  (w h : Z) (i0 : FrameInput Q) (es : list (Event Q)) :
  sines_ok sine_bounded i0 -> Forall (sines_ok sine_bounded) (frame_inputs es) ->
  let s := run (N := Rounded.number rnd)
               (threeSceneAction (N := Rounded.number rnd) w h i0) es in
  0 <= cameraGlow s /\ 0 <= computerGlow s.
Proof.
  intros H0 Hes s.
  destruct (lights_stay_ok (N := Rounded.number rnd) sine_bounded (intensity_ok rnd))
    with (w := w) (h := h) (i0 := i0) (es := es) as [[H1 _] [H2 _]]; try assumption.
  - split; cbn [lit Rounded.number];
      [apply rnd_nonneg; lra|rewrite (Rounded.rnd_idem Hrnd); reflexivity].
  - intros c t x Hc Ht [Hx _]. apply flicker_ok; [|exact Hx].
    apply smooth_ok; [exact Hc|now apply target_nonneg].
  - split; assumption.
Qed.

End RoundedLights.

(** ** The lights in binary64

    The operations of the doubles are those of [SpecFloat]: the exact
    result, rounded to nearest even.  Values are read as integers, in
    units of 2^-2200; rounding is monotone, so the rounding of a value
    that lies between two doubles lies between them. *)

Section Doubles.
Local Open Scope Z_scope.

(** *** Rounding *)

(** The number of binary digits of a mantissa. *)
Lemma digits2_bounds (p : positive) :
  2 ^ (Zpos (digits2_pos p) - 1) <= Zpos p < 2 ^ Zpos (digits2_pos p).
Proof.
  induction p as [p IH|p IH|]; cbn [digits2_pos].
  - rewrite Pos2Z.inj_succ. replace (Z.succ (Zpos (digits2_pos p)) - 1) with (Z.succ (Zpos (digits2_pos p) - 1)) by lia.
    rewrite !Z.pow_succ_r by lia. lia.
  - rewrite Pos2Z.inj_succ. replace (Z.succ (Zpos (digits2_pos p)) - 1) with (Z.succ (Zpos (digits2_pos p) - 1)) by lia.
    rewrite !Z.pow_succ_r by lia. lia.
  - cbn. lia.
Qed.

Lemma iter_pos_nat {A} (f : A -> A) (p : positive) (x : A) :
  iter_pos f p x = Nat.iter (Pos.to_nat p) f x.
Proof.
  revert x. induction p as [p IH|p IH|]; intros x; cbn [iter_pos].
  - rewrite !IH, Pos2Nat.inj_xI.
    replace (S (2 * Pos.to_nat p))%nat with (Pos.to_nat p + (Pos.to_nat p + 1))%nat by lia.
    rewrite !Nat.iter_add. reflexivity.
  - rewrite !IH, Pos2Nat.inj_xO.
    replace (2 * Pos.to_nat p)%nat with (Pos.to_nat p + Pos.to_nat p)%nat by lia.
    now rewrite Nat.iter_add.
  - reflexivity.
Qed.

Lemma shr_1_spec (m : Z) (r s : bool) :
  0 <= m ->
  shr_1 {| shr_m := m; shr_r := r; shr_s := s |}
  = {| shr_m := m / 2; shr_r := Z.odd m; shr_s := r || s |}.
Proof.
  intros H. destruct m as [|[p|p|]|p]; try lia; cbn [shr_1].
  - reflexivity.
  - f_equal. rewrite Pos2Z.inj_xI. apply (Z.div_unique _ 2 _ 1); lia.
  - f_equal. rewrite Pos2Z.inj_xO. apply (Z.div_unique _ 2 _ 0); lia.
  - reflexivity.
Qed.

(** [k] right shifts: the quotient, and flags that are set only when
    something was lost. *)
Lemma shr_iter_spec (m : Z) (k : nat) :
  0 <= m ->
  forall r, r = Nat.iter k shr_1 {| shr_m := m; shr_r := false; shr_s := false |} ->
  shr_m r = m / 2 ^ Z.of_nat k /\
  (shr_r r || shr_s r = true -> m mod 2 ^ Z.of_nat k <> 0).
Proof.
  intros Hm. induction k as [|k IH]; intros r ->.
  - cbn. rewrite Z.div_1_r. split; [reflexivity|discriminate].
  - rewrite Nat.iter_succ. destruct (IH _ eq_refl) as [IHm IHf].
    destruct (Nat.iter k shr_1 _) as [mk rk sk] eqn:E. cbn [shr_m shr_r shr_s] in *.
    assert (P : 0 < 2 ^ Z.of_nat k) by (apply Z.pow_pos_nonneg; lia).
    rewrite shr_1_spec by (subst mk; apply Z.div_pos; lia).
    cbn [shr_m shr_r shr_s]. rewrite Nat2Z.inj_succ, Z.pow_succ_r by lia.
    replace (2 * 2 ^ Z.of_nat k) with (2 ^ Z.of_nat k * 2) by lia.
    split.
    + subst mk. rewrite Z.div_div by lia. reflexivity.
    + intros F. rewrite Z.rem_mul_r by lia.
      pose proof (Z.mod_pos_bound m (2 ^ Z.of_nat k) P).
      pose proof (Z.mod_pos_bound (m / 2 ^ Z.of_nat k) 2 ltac:(lia)).
      apply orb_true_iff in F. destruct F as [F|F].
      * rewrite <- IHm, Zmod_odd, F. lia.
      * specialize (IHf F). nia.
Qed.

Lemma shr_spec (m e n : Z) :
  0 <= m -> 0 <= n ->
  let '(r, e') := shr {| shr_m := m; shr_r := false; shr_s := false |} e n in
  e' = e + n /\ shr_m r = m / 2 ^ n /\
  (shr_r r || shr_s r = true -> m mod 2 ^ n <> 0).
Proof.
  intros Hm Hn. unfold shr. destruct n as [|p|p]; try lia.
  - cbn [shr_m shr_r shr_s]. rewrite Z.add_0_r, Z.pow_0_r, Z.div_1_r.
    repeat split. discriminate.
  - rewrite iter_pos_nat.
    pose proof (shr_iter_spec m (Pos.to_nat p) Hm _ eq_refl) as H.
    rewrite positive_nat_Z in H. destruct H as [H1 H2]. repeat split; assumption.
Qed.

Lemma round_nearest_even_spec (r : shr_record) :
  let q := round_nearest_even (shr_m r) (loc_of_shr_record r) in
  q = shr_m r \/ (q = shr_m r + 1 /\ shr_r r || shr_s r = true).
Proof.
  destruct r as [m [|] [|]]; cbn; auto.
  destruct (Z.even m); auto.
Qed.

Lemma fexp64 (x : Z) : fexp prec emax x = Z.max (x - 53) (-1074).
Proof. reflexivity. Qed.

Lemma bounded_canonical (m : positive) (e : Z) :
  bounded prec emax m e = true ->
  Zpos (digits2_pos m) <= 53 /\ -1074 <= e <= 971 /\
  (e = -1074 \/ Zpos (digits2_pos m) = 53).
Proof.
  unfold bounded, canonical_mantissa. rewrite andb_true_iff, Z.eqb_eq, Z.leb_le, fexp64.
  change (emax - prec) with 971. lia.
Qed.

Lemma digits_le (p : positive) (k : Z) : Zpos p < 2 ^ k -> Zpos (digits2_pos p) <= k.
Proof.
  intros H. destruct (digits2_bounds p) as [L _].
  destruct (Z_lt_le_dec k 0) as [N|N].
  { rewrite Z.pow_neg_r in H by lia. lia. }
  destruct (Z_le_gt_dec (Zpos (digits2_pos p)) k) as [Y|Y]; [exact Y|].
  assert (2 ^ k <= 2 ^ (Zpos (digits2_pos p) - 1)) by (apply Z.pow_le_mono_r; lia). lia.
Qed.

Lemma digits_ge (p : positive) (k : Z) : 2 ^ k <= Zpos p -> k + 1 <= Zpos (digits2_pos p).
Proof.
  intros H. destruct (digits2_bounds p) as [_ U].
  destruct (Z_le_gt_dec (k + 1) (Zpos (digits2_pos p))) as [Y|Y]; [exact Y|].
  assert (2 ^ Zpos (digits2_pos p) <= 2 ^ k) by (apply Z.pow_le_mono_r; lia). lia.
Qed.

(** The second normalisation of [binary_round_aux]: nothing to do below
    2^53, one more shift at 2^53. *)
Lemma second_shift (q E : Z) :
  0 <= q <= 2 ^ 53 -> -1074 <= E ->
  let '(r, e') := shr_fexp prec emax q E loc_Exact in
  (q < 2 ^ 53 -> shr_m r = q /\ e' = E) /\
  (q = 2 ^ 53 -> shr_m r = 2 ^ 52 /\ e' = E + 1).
Proof.
  intros Hq HE. unfold shr_fexp. cbn [shr_record_of_loc]. rewrite fexp64.
  destruct (Z.eq_dec q (2 ^ 53)) as [Q|Q].
  - subst q. change (Zdigits2 (2 ^ 53)) with 54.
    replace (Z.max (54 + E - 53) (-1074) - E) with 1 by lia.
    cbn [shr iter_pos shr_1]. split; [lia|]. intros _. split; [reflexivity|lia].
  - assert (D : Zdigits2 q <= 53).
    { destruct q as [|p|p]; cbn [Zdigits2]; try lia. apply digits_le. lia. }
    assert (N : Z.max (Zdigits2 q + E - 53) (-1074) - E <= 0) by lia.
    unfold shr. destruct (Z.max (Zdigits2 q + E - 53) (-1074) - E) as [|p|p]; try lia;
      cbn [shr_m]; (split; [intros _; split; reflexivity|intros; lia]).
Qed.

Lemma pow2_pos (k : Z) : 0 <= k -> 0 < 2 ^ k.
Proof. intros. apply Z.pow_pos_nonneg; lia. Qed.

Lemma pow2_split (a b : Z) : 0 <= a -> 0 <= b -> 2 ^ (a + b) = 2 ^ a * 2 ^ b.
Proof. intros. apply Z.pow_add_r; lia. Qed.

Lemma le_cancel (x y g : Z) : 0 < g -> x * g <= y * g -> x <= y.
Proof. intros G H. exact (proj2 (Z.mul_le_mono_pos_r x y g G) H). Qed.

Lemma lt_cancel (x y g : Z) : 0 < g -> x * g < y * g -> x < y.
Proof. intros G H. exact (proj2 (Z.mul_lt_mono_pos_r g x y G) H). Qed.

(** A value [m * b] with [q * a < m] that is at most a multiple of [a * b]
    is at most the multiple of [a * b] after [q]. *)
Lemma floor_up (q m a b mb c : Z) :
  0 < a -> 0 < b -> q * a < m -> m * b <= mb * (c * (a * b)) ->
  (q + 1) * (a * b) <= mb * (c * (a * b)).
Proof.
  intros A B H1 H2.
  assert (H3 : m <= mb * c * a).
  { apply le_cancel with b; [exact B|].
    replace (mb * c * a * b) with (mb * (c * (a * b))) by ring. exact H2. }
  assert (H4 : q < mb * c) by (apply lt_cancel with a; [exact A|lia]).
  replace (mb * (c * (a * b))) with (mb * c * (a * b)) by ring.
  apply Z.mul_le_mono_nonneg_r; [apply Z.mul_nonneg_nonneg; lia|lia].
Qed.

(** A mantissa of 53 digits at a larger exponent is above any mantissa at
    a smaller one. *)
Lemma normal_low (q mb d g P : Z) :
  0 < g -> 2 <= d -> 0 <= mb < 2 * P -> P <= q -> mb * g <= q * (d * g).
Proof.
  intros G D M Q.
  assert (H1 : mb * g <= 2 * P * g) by (apply Z.mul_le_mono_nonneg_r; lia).
  assert (H2 : q * 2 <= q * d) by (apply Z.mul_le_mono_nonneg_l; lia).
  assert (H3 : q * 2 * g <= q * d * g) by (apply Z.mul_le_mono_nonneg_r; lia).
  assert (H4 : 2 * P * g <= q * 2 * g).
  { apply Z.mul_le_mono_nonneg_r; lia. }
  replace (q * (d * g)) with (q * d * g) by ring. lia.
Qed.

Lemma over_contra (q mb X Y : Z) :
  0 < X -> Y <= X -> 0 <= mb < q -> q * X <= mb * Y -> False.
Proof.
  intros HX HY M H.
  assert (H1 : mb * Y <= mb * X) by (apply Z.mul_le_mono_nonneg_l; lia).
  assert (H2 : mb * X < q * X) by (apply Z.mul_lt_mono_pos_r; lia).
  lia.
Qed.

(** The quotient [q] of [m] by [a] is not below a multiple of [a * b] that
    [m * b] is not below. *)
Lemma floor_low (q m a b mb c : Z) :
  0 < a -> 0 < b -> q = m / a -> mb * (c * (a * b)) <= m * b ->
  mb * (c * (a * b)) <= q * (a * b).
Proof.
  intros A B Q H.
  assert (H1 : mb * c * a <= m).
  { apply le_cancel with b; [exact B|].
    replace (mb * c * a * b) with (mb * (c * (a * b))) by ring. exact H. }
  assert (H2 : mb * c <= q).
  { rewrite Q. apply Z.div_le_lower_bound; [exact A|lia]. }
  replace (mb * (c * (a * b))) with (mb * c * (a * b)) by ring.
  apply Z.mul_le_mono_nonneg_r; [apply Z.mul_nonneg_nonneg; lia|exact H2].
Qed.

Lemma first_shift (m : positive) (e : Z) :
  shr_fexp prec emax (Zpos m) e loc_Exact
  = shr {| shr_m := Zpos m; shr_r := false; shr_s := false |} e
        (Z.max (Zpos (digits2_pos m) + e - 53) (-1074) - e).
Proof. reflexivity. Qed.

(** Rounding a positive value cannot pass a representable number above it:
    the result is zero or a finite number that is not above the bound. *)
Lemma round_aux_bound (sx : bool) (m : positive) (e : Z) (mb : positive) (eb : Z) :
  -2200 <= e ->
  e <= fexp prec emax (Zpos (digits2_pos m) + e) ->
  bounded prec emax mb eb = true ->
  scaled (Zpos m) e <= scaled (Zpos mb) eb ->
  match binary_round_aux prec emax sx (Zpos m) e loc_Exact with
  | S754_zero s => s = sx
  | S754_finite s m' e' => s = sx /\ scaled (Zpos m') e' <= scaled (Zpos mb) eb
  | _ => False
  end.
Proof.
  intros He Hn Hb Hle. unfold scaled in *.
  apply bounded_canonical in Hb. destruct Hb as (Db & Eb & Cb).
  destruct (digits2_bounds m) as [Lm Um]. destruct (digits2_bounds mb) as [Lb Ub].
  set (D := Zpos (digits2_pos m)) in *. set (Dm := Zpos (digits2_pos mb)) in *.
  rewrite fexp64 in Hn.
  unfold binary_round_aux. rewrite first_shift. fold D.
  set (E := Z.max (D + e - 53) (-1074)) in *.
  pose proof (shr_spec (Zpos m) e (E - e) ltac:(lia) ltac:(lia)) as S1.
  destruct (shr {| shr_m := Zpos m; shr_r := false; shr_s := false |} e (E - e)) as [r1 e1].
  destruct S1 as (-> & Q1 & F1). replace (e + (E - e)) with E by lia.
  set (n := E - e) in *.
  assert (Pn : 0 < 2 ^ n) by (apply pow2_pos; lia).
  set (q := shr_m r1) in *.
  assert (Hq0 : 0 <= q) by (rewrite Q1; apply Z.div_pos; lia).
  assert (Hqm : q * 2 ^ n <= Zpos m).
  { rewrite Q1. pose proof (Z.mul_div_le (Zpos m) (2 ^ n) Pn). lia. }
  assert (Hq53 : q < 2 ^ 53).
  { rewrite Q1. apply Z.div_lt_upper_bound; [exact Pn|].
    destruct (Z_le_gt_dec 53 D) as [Y|Y].
    - assert (2 ^ D = 2 ^ (D - 53) * 2 ^ 53) by (rewrite <- pow2_split by lia; f_equal; lia).
      assert (2 ^ (D - 53) <= 2 ^ n) by (apply Z.pow_le_mono_r; lia).
      nia.
    - assert (2 ^ D <= 2 ^ 53) by (apply Z.pow_le_mono_r; lia).
      nia. }
  assert (Hnormal : -1074 < E -> 2 ^ 52 <= q).
  { intros HE. assert (n = D - 53) by lia.
    rewrite Q1. apply Z.div_le_lower_bound; [exact Pn|].
    assert (2 ^ (D - 1) = 2 ^ 52 * 2 ^ n).
    { rewrite <- pow2_split by lia. f_equal. lia. }
    lia. }
  pose proof (round_nearest_even_spec r1) as R. cbn zeta in R. fold q in R.
  set (q2 := round_nearest_even q (loc_of_shr_record r1)) in *.
  assert (PE : 2 ^ (E + 2200) = 2 ^ n * 2 ^ (e + 2200)).
  { rewrite <- pow2_split by lia. f_equal. lia. }
  assert (Pe : 0 < 2 ^ (e + 2200)) by (apply pow2_pos; lia).
  assert (PB : 0 < 2 ^ (eb + 2200)) by (apply pow2_pos; lia).
  (* the rounded value is not above the bound *)
  assert (Hr : q2 * 2 ^ (E + 2200) <= Zpos mb * 2 ^ (eb + 2200)).
  { assert (Hqe : q * 2 ^ (E + 2200) <= Zpos m * 2 ^ (e + 2200)).
    { rewrite PE, Z.mul_assoc. apply Z.mul_le_mono_nonneg_r; lia. }
    destruct R as [->|[-> F]]; [lia|].
    specialize (F1 F).
    assert (Hlt : q * 2 ^ n < Zpos m).
    { rewrite Q1. pose proof (Z.div_mod (Zpos m) (2 ^ n) ltac:(lia)).
      pose proof (Z.mod_pos_bound (Zpos m) (2 ^ n) Pn). lia. }
    destruct (Z_le_gt_dec E eb) as [Y|Y].
    - assert (PY : 2 ^ (eb + 2200) = 2 ^ (eb - E) * 2 ^ (E + 2200)).
      { rewrite <- pow2_split by lia. f_equal. lia. }
      rewrite PY, PE. rewrite PY, PE in Hle.
      apply floor_up with (m := Zpos m); assumption.
    - exfalso. assert (HE : -1074 < E) by lia. specialize (Hnormal HE).
      assert (Zpos mb < 2 ^ 53).
      { assert (2 ^ Dm <= 2 ^ 53) by (apply Z.pow_le_mono_r; lia). lia. }
      assert (PY : 2 ^ (E + 2200) = 2 ^ (E - eb) * 2 ^ (eb + 2200)).
      { rewrite <- pow2_split by lia. f_equal. lia. }
      assert (2 ^ 1 <= 2 ^ (E - eb)) by (apply Z.pow_le_mono_r; lia).
      pose proof (normal_low q (Zpos mb) (2 ^ (E - eb)) (2 ^ (eb + 2200)) (2 ^ 52)
                    PB ltac:(assumption) ltac:(split; [lia|assumption]) Hnormal) as NL.
      rewrite <- PY in NL.
      assert (Zpos mb * 2 ^ (eb + 2200) < Zpos m * 2 ^ (e + 2200)); [|lia].
      apply Z.le_lt_trans with (q * 2 ^ (E + 2200)); [exact NL|].
      rewrite PE, Z.mul_assoc. apply Z.mul_lt_mono_pos_r; assumption. }
  assert (Hq2 : 0 <= q2 <= 2 ^ 53) by (destruct R as [->|[-> _]]; lia).
  assert (HE : -1074 <= E) by lia.
  pose proof (second_shift q2 E Hq2 HE) as S2.
  destruct (shr_fexp prec emax q2 E loc_Exact) as [r2 e2].
  destruct S2 as [S2a S2b].
  assert (Hover : 0 < q2 -> E <= 971 /\ (q2 = 2 ^ 53 -> E + 1 <= 971)).
  { intros Hpos.
    assert (Zpos mb < 2 ^ 53).
    { assert (2 ^ Dm <= 2 ^ 53) by (apply Z.pow_le_mono_r; lia). lia. }
    assert (Mono : forall k, eb + 2200 <= k -> 2 ^ (eb + 2200) <= 2 ^ k)
      by (intros; apply Z.pow_le_mono_r; lia).
    split.
    - destruct (Z_le_gt_dec E 971) as [Y|Y]; [exact Y|exfalso].
      assert (2 ^ 52 <= q) by (apply Hnormal; lia).
      assert (2 ^ 52 <= q2) by (destruct R as [->|[-> _]]; lia).
      pose proof (Mono (E + 2200 - 1) ltac:(lia)) as M1.
      assert (PS : 2 ^ (E + 2200) = 2 * 2 ^ (E + 2200 - 1)).
      { rewrite <- Z.pow_succ_r by lia. f_equal. lia. }
      apply (over_contra (q2 * 2) (Zpos mb) (2 ^ (E + 2200 - 1)) (2 ^ (eb + 2200)));
        [apply pow2_pos; lia|exact M1| |rewrite PS in Hr; lia].
      change (2 ^ 53) with (2 * 2 ^ 52) in *. lia.
    - intros Q. destruct (Z_le_gt_dec (E + 1) 971) as [Y|Y]; [exact Y|exfalso].
      pose proof (Mono (E + 2200) ltac:(lia)) as M1.
      apply (over_contra q2 (Zpos mb) (2 ^ (E + 2200)) (2 ^ (eb + 2200)));
        [apply pow2_pos; lia|exact M1|lia|exact Hr]. }
  destruct (Z_lt_le_dec q2 (2 ^ 53)) as [Lt|Ge].
  - destruct (S2a Lt) as [-> ->].
    destruct q2 as [|p|p]; try lia; [reflexivity|].
    destruct (Hover ltac:(lia)) as [O1 _].
    change (emax - prec) with 971.
    replace (E <=? 971) with true by (symmetry; apply Z.leb_le; exact O1).
    split; [reflexivity|exact Hr].
  - assert (Q : q2 = 2 ^ 53) by lia.
    destruct (S2b Q) as [-> ->].
    destruct (Hover ltac:(lia)) as [_ O2]. specialize (O2 Q).
    change (emax - prec) with 971. change (2 ^ 52) with (Zpos (2 ^ 52)%positive).
    cbv iota.
    replace (E + 1 <=? 971) with true by (symmetry; apply Z.leb_le; exact O2).
    split; [reflexivity|].
    rewrite Q in Hr.
    replace (2 ^ (E + 1 + 2200)) with (2 * 2 ^ (E + 2200))
      by (rewrite <- Z.pow_succ_r by lia; f_equal; lia).
    change (2 ^ 53) with (2 * Zpos (2 ^ 52)%positive) in Hr. lia.
Qed.

Lemma iter_xO (m d : positive) : Zpos (Pos.iter xO m d) = Zpos m * 2 ^ Zpos d.
Proof.
  induction d as [|d IH] using Pos.peano_ind.
  - cbn. lia.
  - rewrite Pos.iter_succ, Pos2Z.inj_xO, IH, Pos2Z.inj_succ, Z.pow_succ_r by lia. lia.
Qed.

Lemma shl_align_spec (m : positive) (e e' : Z) :
  let '(m', e'') := shl_align m e e' in
  e'' = Z.min e e' /\ Zpos m' = Zpos m * 2 ^ (e - e'').
Proof.
  unfold shl_align. destruct (e' - e) as [|d|d] eqn:E.
  - split; [lia|]. replace (e - e) with 0 by lia. cbn. lia.
  - split; [lia|]. replace (e - e) with 0 by lia. cbn. lia.
  - split; [lia|]. rewrite iter_xO. f_equal. f_equal. lia.
Qed.

Lemma scaled_pos (m : positive) (e : Z) : -2200 <= e -> 0 < scaled (Zpos m) e.
Proof. intros. unfold scaled. pose proof (pow2_pos (e + 2200)). nia. Qed.

Lemma scaled_lt_exp (m1 : positive) (e1 : Z) (m2 : positive) (e2 : Z) :
  bounded prec emax m1 e1 = true -> bounded prec emax m2 e2 = true ->
  e1 < e2 -> scaled (Zpos m1) e1 < scaled (Zpos m2) e2.
Proof.
  intros B1 B2 H. apply bounded_canonical in B1, B2.
  destruct B1 as (D1 & E1 & _), B2 as (D2 & E2 & C2).
  destruct (digits2_bounds m1) as [_ U1]. destruct (digits2_bounds m2) as [L2 _].
  assert (Zpos (digits2_pos m2) = 53) by lia.
  assert (Zpos m1 < 2 ^ 53).
  { assert (2 ^ Zpos (digits2_pos m1) <= 2 ^ 53) by (apply Z.pow_le_mono_r; lia). lia. }
  assert (2 ^ 52 <= Zpos m2) by (replace 52 with (Zpos (digits2_pos m2) - 1) by lia; exact L2).
  unfold scaled.
  assert (P : 2 ^ (e2 + 2200) = 2 ^ (e2 - e1) * 2 ^ (e1 + 2200)).
  { rewrite <- pow2_split by lia. f_equal. lia. }
  assert (2 ^ 1 <= 2 ^ (e2 - e1)) by (apply Z.pow_le_mono_r; lia).
  pose proof (pow2_pos (e1 + 2200) ltac:(lia)).
  change (2 ^ 1) with 2 in *. change (2 ^ 53) with (2 * 2 ^ 52) in *.
  rewrite P. nia.
Qed.

(** The comparison of two positive finite numbers is that of their values. *)
Lemma compare_scaled (m1 : positive) (e1 : Z) (m2 : positive) (e2 : Z) :
  bounded prec emax m1 e1 = true -> bounded prec emax m2 e2 = true ->
  match e1 ?= e2 with
  | Lt => Lt
  | Gt => Gt
  | Eq => Pos.compare_cont Eq m1 m2
  end = (scaled (Zpos m1) e1 ?= scaled (Zpos m2) e2).
Proof.
  intros B1 B2. destruct (Z.compare_spec e1 e2) as [E|L|G].
  - subst e2. unfold scaled.
    pose proof (pow2_pos (e1 + 2200)) as P.
    apply bounded_canonical in B1. specialize (P ltac:(lia)).
    change (Pos.compare_cont Eq m1 m2) with (Zpos m1 ?= Zpos m2).
    destruct (Z.compare_spec (Zpos m1) (Zpos m2)) as [Q|Q|Q]; symmetry.
    + apply Z.compare_eq_iff. now rewrite Q.
    + apply Z.compare_lt_iff. nia.
    + apply Z.compare_gt_iff. nia.
  - symmetry. apply Z.compare_lt_iff. now apply scaled_lt_exp.
  - symmetry. apply Z.compare_gt_iff. now apply scaled_lt_exp.
Qed.

Lemma mul_digits (mx my : positive) :
  Zpos (digits2_pos mx) + Zpos (digits2_pos my) - 1 <= Zpos (digits2_pos (mx * my)).
Proof.
  destruct (digits2_bounds mx) as [Lx _]. destruct (digits2_bounds my) as [Ly _].
  pose proof (digits_ge (mx * my) (Zpos (digits2_pos mx) - 1 + (Zpos (digits2_pos my) - 1))) as G.
  rewrite pow2_split in G by lia. rewrite Pos2Z.inj_mul in G.
  pose proof (pow2_pos (Zpos (digits2_pos mx) - 1) ltac:(lia)).
  pose proof (pow2_pos (Zpos (digits2_pos my) - 1) ltac:(lia)).
  assert (2 ^ (Zpos (digits2_pos mx) - 1) * 2 ^ (Zpos (digits2_pos my) - 1)
          <= Zpos mx * Zpos my) by nia.
  lia.
Qed.

Lemma scaled_mul (mx : positive) (ex : Z) (my : positive) (ey : Z) :
  -1074 <= ex -> -1074 <= ey ->
  scaled (Zpos (mx * my)) (ex + ey) * 2 ^ 2200 = scaled (Zpos mx) ex * scaled (Zpos my) ey.
Proof.
  intros Hx Hy. unfold scaled. rewrite Pos2Z.inj_mul.
  assert (2 ^ (ex + ey + 2200) * 2 ^ 2200 = 2 ^ (ex + 2200) * 2 ^ (ey + 2200)).
  { rewrite <- !pow2_split by lia. f_equal. lia. }
  nia.
Qed.

(** The aligned mantissas of an addition or subtraction. *)
Lemma aligned (m : positive) (e e' : Z) :
  -1074 <= e -> -1074 <= e' ->
  Zpos (fst (shl_align m e (Z.min e e'))) * 2 ^ (Z.min e e' + 2200) = scaled (Zpos m) e.
Proof.
  intros He He'. pose proof (shl_align_spec m e (Z.min e e')) as S.
  destruct (shl_align m e (Z.min e e')) as [mz ez]. destruct S as [Ez Mz]. cbn [fst].
  unfold scaled. rewrite Mz, <- Z.mul_assoc, <- pow2_split by lia. do 2 f_equal. lia.
Qed.

Lemma compare_scaled_opp (m1 : positive) (e1 : Z) (m2 : positive) (e2 : Z) :
  bounded prec emax m1 e1 = true -> bounded prec emax m2 e2 = true ->
  match e1 ?= e2 with
  | Lt => Gt
  | Gt => Lt
  | Eq => CompOpp (Pos.compare_cont Eq m1 m2)
  end = CompOpp (scaled (Zpos m1) e1 ?= scaled (Zpos m2) e2).
Proof.
  intros B1 B2. rewrite <- (compare_scaled m1 e1 m2 e2 B1 B2).
  destruct (e1 ?= e2); reflexivity.
Qed.

Lemma prim_valid (x : float) : valid (Prim2SF x).
Proof. apply Prim2SF_valid. Qed.

Lemma finite_dec (x : spec_float) : finite x \/ ~ finite x.
Proof. destruct x; cbn; auto. Qed.

(** Rounding a positive value cannot pass a representable number below it
    either. *)
Lemma round_aux_lower (sx : bool) (m : positive) (e : Z) (mb : positive) (eb : Z) :
  -2200 <= e ->
  e <= fexp prec emax (Zpos (digits2_pos m) + e) ->
  bounded prec emax mb eb = true ->
  scaled (Zpos mb) eb <= scaled (Zpos m) e ->
  match binary_round_aux prec emax sx (Zpos m) e loc_Exact with
  | S754_finite _ m' e' => scaled (Zpos mb) eb <= scaled (Zpos m') e'
  | S754_infinity _ => True
  | _ => False
  end.
Proof.
  intros He Hn Hb Hle. unfold scaled in *.
  apply bounded_canonical in Hb. destruct Hb as (Db & Eb & Cb).
  destruct (digits2_bounds m) as [Lm Um]. destruct (digits2_bounds mb) as [Lb Ub].
  set (D := Zpos (digits2_pos m)) in *. set (Dm := Zpos (digits2_pos mb)) in *.
  rewrite fexp64 in Hn.
  unfold binary_round_aux. rewrite first_shift. fold D.
  set (E := Z.max (D + e - 53) (-1074)) in *.
  pose proof (shr_spec (Zpos m) e (E - e) ltac:(lia) ltac:(lia)) as S1.
  destruct (shr {| shr_m := Zpos m; shr_r := false; shr_s := false |} e (E - e)) as [r1 e1].
  destruct S1 as (-> & Q1 & F1). replace (e + (E - e)) with E by lia.
  set (n := E - e) in *.
  assert (Pn : 0 < 2 ^ n) by (apply pow2_pos; lia).
  set (q := shr_m r1) in *.
  assert (Hq53 : q < 2 ^ 53).
  { rewrite Q1. apply Z.div_lt_upper_bound; [exact Pn|].
    destruct (Z_le_gt_dec 53 D) as [Y|Y].
    - assert (2 ^ D = 2 ^ (D - 53) * 2 ^ 53) by (rewrite <- pow2_split by lia; f_equal; lia).
      assert (2 ^ (D - 53) <= 2 ^ n) by (apply Z.pow_le_mono_r; lia).
      nia.
    - assert (2 ^ D <= 2 ^ 53) by (apply Z.pow_le_mono_r; lia).
      nia. }
  assert (Hnormal : -1074 < E -> 2 ^ 52 <= q).
  { intros HE. assert (n = D - 53) by lia.
    rewrite Q1. apply Z.div_le_lower_bound; [exact Pn|].
    assert (2 ^ (D - 1) = 2 ^ 52 * 2 ^ n).
    { rewrite <- pow2_split by lia. f_equal. lia. }
    lia. }
  pose proof (round_nearest_even_spec r1) as R. cbn zeta in R. fold q in R.
  set (q2 := round_nearest_even q (loc_of_shr_record r1)) in *.
  assert (PE : 2 ^ (E + 2200) = 2 ^ n * 2 ^ (e + 2200)).
  { rewrite <- pow2_split by lia. f_equal. lia. }
  assert (Pe : 0 < 2 ^ (e + 2200)) by (apply pow2_pos; lia).
  assert (PB : 0 < 2 ^ (eb + 2200)) by (apply pow2_pos; lia).
  assert (PEE : 0 < 2 ^ (E + 2200)) by (apply pow2_pos; lia).
  (* the value cut at the exponent of the result is not below the bound *)
  assert (Hl : Zpos mb * 2 ^ (eb + 2200) <= q * 2 ^ (E + 2200)).
  { destruct (Z_le_gt_dec E eb) as [Y|Y].
    - assert (PY : 2 ^ (eb + 2200) = 2 ^ (eb - E) * 2 ^ (E + 2200)).
      { rewrite <- pow2_split by lia. f_equal. lia. }
      rewrite PY, PE. rewrite PY, PE in Hle.
      apply floor_low with (m := Zpos m); assumption.
    - assert (HE : -1074 < E) by lia. specialize (Hnormal HE).
      assert (Zpos mb < 2 ^ 53).
      { assert (2 ^ Dm <= 2 ^ 53) by (apply Z.pow_le_mono_r; lia). lia. }
      assert (PY : 2 ^ (E + 2200) = 2 ^ (E - eb) * 2 ^ (eb + 2200)).
      { rewrite <- pow2_split by lia. f_equal. lia. }
      assert (2 ^ 1 <= 2 ^ (E - eb)) by (apply Z.pow_le_mono_r; lia).
      rewrite PY.
      apply (normal_low q (Zpos mb) (2 ^ (E - eb)) (2 ^ (eb + 2200)) (2 ^ 52));
        [exact PB|assumption|split; [lia|assumption]|exact Hnormal]. }
  assert (Hq1 : 0 < q).
  { apply lt_cancel with (2 ^ (E + 2200)); [exact PEE|].
    assert (0 < Zpos mb * 2 ^ (eb + 2200)) by (apply Z.mul_pos_pos; lia). lia. }
  assert (Hq2 : 0 < q2 <= 2 ^ 53) by (destruct R as [->|[-> _]]; lia).
  assert (Hr : Zpos mb * 2 ^ (eb + 2200) <= q2 * 2 ^ (E + 2200)).
  { apply Z.le_trans with (q * 2 ^ (E + 2200)); [exact Hl|].
    apply Z.mul_le_mono_nonneg_r; [lia|destruct R as [->|[-> _]]; lia]. }
  assert (HE : -1074 <= E) by lia.
  pose proof (second_shift q2 E ltac:(lia) HE) as S2.
  destruct (shr_fexp prec emax q2 E loc_Exact) as [r2 e2].
  destruct S2 as [S2a S2b].
  destruct (Z_lt_le_dec q2 (2 ^ 53)) as [Lt|Ge].
  - destruct (S2a Lt) as [-> ->].
    destruct q2 as [|p|p]; try lia.
    destruct (E <=? emax - prec); [exact Hr|exact I].
  - assert (Q : q2 = 2 ^ 53) by lia.
    destruct (S2b Q) as [-> ->].
    change (2 ^ 52) with (Zpos (2 ^ 52)%positive). cbv iota.
    destruct (E + 1 <=? emax - prec); [|exact I].
    rewrite Q in Hr.
    replace (2 ^ (E + 1 + 2200)) with (2 * 2 ^ (E + 2200))
      by (rewrite <- Z.pow_succ_r by lia; f_equal; lia).
    change (2 ^ 53) with (2 * Zpos (2 ^ 52)%positive) in Hr. lia.
Qed.

(** [binary_round] first brings the exponent down to the canonical one, and
    rounds from there. *)
Lemma round_aligned (sx : bool) (m : positive) (e : Z) :
  -1074 <= e ->
  exists mz ez,
    binary_round prec emax sx m e = binary_round_aux prec emax sx (Zpos mz) ez loc_Exact /\
    scaled (Zpos mz) ez = scaled (Zpos m) e /\
    -2200 <= ez /\ ez <= fexp prec emax (Zpos (digits2_pos mz) + ez).
Proof.
  intros He. unfold binary_round.
  pose proof (shl_align_spec m e (fexp prec emax (Zpos (digits2_pos m) + e))) as S.
  destruct (shl_align m e _) as [mz ez]. destruct S as [Ez Mz].
  exists mz, ez. rewrite fexp64 in Ez.
  split; [reflexivity|]. split; [|split; [lia|]].
  - unfold scaled. rewrite Mz, <- Z.mul_assoc, <- pow2_split by lia. do 2 f_equal. lia.
  - rewrite fexp64.
    destruct (digits2_bounds m) as [Lm Um].
    assert (Dz : Zpos (digits2_pos mz) = Zpos (digits2_pos m) + (e - ez)).
    { assert (P : 0 < 2 ^ (e - ez)) by (apply pow2_pos; lia).
      apply Z.le_antisymm.
      - apply digits_le. rewrite Mz, pow2_split by lia. nia.
      - pose proof (digits_ge mz (Zpos (digits2_pos m) - 1 + (e - ez))) as G.
        rewrite pow2_split in G by lia. rewrite Mz in G.
        assert (2 ^ (Zpos (digits2_pos m) - 1) * 2 ^ (e - ez) <= Zpos m * 2 ^ (e - ez)) by nia.
        lia. }
    lia.
Qed.

Lemma positive_value (x : spec_float) :
  valid x -> finite x -> 0 < value x ->
  exists m e, x = S754_finite false m e /\ bounded prec emax m e = true.
Proof.
  intros V F H. destruct x as [s|s| |s m e]; cbn [value] in H; try lia.
  pose proof (bounded_canonical _ _ V) as (_ & E & _).
  pose proof (scaled_pos m e ltac:(lia)).
  destruct s; [lia|]. exists m, e. split; [reflexivity|exact V].
Qed.

Lemma negative_value (x : spec_float) :
  valid x -> finite x -> value x < 0 ->
  exists m e, x = S754_finite true m e /\ bounded prec emax m e = true.
Proof.
  intros V F H. destruct x as [s|s| |s m e]; cbn [value] in H; try lia.
  pose proof (bounded_canonical _ _ V) as (_ & E & _).
  pose proof (scaled_pos m e ltac:(lia)).
  destruct s; [|lia]. exists m, e. split; [reflexivity|exact V].
Qed.

(** Round to nearest is monotone: the rounding of a value that lies between
    two representable numbers lies between them, and is finite. *)
Lemma round_aux_between (sx : bool) (m : positive) (e : Z) (l u : spec_float) :
  -2200 <= e ->
  e <= fexp prec emax (Zpos (digits2_pos m) + e) ->
  valid l -> valid u -> finite l -> finite u ->
  value l <= cond_Zopp sx (scaled (Zpos m) e) <= value u ->
  finite (binary_round_aux prec emax sx (Zpos m) e loc_Exact) /\
  value l <= value (binary_round_aux prec emax sx (Zpos m) e loc_Exact) <= value u.
Proof.
  intros He Hn Vl Vu Fl Fu [L U].
  pose proof (scaled_pos m e He) as P.
  destruct sx; cbn [cond_Zopp] in L, U.
  - destruct (negative_value l Vl Fl ltac:(lia)) as (ml & el & -> & Bl).
    cbn [value] in L.
    pose proof (round_aux_bound true m e ml el He Hn Bl ltac:(lia)) as R.
    destruct (Z_le_gt_dec 0 (value u)) as [Y|Y].
    + destruct (binary_round_aux prec emax true (Zpos m) e loc_Exact) as [s|s| |s m' e'];
        try contradiction; cbn [finite value].
      * split; [exact I|]. cbn [value]. pose proof (scaled_pos ml el). 
        pose proof (bounded_canonical _ _ Bl). lia.
      * destruct R as [-> R]. split; [exact I|].
        assert (0 <= scaled (Zpos m') e')
          by (unfold scaled; apply Z.mul_nonneg_nonneg; [lia|apply Z.pow_nonneg; lia]).
        lia.
    + destruct (negative_value u Vu Fu ltac:(lia)) as (mu & eu & -> & Bu).
      cbn [value] in U.
      pose proof (round_aux_lower true m e mu eu He Hn Bu ltac:(lia)) as R'.
      destruct (binary_round_aux prec emax true (Zpos m) e loc_Exact) as [s|s| |s m' e'];
        try contradiction; cbn [finite value].
      destruct R as [-> R]. split; [exact I|]. cbn [value]. lia.
  - destruct (positive_value u Vu Fu ltac:(lia)) as (mu & eu & -> & Bu).
    cbn [value] in U.
    pose proof (round_aux_bound false m e mu eu He Hn Bu ltac:(lia)) as R.
    destruct (Z_le_gt_dec (value l) 0) as [Y|Y].
    + destruct (binary_round_aux prec emax false (Zpos m) e loc_Exact) as [s|s| |s m' e'];
        try contradiction; cbn [finite value].
      * split; [exact I|]. cbn [value]. pose proof (scaled_pos mu eu).
        pose proof (bounded_canonical _ _ Bu). lia.
      * destruct R as [-> R]. split; [exact I|].
        assert (0 <= scaled (Zpos m') e')
          by (unfold scaled; apply Z.mul_nonneg_nonneg; [lia|apply Z.pow_nonneg; lia]).
        lia.
    + destruct (positive_value l Vl Fl ltac:(lia)) as (ml & el & -> & Bl).
      cbn [value] in L.
      pose proof (round_aux_lower false m e ml el He Hn Bl ltac:(lia)) as R'.
      destruct (binary_round_aux prec emax false (Zpos m) e loc_Exact) as [s|s| |s m' e'];
        try contradiction; cbn [finite value].
      destruct R as [-> R]. split; [exact I|]. cbn [value]. lia.
Qed.

Lemma normalize_between (s : Z) (e : Z) (l u : spec_float) :
  -1074 <= e -> valid l -> valid u -> finite l -> finite u ->
  value l <= s * 2 ^ (e + 2200) <= value u ->
  finite (binary_normalize prec emax s e false) /\
  value l <= value (binary_normalize prec emax s e false) <= value u.
Proof.
  intros He Vl Vu Fl Fu H.
  destruct s as [|p|p]; cbn [binary_normalize].
  - cbn [finite value]. split; [exact I|lia].
  - destruct (round_aligned false p e He) as (mz & ez & -> & Hs & Hz & Hf).
    apply round_aux_between; try assumption.
    cbn [cond_Zopp]. rewrite Hs. unfold scaled. lia.
  - destruct (round_aligned true p e He) as (mz & ez & -> & Hs & Hz & Hf).
    apply round_aux_between; try assumption.
    cbn [cond_Zopp]. rewrite Hs. unfold scaled. lia.
Qed.

(** The sum, the difference and the product of two finite numbers, when
    their exact value lies between two representable numbers. *)
Lemma add_between (l u x y : spec_float) :
  valid l -> valid u -> finite l -> finite u ->
  valid x -> valid y -> finite x -> finite y ->
  value l <= value x + value y <= value u ->
  finite (SFadd prec emax x y) /\
  value l <= value (SFadd prec emax x y) <= value u.
Proof.
  intros Vl Vu Fl Fu Vx Vy Fx Fy H.
  destruct x as [sx|sx| |sx mx ex]; try contradiction;
    destruct y as [sy|sy| |sy my ey]; try contradiction; cbn [SFadd].
  - destruct sx, sy; cbn in *; (split; [exact I|lia]).
  - split; [exact I|]. cbn [value] in *. lia.
  - split; [exact I|]. cbn [value] in *. lia.
  - pose proof (bounded_canonical _ _ Vx) as (_ & Ex & _).
    pose proof (bounded_canonical _ _ Vy) as (_ & Ey & _).
    apply normalize_between; try assumption; [lia|].
    pose proof (aligned mx ex ey ltac:(lia) ltac:(lia)) as Ax.
    pose proof (aligned my ey ex ltac:(lia) ltac:(lia)) as Ay.
    rewrite (Z.min_comm ey ex) in Ay.
    set (Mx := Zpos (fst (shl_align mx ex (Z.min ex ey)))) in *.
    set (My := Zpos (fst (shl_align my ey (Z.min ex ey)))) in *.
    destruct sx, sy; cbn [value cond_Zopp] in *; lia.
Qed.

Lemma sub_between (l u x y : spec_float) :
  valid l -> valid u -> finite l -> finite u ->
  valid x -> valid y -> finite x -> finite y ->
  value l <= value x - value y <= value u ->
  finite (SFsub prec emax x y) /\
  value l <= value (SFsub prec emax x y) <= value u.
Proof.
  intros Vl Vu Fl Fu Vx Vy Fx Fy H.
  destruct x as [sx|sx| |sx mx ex]; try contradiction;
    destruct y as [sy|sy| |sy my ey]; try contradiction; cbn [SFsub].
  - destruct sx, sy; cbn in *; (split; [exact I|lia]).
  - split; [exact I|]. destruct sy; cbn [value negb] in *; lia.
  - split; [exact I|]. cbn [value] in *. lia.
  - pose proof (bounded_canonical _ _ Vx) as (_ & Ex & _).
    pose proof (bounded_canonical _ _ Vy) as (_ & Ey & _).
    apply normalize_between; try assumption; [lia|].
    pose proof (aligned mx ex ey ltac:(lia) ltac:(lia)) as Ax.
    pose proof (aligned my ey ex ltac:(lia) ltac:(lia)) as Ay.
    rewrite (Z.min_comm ey ex) in Ay.
    set (Mx := Zpos (fst (shl_align mx ex (Z.min ex ey)))) in *.
    set (My := Zpos (fst (shl_align my ey (Z.min ex ey)))) in *.
    destruct sx, sy; cbn [value cond_Zopp] in *; lia.
Qed.

Lemma mul_between (l u x y : spec_float) :
  valid l -> valid u -> finite l -> finite u ->
  valid x -> valid y -> finite x -> finite y ->
  value l * 2 ^ 2200 <= value x * value y <= value u * 2 ^ 2200 ->
  finite (SFmul prec emax x y) /\
  value l <= value (SFmul prec emax x y) <= value u.
Proof.
  intros Vl Vu Fl Fu Vx Vy Fx Fy H.
  pose proof (pow2_pos 2200 ltac:(lia)) as P.
  destruct x as [sx|sx| |sx mx ex]; try contradiction;
    destruct y as [sy|sy| |sy my ey]; try contradiction; cbn [SFmul finite value];
      try (cbn [value] in H; split; [exact I|lia]).
  pose proof (bounded_canonical _ _ Vx) as (Dx & Ex & Cx).
  pose proof (bounded_canonical _ _ Vy) as (Dy & Ey & Cy).
  pose proof (scaled_mul mx ex my ey ltac:(lia) ltac:(lia)) as M.
  pose proof (mul_digits mx my) as Dm.
  change (Zpos mx * Zpos my) with (Zpos (mx * my)).
  apply round_aux_between; try assumption; [lia|rewrite fexp64; lia|].
  assert (E : cond_Zopp (xorb sx sy) (scaled (Zpos (mx * my)) (ex + ey)) * 2 ^ 2200
              = value (S754_finite sx mx ex) * value (S754_finite sy my ey))
    by (destruct sx, sy; cbn [value xorb cond_Zopp]; lia).
  rewrite <- E in H. destruct H as [H1 H2].
  split; apply le_cancel with (2 ^ 2200); assumption.
Qed.

(** *** Comparisons *)

Lemma compare_value (x y : spec_float) :
  valid x -> valid y -> finite x -> finite y ->
  SFcompare x y = Some (value x ?= value y).
Proof.
  intros Vx Vy Fx Fy.
  destruct x as [sx|sx| |sx mx ex]; try contradiction;
    destruct y as [sy|sy| |sy my ey]; try contradiction; cbn [SFcompare value].
  - reflexivity.
  - pose proof (bounded_canonical _ _ Vy) as (_ & Ey & _).
    pose proof (scaled_pos my ey ltac:(lia)) as P. f_equal. symmetry.
    destruct sy; [apply Z.compare_gt_iff|apply Z.compare_lt_iff]; lia.
  - pose proof (bounded_canonical _ _ Vx) as (_ & Ex & _).
    pose proof (scaled_pos mx ex ltac:(lia)) as P. f_equal. symmetry.
    destruct sx; [apply Z.compare_lt_iff|apply Z.compare_gt_iff]; lia.
  - pose proof (bounded_canonical _ _ Vx) as (_ & Ex & _).
    pose proof (bounded_canonical _ _ Vy) as (_ & Ey & _).
    pose proof (scaled_pos mx ex ltac:(lia)) as Px.
    pose proof (scaled_pos my ey ltac:(lia)) as Py.
    f_equal. destruct sx, sy.
    + rewrite (compare_scaled_opp mx ex my ey Vx Vy).
      rewrite Z.compare_opp. symmetry. apply Z.compare_antisym.
    + symmetry. apply Z.compare_lt_iff. lia.
    + symmetry. apply Z.compare_gt_iff. lia.
    + apply compare_scaled; assumption.
Qed.

(** A number between two finite numbers is finite, and its value is
    between theirs. *)
Lemma within_spec (l u x : spec_float) :
  valid l -> valid u -> valid x -> finite l -> finite u ->
  SFleb l x && SFleb x u = true <->
  finite x /\ value l <= value x <= value u.
Proof.
  intros Vl Vu Vx Fl Fu. unfold SFleb.
  destruct (finite_dec x) as [Fx|Nx].
  - rewrite !compare_value by assumption.
    destruct (Z.compare_spec (value l) (value x)) as [A|A|A];
      destruct (Z.compare_spec (value x) (value u)) as [B|B|B]; cbn [andb];
        (split; [intros G; first [discriminate G|split; [exact Fx|lia]]
                |intros [_ G]; first [reflexivity|exfalso; lia]]).
  - split; [|intros [Fx _]; contradiction].
    destruct x as [s|s| |s m e]; try (exfalso; apply Nx; exact I).
    + destruct l as [sl|sl| |sl ml el]; try contradiction;
        destruct u as [su|su| |su mu eu]; try contradiction;
          destruct s; cbn; discriminate.
    + destruct l as [sl|sl| |sl ml el]; try contradiction; cbn; discriminate.
Qed.

Lemma ltb_value (x y : spec_float) :
  valid x -> valid y -> finite x -> finite y ->
  SFltb x y = true -> value x < value y.
Proof.
  intros Vx Vy Fx Fy. unfold SFltb. rewrite compare_value by assumption.
  destruct (Z.compare_spec (value x) (value y)); try discriminate. intros _. assumption.
Qed.

Lemma opp_value (x : spec_float) :
  valid x -> finite x ->
  valid (SFopp x) /\ finite (SFopp x) /\ value (SFopp x) = - value x.
Proof.
  intros V F. destruct x as [s|s| |s m e]; try contradiction; cbn [SFopp finite value].
  - repeat split.
  - split; [exact V|]. split; [exact I|]. destruct s; cbn [negb]; lia.
Qed.

(** *** The arithmetic of the lights *)

Lemma in_range_spec (hi x : float) :
  finite (Prim2SF hi) ->
  in_range hi x = true <->
  finite (Prim2SF x) /\ 0 <= value (Prim2SF x) <= value (Prim2SF hi).
Proof.
  intros F. unfold in_range. rewrite !leb_spec.
  change (Prim2SF 0) with (S754_zero false).
  apply (within_spec (S754_zero false) (Prim2SF hi) (Prim2SF x));
    try apply prim_valid; [reflexivity|exact I|exact F].
Qed.

(** One smoothing step [c + (t - c) * k], with bounds for the difference,
    the product and the sum. *)
Lemma smooth_chain (c t k : float) (uD uP uR : spec_float) :
  valid uD -> valid uP -> valid uR -> finite uD -> finite uP -> finite uR ->
  finite (Prim2SF c) -> finite (Prim2SF t) -> finite (Prim2SF k) ->
  0 <= value (Prim2SF c) -> 0 <= value (Prim2SF t) ->
  0 <= value (Prim2SF k) <= 2 ^ 2200 ->
  value (Prim2SF t) - value (Prim2SF c) <= value uD ->
  value uD * value (Prim2SF k) <= value uP * 2 ^ 2200 ->
  value (Prim2SF c) + value uP <= value uR ->
  finite (Prim2SF (c + (t - c) * k)) /\
  0 <= value (Prim2SF (c + (t - c) * k)) <= value uR.
Proof.
  intros VuD VuP VuR FuD FuP FuR Fc Ft Fk Hc Ht Hk HD HP HR.
  pose proof (pow2_pos 2200 ltac:(lia)) as P.
  pose proof (prim_valid c) as Vc. pose proof (prim_valid t) as Vt.
  pose proof (prim_valid k) as Vk.
  pose proof (prim_valid (t - c)) as VD. pose proof (prim_valid ((t - c) * k)) as VP.
  rewrite add_spec. rewrite mul_spec in *. rewrite sub_spec in *.
  set (C := Prim2SF c) in *. set (T := Prim2SF t) in *. set (K := Prim2SF k) in *.
  unfold SF64add, SF64mul, SF64sub in *.
  destruct (opp_value C Vc Fc) as (Vo & Fo & Eo).
  destruct (sub_between (SFopp C) uD T C) as (FD & LD & UD); try assumption; [lia|].
  set (D := SFsub prec emax T C) in *.
  assert (M1 : - value C * 2 ^ 2200 <= value D * value K).
  { assert (- value C * value K <= value D * value K)
      by (apply Z.mul_le_mono_nonneg_r; lia).
    assert (value C * value K <= value C * 2 ^ 2200)
      by (apply Z.mul_le_mono_nonneg_l; lia).
    lia. }
  assert (M2 : value D * value K <= value uP * 2 ^ 2200).
  { assert (value D * value K <= value uD * value K)
      by (apply Z.mul_le_mono_nonneg_r; lia).
    lia. }
  destruct (mul_between (SFopp C) uP D K) as (FP & LP & UP); try assumption; [lia|].
  set (Pr := SFmul prec emax D K) in *.
  apply (add_between (S754_zero false) uR C Pr); try assumption;
    [reflexivity|exact I|cbn [value]; lia].
Qed.

(** The smoothing step of a light (line 168), toward 0 or 2.5: from an
    intensity between 0 and 4 to one between 0 and 3.90625. *)
Lemma smooth_in_range (c t : float) :
  in_range 4 c = true -> t = 0%float \/ t = 2.5%float ->
  in_range 3.90625 (c + (t - c) * 0.08) = true.
Proof.
  intros Hc Ht. apply in_range_spec in Hc; [|exact I]. destruct Hc as (Fc & Hc0 & Hc4).
  apply in_range_spec; [exact I|].
  assert (Hk : 0 <= value (Prim2SF 0.08) <= 2 ^ 2200) by (vm_compute; split; discriminate).
  assert (HT : finite (Prim2SF t) /\ 0 <= value (Prim2SF t) <= value (Prim2SF 2.5)).
  { destruct Ht as [->| ->]; (split; [exact I|]); vm_compute; split; discriminate. }
  destruct HT as (Ft & Ht0 & Ht1).
  assert (A1 : value (Prim2SF 2.5) * value (Prim2SF 0.08) <= value (Prim2SF 0.25) * 2 ^ 2200)
    by (vm_compute; discriminate).
  assert (A2 : value (Prim2SF 2.5) + value (Prim2SF 0.25) <= value (Prim2SF 2.75))
    by (vm_compute; discriminate).
  assert (A3 : value (Prim2SF 2.75) <= value (Prim2SF 3.90625))
    by (vm_compute; discriminate).
  assert (C1 : value (Prim2SF 2.5) - value (Prim2SF 3.90625) <= value (Prim2SF (-1.40625)))
    by (vm_compute; discriminate).
  assert (C2 : value (Prim2SF (-1.40625)) * value (Prim2SF 0.08)
               <= value (Prim2SF (-0.109375)) * 2 ^ 2200)
    by (vm_compute; discriminate).
  assert (C3 : value (Prim2SF 4) + value (Prim2SF (-0.109375)) <= value (Prim2SF 3.90625))
    by (vm_compute; discriminate).
  destruct (Z_le_gt_dec (value (Prim2SF c)) (value (Prim2SF 2.5))) as [Y|Y].
  - destruct (smooth_chain c t 0.08 (Prim2SF 2.5) (Prim2SF 0.25) (Prim2SF 2.75))
      as (F & L & U); try apply prim_valid; try exact I; try assumption; try lia.
    split; [exact F|lia].
  - destruct (Z_le_gt_dec (value (Prim2SF c)) (value (Prim2SF 3.90625))) as [Y'|Y'].
    + destruct (smooth_chain c t 0.08 (S754_zero false) (S754_zero false) (Prim2SF c))
        as (F & L & U); try apply prim_valid; try reflexivity; try exact I;
        try assumption; cbn [value]; try lia.
      split; [exact F|lia].
    + destruct (smooth_chain c t 0.08 (Prim2SF (-1.40625)) (Prim2SF (-0.109375))
                  (Prim2SF 3.90625))
        as (F & L & U); try apply prim_valid; try exact I; try assumption; try lia.
      split; [exact F|lia].
Qed.

(** The flicker of a light (lines 171-176), the sine being between -1 and
    1: from an intensity between 0 and 3.90625 to one between 0 and 4. *)
Lemma flicker_in_range (c s : float) :
  in_range 3.90625 c = true -> ((-1 <=? s) && (s <=? 1))%float = true ->
  in_range 4 (if (0.3 <? c)%float then (c + s * 0.05)%float else c) = true.
Proof.
  intros Hc Hs. apply in_range_spec in Hc; [|exact I]. destruct Hc as (Fc & Hc0 & Hc1).
  apply in_range_spec; [exact I|].
  assert (A0 : value (Prim2SF 3.90625) <= value (Prim2SF 4)) by (vm_compute; discriminate).
  destruct (0.3 <? c)%float eqn:Hlt; [|split; [exact Fc|lia]].
  rewrite ltb_spec in Hlt. rewrite !leb_spec in Hs.
  apply ltb_value in Hlt; try apply prim_valid; [|exact I|exact Fc].
  apply within_spec in Hs; try apply prim_valid; try exact I.
  destruct Hs as (Fs & Hs0 & Hs1).
  pose proof (prim_valid (s * 0.05)) as Vm.
  rewrite add_spec. rewrite mul_spec in *. unfold SF64add, SF64mul in *.
  pose proof (pow2_pos 2200 ltac:(lia)) as P.
  assert (B1 : value (Prim2SF (-1)) = - 2 ^ 2200) by (vm_compute; reflexivity).
  assert (B2 : value (Prim2SF 1) = 2 ^ 2200) by (vm_compute; reflexivity).
  assert (B3 : value (Prim2SF (-0.05)) = - value (Prim2SF 0.05)) by (vm_compute; reflexivity).
  assert (B4 : 0 <= value (Prim2SF 0.05) <= value (Prim2SF 0.3))
    by (vm_compute; split; discriminate).
  assert (B5 : value (Prim2SF 3.90625) + value (Prim2SF 0.05) <= value (Prim2SF 4))
    by (vm_compute; discriminate).
  set (C := Prim2SF c) in *. set (S := Prim2SF s) in *.
  set (k := value (Prim2SF 0.05)) in *.
  destruct (mul_between (Prim2SF (-0.05)) (Prim2SF 0.05) S (Prim2SF 0.05))
    as (Fm & Lm & Um); try apply prim_valid; try exact I; try assumption.
  { fold k. rewrite B3. fold k.
    assert (- 2 ^ 2200 * k <= value S * k) by (apply Z.mul_le_mono_nonneg_r; lia).
    assert (value S * k <= 2 ^ 2200 * k) by (apply Z.mul_le_mono_nonneg_r; lia).
    lia. }
  fold k in Um. rewrite B3 in Lm. fold k in Lm.
  apply (add_between (S754_zero false) (Prim2SF 4) C); try apply prim_valid;
    try exact I; try assumption; [reflexivity|cbn [value]; lia].
Qed.

End Doubles.

Section Binary64Lights.
Local Open Scope float_scope.

(** One tick of a light: smoothed toward its target, then flickered. *)
Lemma binary64_light_step (c t x : float) :
  in_range 4 c = true -> is_target t -> sine_in_range x ->
  in_range 4 (flicker (smooth c t) x) = true.
Proof.
  intros Hc Ht Hx.
  change (in_range 4 (if 0.3 <? c + (t - c) * 0.08
                      then c + (t - c) * 0.08 + x * 0.05
                      else c + (t - c) * 0.08) = true).
  apply flicker_in_range; [|exact Hx].
  apply smooth_in_range; [exact Hc|].
  destruct Ht as [->| ->]; [left|right]; reflexivity.
Qed.

(** Both intensities stay between 0 and 4. *)
Lemma lights_in_range (w h : Z) (i0 : FrameInput float) (es : list (Event float)) :
  sines_ok sine_in_range i0 -> Forall (sines_ok sine_in_range) (frame_inputs es) ->
  in_range 4 (cameraGlow (run (threeSceneAction w h i0) es)) = true /\
  in_range 4 (computerGlow (run (threeSceneAction w h i0) es)) = true.
Proof.
  intros H0 Hes.
  apply (lights_stay_ok sine_in_range (fun c => in_range 4 c = true)); try assumption.
  - reflexivity.
  - apply binary64_light_step.
Qed.

(** C9.  In binary64, with sines between -1 and 1, both light intensities
    are at least 0 (so neither negative nor NaN) after every event since
    setup, whatever the hover outcomes were: the smoothing step keeps an
    intensity between 0 and 4 there, and the flicker, of amplitude 0.05 and
    added above 0.3 only, cannot make it negative. *)
Theorem intensities_never_negative
  (w h : Z) (i0 : FrameInput float) (es : list (Event float)) :
  sines_ok sine_in_range i0 -> Forall (sines_ok sine_in_range) (frame_inputs es) ->
  let s := run (threeSceneAction w h i0) es in
  (0 <=? cameraGlow s) = true /\ (0 <=? computerGlow s) = true.
Proof.
  intros H0 Hes s.
  destruct (lights_in_range w h i0 es H0 Hes) as [H1 H2].
  apply andb_prop in H1, H2. split; [apply H1|apply H2].
Qed.

End Binary64Lights.

(** ** The camera focus transition (lines 183-205) and the frame loop *)

Section Focus.
Context {num : Type} {N : Number num}.
Local Open Scope num_scope.

Lemma animate_host (i : FrameInput num) (s : State num) :
  frame_requests (animate i s) = frame_requests s ++ [(next_request s, Animate)] /\
  console (animate i s) = console s /\
  camera_position (animate i s) = controls_update i (camera_position s) /\
  rendered (animate i s) = rendered s ++ [controls_update i (camera_position s)] /\
  listeners (animate i s) = listeners s.
Proof.
  unfold animate, requestAnimationFrame. fields.
  match goal with |- context [hover i ?s1] => set (s' := s1) end.
  destruct (hover_writes i s') as (_ & _ & _ & W1 & _ & _ & W2 & _ & W3 & W4 & W5).
  rewrite W1, W2, W3, W4, W5. repeat split.
Qed.

Lemma move_running (f : Focus num) (s : State num) :
  (next_progress f <? lit 1) = true ->
  frame_requests (move f s)
    = frame_requests s ++ [(next_request s, Move (with_progress (next_progress f) f))] /\
  console (move f s) = console s /\
  camera_position (move f s) = lerpVectors (start f) (end_ f) (next_progress f) /\
  rendered (move f s) = rendered s.
Proof.
  unfold next_progress, move. intros H. rewrite H.
  unfold requestAnimationFrame. fields. repeat split.
Qed.

Lemma move_completing (f : Focus num) (s : State num) :
  (next_progress f <? lit 1) = false ->
  frame_requests (move f s) = frame_requests s /\
  console (move f s) = console s ++ [("Open portfolio:"%string, portfolio f)] /\
  camera_position (move f s) = end_ f /\
  rendered (move f s) = rendered s.
Proof.
  unfold next_progress, move. intros H. rewrite H. fields. repeat split.
Qed.






Lemma pending_moves_app (s : State num) (q q' : list (nat * Callback num)) :
  frame_requests s = q ++ q' ->
  pending_moves s = moves_in q ++ moves_in q'.
Proof. intros E. unfold pending_moves, moves_in. now rewrite E, flat_map_app. Qed.





(** The first tick runs inside [focusOn]. *)
Lemma focusOn_first_tick (s : State num) (o : Object3D) (key : string) :
  focusOn (ref o) key s
  = move {| start := camera_position s; end_ := focus_end s o;
            progress := lit 0; portfolio := key |} s.
Proof. reflexivity. Qed.

(** C5 (amended).  The main loop does not know of the transition: each of
    its ticks lets the orbit controls reposition the camera and renders
    from that position; since the callbacks of a frame run in the order
    they were requested, the transition's tick comes after it and
    overwrites the position with the interpolated one (or with [end] on the
    last tick). *)
Theorem main_loop_repositions_camera_during_focus
  (i : FrameInput num) (s : State num) (a m : nat) (f : Focus num) :
  frame_requests s = [(a, Animate); (m, Move f)] ->
  camera_position (animate i s) = controls_update i (camera_position s) /\
  rendered (frame i s) = rendered s ++ [controls_update i (camera_position s)] /\
  camera_position (frame i s)
    = (if next_progress f <? lit 1
       then lerpVectors (start f) (end_ f) (next_progress f)
       else end_ f).
Proof.
  intros F.
  destruct (animate_host i s) as (_ & _ & P & _).
  split; [exact P|].
  unfold frame. rewrite F. cbn [fold_left snd run_callback].
  destruct (animate_host i (set_frame_requests [] s)) as (_ & _ & P0 & R0 & _).
  fields_in P0. fields_in R0.
  destruct (next_progress f <? lit 1) eqn:E.
  - destruct (move_running f (animate i (set_frame_requests [] s)) E) as (_ & _ & P1 & R1).
    split; congruence.
  - destruct (move_completing f (animate i (set_frame_requests [] s)) E) as (_ & _ & P1 & R1).
    split; congruence.
Qed.

End Focus.

(** ** The transition in binary64 *)

Section FocusBinary64.
Local Open Scope num_scope.

(** The sixty values of [progress]: below 1 for fifty-nine ticks, then
    above it. *)
Lemma progress_below_1 (n : nat) :
  (1 <= n <= 59)%nat -> ((progress_after n : float) <? lit 1) = true.
Proof.
  intros H.
  assert (A : forallb (fun n => (progress_after n : float) <? lit 1) (seq 1 59) = true)
    by (vm_compute; reflexivity).
  rewrite forallb_forall in A. apply A, in_seq. lia.
Qed.


Lemma progress_at_completion :
  (progress_after 60 : float) = 0x1.0000000000006p+0%float /\
  ((progress_after 60 : float) <? lit 1) = false /\
  ((lit 1 : float) <? progress_after 60) = true.
Proof. vm_compute. repeat split. Qed.




End FocusBinary64.

(** ** Clicks (lines 113-122) *)

Section Clicks.
Context {num : Type} {N : Number num}.
Local Open Scope num_scope.

Lemma near_test (m : Ref) (h : Object3D) :
  Ref_eqb (parent h) m || Ref_eqb (parent_opt (parent h)) m = true <-> near m h.
Proof.
  unfold near. rewrite orb_true_iff, !Ref_eqb_eq. reflexivity.
Qed.

Lemma onClick_camera (s : State num) (h m : Object3D) :
  hoveredObject s = ref h -> cameraModel s = ref m -> near (ref m) h ->
  onClick s = focusOn (ref m) "photography" s.
Proof.
  intros Hh Hm Hn. unfold onClick. rewrite Hh, Hm.
  apply near_test in Hn. now rewrite Hn.
Qed.

Lemma onClick_computer (s : State num) (h m : Object3D) :
  hoveredObject s = ref h -> macbookModel s = ref m -> near (ref m) h ->
  ~ near (cameraModel s) h ->
  onClick s = focusOn (ref m) "computerscience" s.
Proof.
  intros Hh Hm Hn Hc. unfold onClick. rewrite Hh, Hm.
  apply near_test in Hn. rewrite Hn.
  destruct (Ref_eqb (parent h) (cameraModel s)
            || Ref_eqb (parent_opt (parent h)) (cameraModel s)) eqn:E; [|reflexivity].
  apply near_test in E. contradiction.
Qed.

(** A click does nothing unless the hovered object's parent or grandparent
    is a loaded model. *)
Lemma onClick_elsewhere (s : State num) :
  (forall h m, hoveredObject s = ref h ->
               cameraModel s = ref m \/ macbookModel s = ref m -> ~ near (ref m) h) ->
  onClick s = s.
Proof.
  intros H. unfold onClick. destruct (hoveredObject s) as [| |h] eqn:Hh; try reflexivity.
  destruct (Ref_eqb (parent h) (cameraModel s)
            || Ref_eqb (parent_opt (parent h)) (cameraModel s)) eqn:E1.
  { apply near_test in E1. destruct (cameraModel s) as [| |m] eqn:Hm; try reflexivity.
    exfalso. apply (H h m eq_refl); [now left|exact E1]. }
  destruct (Ref_eqb (parent h) (macbookModel s)
            || Ref_eqb (parent_opt (parent h)) (macbookModel s)) eqn:E2; [|reflexivity].
  apply near_test in E2. destruct (macbookModel s) as [| |m] eqn:Hm; try reflexivity.
  exfalso. apply (H h m eq_refl); [now right|exact E2].
Qed.

End Clicks.

Section ClicksBinary64.
Local Open Scope num_scope.

(** A call of [focusOn] on an object starts one more transition, whatever
    is already running, and logs nothing. *)
Lemma focusOn_starts (s : State float) (o : Object3D) (key : string) :
  running (focusOn (ref o) key s) = S (running s) /\
  console (focusOn (ref o) key s) = console s.
Proof.
  rewrite focusOn_first_tick.
  destruct (move_running
              {| start := camera_position s; end_ := focus_end s o;
                 progress := lit 0; portfolio := key |} s) as (F & C & _);
    [apply (progress_below_1 1); lia|].
  split; [|exact C].
  unfold running. rewrite (pending_moves_app _ _ _ F), length_app.
  cbn. unfold pending_moves. lia.
Qed.

Lemma click_decides (s : State float) :
  cameraModel s <> null ->
  (running (onClick s) = S (running s) <->
   exists h m, hoveredObject s = ref h /\
               (cameraModel s = ref m \/ macbookModel s = ref m) /\ near (ref m) h) /\
  ((forall h m, hoveredObject s = ref h ->
                cameraModel s = ref m \/ macbookModel s = ref m -> ~ near (ref m) h) ->
   onClick s = s) /\
  (hoveredObject s = null -> onClick s = s) /\
  console (onClick s) = console s.
Proof.
  intros Hnull.
  assert (Yes : (exists h m, hoveredObject s = ref h /\
                   (cameraModel s = ref m \/ macbookModel s = ref m) /\ near (ref m) h) ->
                running (onClick s) = S (running s) /\ console (onClick s) = console s).
  { intros (h & m & Hh & Hm & Hn).
    destruct (cameraModel s) as [| |c] eqn:Hc; [|contradiction|].
    - destruct Hm as [Hm|Hm]; [discriminate|].
      destruct (Ref_eqb (parent h) undefined || Ref_eqb (parent_opt (parent h)) undefined) eqn:E.
      + exfalso. apply near_test in E. destruct Hn as [Hn|Hn], E as [E|E]; try congruence;
          destruct h as [|? [|? ?]]; cbn in *; congruence.
      + rewrite (onClick_computer s h m Hh Hm Hn);
          [apply focusOn_starts|rewrite Hc; intros X; apply near_test in X; congruence].
    - destruct (Ref_eqb (parent h) (ref c) || Ref_eqb (parent_opt (parent h)) (ref c)) eqn:E.
      + apply near_test in E. rewrite (onClick_camera s h c Hh Hc E). apply focusOn_starts.
      + destruct Hm as [Hm|Hm].
        * injection Hm as <-. apply near_test in Hn. congruence.
        * rewrite (onClick_computer s h m Hh Hm Hn);
            [apply focusOn_starts|rewrite Hc; intros X; apply near_test in X; congruence]. }
  assert (No : (forall h m, hoveredObject s = ref h ->
                  cameraModel s = ref m \/ macbookModel s = ref m -> ~ near (ref m) h) ->
               onClick s = s) by apply onClick_elsewhere.
  assert (Dec : (exists h m, hoveredObject s = ref h /\
                   (cameraModel s = ref m \/ macbookModel s = ref m) /\ near (ref m) h) \/
                (forall h m, hoveredObject s = ref h ->
                   cameraModel s = ref m \/ macbookModel s = ref m -> ~ near (ref m) h)).
  { destruct (hoveredObject s) as [| |h]; try (right; intros; discriminate).
    assert (D : forall r, (exists m, r = ref m /\ near (ref m) h) \/
                          (forall m, r = ref m -> ~ near (ref m) h)).
    { intros [| |m]; try (right; intros; discriminate).
      destruct (Ref_eqb (parent h) (ref m) || Ref_eqb (parent_opt (parent h)) (ref m)) eqn:E.
      - left. exists m. split; [reflexivity|now apply near_test].
      - right. intros m' Hm' X. injection Hm' as <-. apply near_test in X. congruence. }
    destruct (D (cameraModel s)) as [(m & Hm & Hn)|Dc].
    { left. exists h, m. auto. }
    destruct (D (macbookModel s)) as [(m & Hm & Hn)|Dm].
    { left. exists h, m. auto. }
    right. intros h' m Hh [Hm|Hm]; injection Hh as <-; auto. }
  split; [|split; [|split]].
  - split; [|apply Yes].
    intros R. destruct Dec as [D|D]; [exact D|].
    rewrite (No D) in R. lia.
  - exact No.
  - intros Hn. apply No. intros h m Hh. congruence.
  - destruct Dec as [D|D]; [apply Yes, D|now rewrite (No D)].
Qed.

(** C1 (amended).  Whatever happened since setup, a click starts a
    transition exactly when the hovered object's parent or grandparent is a
    loaded model, whether or not other transitions are running; any other
    click (one with nothing hovered among them) leaves the whole state as
    it was, and no click logs a selection. *)
Theorem click_starts_transition
  (w h0 : Z) (i0 : FrameInput float) (es : list (Event float)) :
  let s := run (threeSceneAction w h0 i0) es in
  (running (onClick s) = S (running s) <->
   exists h m, hoveredObject s = ref h /\
               (cameraModel s = ref m \/ macbookModel s = ref m) /\ near (ref m) h) /\
  ((forall h m, hoveredObject s = ref h ->
                cameraModel s = ref m \/ macbookModel s = ref m -> ~ near (ref m) h) ->
   onClick s = s) /\
  (hoveredObject s = null -> onClick s = s) /\
  console (onClick s) = console s.
Proof.
  intros s. apply click_decides.
  assert (Hinv : hover_invariant s) by apply run_invariant, threeSceneAction_invariant.
  destruct (camera_is_scene_child Hinv) as [E|(k & E & _)]; rewrite E; discriminate.
Qed.

End ClicksBinary64.

(** ** The transition from start to completion *)

Section TransitionBinary64.
Local Open Scope num_scope.



End TransitionBinary64.

(** ** Resize (lines 210-214) *)

Section Resize.
Context {num : Type} {N : Number num}.
Local Open Scope num_scope.

Lemma handleResize_sets (clientWidth clientHeight : Z) (s : State num) :
  camera_aspect (handleResize clientWidth clientHeight s)
    = lit (inject_Z clientWidth) / lit (inject_Z clientHeight) /\
  projection_aspect (handleResize clientWidth clientHeight s)
    = camera_aspect (handleResize clientWidth clientHeight s) /\
  renderer_size (handleResize clientWidth clientHeight s) = (clientWidth, clientHeight).
Proof. repeat split. Qed.

End Resize.

Section ResizeBinary64.
Local Open Scope num_scope.

(** C7 (amended).  While the resize listener is registered, a resize
    notification sets the camera aspect to the quotient of the node's width
    and height, recomputes the projection from it and gives the render
    target that size, for every width and height: there is no guard.  800
    by 400 gives the aspect 2; a zero width gives the aspect 0, a zero
    height gives infinity. *)
Theorem resize_sets_aspect_unguarded (s : State float) (clientWidth clientHeight : Z) :
  listening resize handleResize_handler s = true ->
  let s' := step s (window_resize clientWidth clientHeight) in
  camera_aspect s' = lit (inject_Z clientWidth) / lit (inject_Z clientHeight) /\
  projection_aspect s' = camera_aspect s' /\
  renderer_size s' = (clientWidth, clientHeight) /\
  (clientWidth = 800%Z -> clientHeight = 400%Z -> camera_aspect s' = 2%float) /\
  (clientWidth = 0%Z -> clientHeight = 400%Z -> camera_aspect s' = 0%float) /\
  (clientWidth = 800%Z -> clientHeight = 0%Z -> camera_aspect s' = infinity).
Proof.
  intros L s'. subst s'. cbn [step]. rewrite L.
  destruct (handleResize_sets clientWidth clientHeight s) as (A & P & R).
  rewrite A, R. repeat split; intros -> ->; vm_compute; reflexivity.
Qed.

End ResizeBinary64.

(** In binary64, on the mounted component: 800 by 400 gives the aspect 2; a
    zero height gives infinity, or not-a-number when the width is zero too;
    a zero width gives zero. *)
Example resize_800_400 :
  camera_aspect (step mounted (window_resize 800 400)) = 2%float /\
  renderer_size (step mounted (window_resize 800 400)) = (800%Z, 400%Z) /\
  camera_aspect (step mounted (window_resize 800 0)) = infinity /\
  camera_aspect (step mounted (window_resize 0 400)) = 0%float /\
  PrimFloat.is_nan (camera_aspect (step mounted (window_resize 0 0))) = true.
Proof. vm_compute. repeat split. Qed.

(** ** Smoothing in exact arithmetic (lines 167-169) *)

Section ExactSmoothing.
Local Open Scope Q_scope.


End ExactSmoothing.

(** ** The sample runs *)

Section Samples.
Local Open Scope num_scope.

(** The hover theorem is about something: in the sample run the hit
    belongs to the camera model, and its light's target is lit. *)
Example pointing_at_the_camera_model :
  hovering_camera (run mounted [loaded_camera camera_gltf]) (pointing_at [0; 5]%nat) /\
  hoveredObject hovered = ref [0; 5]%nat /\
  cameraTargetIntensity hovered = 2.5%float /\
  computerTargetIntensity hovered = 0%float /\
  cameraGlow hovered = 0.2%float.
Proof.
  split; [|vm_compute; repeat split].
  exists [0; 5]%nat, [], [5]%nat. repeat split.
  exists [0]%nat. split; [discriminate|reflexivity].
Qed.

(** In binary64 too the intensities of a sample run stay non-negative,
    with the flicker at its lowest on every frame. *)
Example intensities_of_flickering_run :
  forallb (fun s => negb (cameraGlow s <? lit 0) && negb (computerGlow s <? lit 0))
          (states mounted flickering) = true /\
  List.length (states mounted flickering) = 602%nat /\
  cameraGlow (run mounted (firstn 301 flickering)) = 1.8749999999750779%float.
Proof. vm_compute. repeat split. Qed.

(** C1, as stated, fails: a click that arrives while a transition is
    Running starts a second one. *)
Lemma click_while_running_starts_another :
  running focusing = 1%nat /\
  running (step focusing window_click) = 2%nat /\
  map (@portfolio float) (pending_moves (step focusing window_click))
    = ["photography"%string; "photography"%string].
Proof. vm_compute. repeat split. Qed.


(** C5, as stated, fails: while the transition is Running, the tick of the
    main loop moves the camera to where the orbit controls put it, and
    renders from there. *)
Lemma main_loop_moves_camera_while_running :
  running focusing = 1%nat /\
  camera_position focusing
    = vec3 0.48666666666666669%float 0.0083333333333333332%float 1.0166666666666666%float /\
  camera_position (animate orbiting focusing) = vec3 0.5%float 0%float 1%float /\
  rendered (step focusing (animation_frame orbiting))
    = rendered focusing ++ [vec3 0.5%float 0%float 1%float].
Proof. vm_compute. repeat split. Qed.

(** C6: teardown removes the listeners and cancels the main loop, but the
    [move] of a Running transition stays requested; the next frame moves
    the camera, and the transition runs to its end and logs. *)
Theorem focus_transition_survives_teardown :
  listeners torn_down = [] /\
  map (fun r => is_animate (snd r)) (frame_requests torn_down) = [false] /\
  camera_position torn_down
    = vec3 0.48666666666666669%float 0.0083333333333333332%float 1.0166666666666666%float /\
  camera_position (step torn_down (animation_frame still))
    = vec3 0.47333333333333333%float 0.016666666666666666%float 1.0333333333333334%float /\
  console torn_down = [] /\
  console (run torn_down (repeat (animation_frame still) 59))
    = [("Open portfolio:"%string, "photography"%string)].
Proof. vm_compute. repeat split. Qed.

(** C7, as stated, fails: a resize to width 0 changes the aspect and the
    size of the render target. *)
Lemma resize_to_zero_width_changes_aspect :
  camera_aspect mounted = 2%float /\
  renderer_size mounted = (800%Z, 400%Z) /\
  camera_aspect (step mounted (window_resize 0 400)) = 0%float /\
  renderer_size (step mounted (window_resize 0 400)) = (0%Z, 400%Z).
Proof. vm_compute. repeat split. Qed.


End Samples.

(** ** Teardown (lines 219-237) *)

Section Teardown.
Context {num : Type} {N : Number num}.

Lemma filtered_out {A : Type} (p : A -> bool) (l : list A) (fs : list (A -> bool)) :
  In (fun x => negb (p x)) fs ->
  existsb p (fold_left (fun l f => filter f l) fs l) = false.
Proof.
  intros Hin. apply not_true_is_false. intros H.
  apply existsb_exists in H. destruct H as (x & Hx & Px).
  assert (K : forall fs l, In x (fold_left (fun l f => filter f l) fs l) ->
                           forall f, In f fs -> f x = true).
  { clear. induction fs as [|g fs IH]; intros l Hx f Hf; [destruct Hf|].
    cbn [fold_left] in Hx. destruct Hf as [<-|Hf].
    - assert (S : forall fs l, In x (fold_left (fun l f => filter f l) fs l) -> In x l).
      { clear. induction fs as [|g' fs IH']; intros l H; [exact H|].
        cbn [fold_left] in H. apply IH' in H. apply filter_In in H. tauto. }
      apply S in Hx. apply filter_In in Hx. tauto.
    - exact (IH _ Hx f Hf). }
  specialize (K fs l Hx _ Hin). cbn in K. rewrite Px in K. discriminate.
Qed.

(** What teardown does do: the three listeners are gone, the request of
    the main loop is cancelled, and the renderer, the controls and every
    mesh's geometry and material are disposed of, in the order of the
    traversal. *)
Lemma destroy_effects (s : State num) :
  listening mousemove onMouseMove_handler (destroy s) = false /\
  listening click onClick_handler (destroy s) = false /\
  listening resize handleResize_handler (destroy s) = false /\
  frame_requests (destroy s)
    = filter (fun r => negb (Nat.eqb (fst r) (animationFrameId s))) (frame_requests s) /\
  disposed (destroy s)
    = ((disposed s ++ [renderer_dispose]) ++ [controls_dispose])
      ++ traverse dispose_mesh (Node None (scene s)) /\
  camera_position (destroy s) = camera_position s.
Proof.
  unfold destroy, cancelAnimationFrame, removeEventListener, listening. fields.
  repeat split.
  - apply (filtered_out (same_listener mousemove onMouseMove_handler) (listeners s)
             [_; _; _]). cbn. auto.
  - apply (filtered_out (same_listener click onClick_handler) (listeners s)
             [_; _; _]). cbn. auto.
  - apply (filtered_out (same_listener resize handleResize_handler) (listeners s)
             [_; _; _]). cbn. auto.
Qed.

(** What it does not: a requested [move] is not the main loop's request,
    and stays. *)
Lemma destroy_keeps_transitions (s : State num) (id : nat) (f : Focus num) :
  In (id, Move f) (frame_requests s) -> id <> animationFrameId s ->
  In (id, Move f) (frame_requests (destroy s)).
Proof.
  intros Hin Hid. destruct (destroy_effects s) as (_ & _ & _ & F & _). rewrite F.
  apply filter_In. split; [exact Hin|]. cbn [fst].
  apply negb_true_iff, Nat.eqb_neq, Hid.
Qed.

End Teardown.

(** ** The [onMount] variant *)

Section OnMountVariant.
Context {num : Type} {N : Number num}.
Local Open Scope num_scope.

(** Its last tick logs and does not touch the camera. *)
Lemma onMount_move_completing (f : Focus num) (s : State num) :
  (next_progress f <? lit 1) = false ->
  camera_position (OnMount.move f s) = camera_position s /\
  console (OnMount.move f s) = console s ++ [("Open portfolio:"%string, portfolio f)] /\
  frame_requests (OnMount.move f s) = frame_requests s.
Proof.
  unfold next_progress, OnMount.move. intros H. rewrite H. fields. repeat split.
Qed.

Lemma onMount_move_running (f : Focus num) (s : State num) :
  (next_progress f <? lit 1) = true ->
  OnMount.move f s = move f s.
Proof.
  unfold next_progress, OnMount.move, move. intros H. now rewrite H.
Qed.

(** Without a loaded model its tick skips the hover stage too: nothing but
    the camera position, the queue and the rendered frames changes. *)
Lemma onMount_animate_without_models (i : FrameInput num) (s : State num) :
  models s = [] ->
  hover_lights (OnMount.animate i s) = hover_lights s /\
  rendered (OnMount.animate i s) = rendered s ++ [controls_update i (camera_position s)].
Proof.
  intros H. unfold OnMount.animate, OnMount.hover, requestAnimationFrame. fields.
  replace (models _) with (models s) by reflexivity.
  rewrite H. cbn [List.length Nat.ltb Nat.leb]. split; reflexivity.
Qed.

End OnMountVariant.

(** In binary64 the [onMount] variant completes on the same tick, logs the
    same line once, and leaves the camera at the position of the tick
    before, short of [end]. *)
Example onMount_transition_stops_short :
  let s := OnMount.run (OnMount.onClick hovered) (repeat (animation_frame still) 59) in
  console s = [("Open portfolio:"%string, "photography"%string)] /\
  pending_moves s = [] /\
  camera_position s
    = vec3 (-0.48333333333333472)%float 0.49166666666666736%float 1.9833333333333347%float /\
  OnMount.getWorldPosition hovered [5]%nat = vec3 (-0.5)%float 0%float 0%float.
Proof. vm_compute. repeat split. Qed.

(** ** Every transition logs once, however many run *)

Section Conservation.
Context {num : Type} {N : Number num}.
Local Open Scope num_scope.

Lemma running_app (s : State num) (q : list (nat * Callback num)) (r : nat * Callback num) :
  frame_requests s = q ++ [r] ->
  List.length (pending_moves s)
  = (List.length (moves_in q) + if is_animate (snd r) then 0 else 1)%nat.
Proof.
  intros E. rewrite (pending_moves_app s _ _ E), length_app.
  destruct r as [id [|f]]; reflexivity.
Qed.

(** A callback of a frame keeps the number of console lines plus Running
    transitions, a [move] counting as one transition that is either
    requested again or logged. *)
Lemma run_callback_conserves (i : FrameInput num) (cb : Callback num) (s : State num) :
  (List.length (console (run_callback i cb s)) + running (run_callback i cb s)
   = List.length (console s) + running s + if is_animate cb then 0 else 1)%nat.
Proof.
  destruct cb as [|f]; cbn [run_callback is_animate].
  - destruct (animate_host i s) as (F & C & _).
    unfold running. rewrite (running_app _ _ _ F), C. cbn [snd is_animate].
    unfold pending_moves. lia.
  - destruct (next_progress f <? lit 1) eqn:E.
    + destruct (move_running f s E) as (F & C & _).
      unfold running. rewrite (running_app _ _ _ F), C. cbn [snd is_animate].
      unfold pending_moves. lia.
    + destruct (move_completing f s E) as (F & C & _).
      unfold running, pending_moves. rewrite F, C, length_app. cbn [List.length]. lia.
Qed.

Lemma frame_conserves_transitions (i : FrameInput num) (s : State num) :
  (List.length (console (frame i s)) + running (frame i s)
   = List.length (console s) + running s)%nat.
Proof.
  unfold frame.
  assert (K : forall q s0,
             (List.length (console (fold_left (fun s r => run_callback i (snd r) s) q s0))
              + running (fold_left (fun s r => run_callback i (snd r) s) q s0)
              = List.length (console s0) + running s0 + List.length (moves_in q))%nat).
  { unfold moves_in.
    induction q as [|[id cb] q IH]; intros s0; cbn [fold_left flat_map snd].
    - cbn [List.length]. lia.
    - rewrite IH, run_callback_conserves, length_app.
      destruct cb; cbn [is_animate List.length]; lia. }
  rewrite K. unfold running, pending_moves. fields. cbn [moves_in flat_map List.length]. lia.
Qed.

End Conservation.

(** ** The theorems at the sample runs *)


(** [intensities_never_negative] on a run with the pointer over the camera
    model. *)
Lemma intensities_never_negative_witness :
  ((0 <=? cameraGlow (run (threeSceneAction 800 400 still)
                          [loaded_camera camera_gltf;
                           animation_frame (pointing_at [0; 5]%nat)])) = true /\
   (0 <=? computerGlow (run (threeSceneAction 800 400 still)
                            [loaded_camera camera_gltf;
                             animation_frame (pointing_at [0; 5]%nat)])) = true)%float.
Proof.
  apply (intensities_never_negative 800 400 still
           [loaded_camera camera_gltf; animation_frame (pointing_at [0; 5]%nat)]).
  - split; reflexivity.
  - repeat constructor.
Defined.

(** The same in exact arithmetic, on a run with a hover and a click. *)
Example exact_intensities_of_sample_run :
  (0 <= cameraGlow (run (N := Rounded.exact)
                        (threeSceneAction (N := Rounded.exact) 800 400 still_exact)
                        sample_events_exact) /\
   0 <= computerGlow (run (N := Rounded.exact)
                          (threeSceneAction (N := Rounded.exact) 800 400 still_exact)
                          sample_events_exact))%Q.
Proof.
  apply (rounded_intensities_not_negative (fun x => x) exact_monotone 800 400
           still_exact sample_events_exact).
  - split; unfold sine_bounded; cbn; lra.
  - repeat constructor; cbn; lra.
Qed.



(** [main_loop_repositions_camera_during_focus] right after the click. *)
Lemma main_loop_repositions_camera_during_focus_witness :
  camera_position (animate orbiting focusing)
    = controls_update orbiting (camera_position focusing) /\
  rendered (frame orbiting focusing)
    = rendered focusing ++ [controls_update orbiting (camera_position focusing)].
Proof.
  destruct (main_loop_repositions_camera_during_focus orbiting focusing 2 3
              {| start := (vec3_lit 0.5 0 1 : Vector3 float);
                 end_ := vec3_add (vec3_lit (-0.3) 0 0) (vec3_lit 0 0.5 2);
                 progress := (lit 0 + lit 0.02 / duration)%num;
                 portfolio := "photography" |})
    as (A & B & _).
  - vm_compute. reflexivity.
  - split; [exact A|exact B].
Defined.


(** [resize_sets_aspect_unguarded] on the mounted component. *)
Lemma resize_sets_aspect_unguarded_witness :
  listening resize handleResize_handler mounted = true /\
  camera_aspect (step mounted (window_resize 800 400)) = 2%float.
Proof.
  assert (L : listening resize handleResize_handler mounted = true) by reflexivity.
  split; [exact L|].
  destruct (resize_sets_aspect_unguarded mounted 800 400 L) as (_ & _ & _ & A & _).
  apply A; reflexivity.
Defined.

(** * Further properties *)

(** ** The ancestor loop of the hover stage (lines 147-151) *)

Lemma includes_In (ms : list Object3D) (o : Object3D) :
  includes ms o = true <-> In o ms.
Proof.
  unfold includes. rewrite existsb_exists. split.
  - intros (x & Hx & E). apply Object3D_eqb_eq in E. now subst.
  - intros H. exists o. split; [exact H|apply Object3D_eqb_refl].
Qed.

Lemma walk_up_spec (ms : list Object3D) (o : Object3D) :
  match walk_up ms o with
  | ref m =>
      In m ms /\
      exists below, o = below ++ m /\
        forall b1 b2, below = b1 ++ b2 -> b2 <> [] -> ~ In (b2 ++ m) ms
  | null => forall below m, o = below ++ m -> ~ In m ms
  | undefined => False
  end.
Proof.
  induction o as [|x p IH]; cbn [walk_up].
  - destruct (includes ms []) eqn:E.
    + apply includes_In in E. split; [exact E|]. exists []. split; [reflexivity|].
      intros b1 b2 Eb. symmetry in Eb. apply app_eq_nil in Eb. now intros [].
    + intros below m Eo Hin. symmetry in Eo. apply app_eq_nil in Eo. destruct Eo as [_ ->].
      apply includes_In in Hin. congruence.
  - destruct (includes ms (x :: p)) eqn:E.
    + apply includes_In in E. split; [exact E|]. exists []. split; [reflexivity|].
      intros b1 b2 Eb. symmetry in Eb. apply app_eq_nil in Eb. now intros [].
    + assert (Hx : ~ In (x :: p) ms) by (rewrite <- includes_In; congruence).
      destruct (walk_up ms p) as [| |m]; [exact IH| |].
      * intros below m Eo Hin. destruct below as [|y below]; cbn in Eo.
        -- subst m. contradiction.
        -- injection Eo as _ Eo. exact (IH below m Eo Hin).
      * destruct IH as (Hin & below & Ep & Hnear). split; [exact Hin|].
        exists (x :: below). split; [cbn; now rewrite Ep|].
        intros b1 b2 Eb Hb2 Hin2. destruct b1 as [|y b1]; cbn in Eb.
        -- subst b2. cbn in Hin2. rewrite <- Ep in Hin2. contradiction.
        -- injection Eb as _ Eb. exact (Hnear b1 b2 Eb Hb2 Hin2).
Qed.

(** X1: The loop [while (parent && !models.includes(parent)) parent = parent.parent],
    entered with the parent of the hit object, ends at the nearest proper
    ancestor of the hit object that is a registered model, or at [null] when
    no ancestor is one. *)
Theorem ancestor_walk_finds_nearest_model (ms : list Object3D) (target : Object3D) :
  match find_root ms (parent target) with
  | ref m =>
      In m ms /\ belongs_to m target /\
      forall m', In m' ms -> belongs_to m' target -> m' = m \/ belongs_to m' m
  | null => forall m', In m' ms -> ~ belongs_to m' target
  | undefined => False
  end.
Proof.
  destruct target as [|x p]; cbn [parent find_root].
  - intros m' _ (below & Hne & E). symmetry in E. apply app_eq_nil in E. now destruct E.
  - pose proof (walk_up_spec ms p) as W. destruct (walk_up ms p) as [| |m]; [exact W| |].
    + intros m' Hin (below & Hne & E). destruct below as [|y below]; [congruence|].
      injection E as _ E. exact (W below m' E Hin).
    + destruct W as (Hin & below & Ep & Hnear). split; [exact Hin|]. split.
      * exists (x :: below). split; [discriminate|cbn; now rewrite Ep].
      * intros m' Hin' (b' & Hne & E). destruct b' as [|y b']; [congruence|].
        injection E as _ E. rewrite Ep in E.
        apply app_eq_app in E. destruct E as (c & [[E1 E2]|[E1 E2]]).
        -- destruct c as [|z c].
           ++ left. now rewrite E2.
           ++ exfalso. apply (Hnear b' (z :: c) E1); [discriminate|now rewrite <- E2].
        -- destruct c as [|z c].
           ++ left. exact (eq_sym E2).
           ++ right. exists (z :: c). split; [discriminate|exact E2].
Qed.



Section Reachable.
Context {num : Type} {N : Number num}.
Local Open Scope num_scope.

Lemma threeSceneAction_unfold (w h : Z) (i : FrameInput num) :
  threeSceneAction w h i
  = addEventListener resize handleResize_handler
      (animate i
         (addEventListener click onClick_handler
            (addEventListener mousemove onMouseMove_handler (initial_state w h)))).
Proof. reflexivity. Qed.

(** A property of the state that every function of the component keeps
    holds after every run. *)
Section Induction.
Variable P : State num -> Prop.
Hypothesis P_listeners : forall l s, P s -> P (set_listeners l s).
Hypothesis P_animate : forall i s, P s -> P (animate i s).
Hypothesis P_move : forall f s, P s -> P (move f s).
Hypothesis P_reset : forall s, P s -> P (set_frame_requests [] s).
Hypothesis P_cancel : forall s, P s -> P (cancelAnimationFrame (animationFrameId s) s).
Hypothesis P_mouse : forall x y l t w h s, P s -> P (onMouseMove x y l t w h s).
Hypothesis P_resize : forall w h s, P s -> P (handleResize w h s).
Hypothesis P_camera : forall g s, P s -> P (camera_loaded g s).
Hypothesis P_computer : forall g s, P s -> P (computer_loaded g s).
Hypothesis P_disposed : forall d s, P s -> P (set_disposed d s).

Lemma kept_by_addEventListener (ty : EventType) (h : Handler) (s : State num) :
  P s -> P (addEventListener ty h s).
Proof. unfold addEventListener. destruct (existsb _ _); auto. Qed.

Lemma kept_by_onClick (s : State num) : P s -> P (onClick s).
Proof.
  intros H. unfold onClick. destruct (hoveredObject s); try exact H.
  destruct (_ || _).
  - unfold focusOn. destruct (cameraModel s); auto.
  - destruct (_ || _); [|exact H]. unfold focusOn. destruct (macbookModel s); auto.
Qed.

Lemma kept_by_destroy (s : State num) : P s -> P (destroy s).
Proof.
  intros H. unfold destroy, removeEventListener. auto 10.
Qed.

Lemma kept_by_frame (i : FrameInput num) (s : State num) : P s -> P (frame i s).
Proof.
  intros H. unfold frame.
  assert (H0 : P (set_frame_requests [] s)) by auto.
  revert H0. generalize (set_frame_requests [] s).
  induction (frame_requests s) as [|r q IH]; intros s0 H0; cbn [fold_left]; [exact H0|].
  apply IH. destruct r as [id [|f]]; cbn [run_callback snd]; auto.
Qed.

Lemma kept_by_step (s : State num) (e : Event num) : P s -> P (step s e).
Proof.
  intros H. destruct e; cbn [step]; auto using kept_by_frame, kept_by_destroy.
  - destruct (listening _ _ _); auto.
  - destruct (listening _ _ _); auto using kept_by_onClick.
  - destruct (listening _ _ _); auto.
Qed.

Lemma kept_by_run (es : list (Event num)) (s : State num) : P s -> P (run s es).
Proof.
  revert s. induction es as [|e es IH]; intros s H; cbn; [exact H|].
  apply IH, kept_by_step, H.
Qed.

Lemma kept_since_setup (w h : Z) (i0 : FrameInput num) (es : list (Event num)) :
  P (initial_state w h) -> P (run (threeSceneAction w h i0) es).
Proof.
  intros H. apply kept_by_run. rewrite threeSceneAction_unfold.
  auto using kept_by_addEventListener.
Qed.

End Induction.
End Reachable.

(** ** What the frame loop and the transition leave alone *)

Section Untouched.
Context {num : Type} {N : Number num}.
Local Open Scope num_scope.

Lemma hover_surroundings (i : FrameInput num) (s : State num) :
  surroundings (hover i s) = surroundings s.
Proof.
  unfold hover. destruct (0 <? _)%nat; [|reflexivity].
  destruct (intersects i); [reflexivity|]. fields.
  destruct (Ref_eqb _ _); [reflexivity|]. destruct (Ref_eqb _ _); reflexivity.
Qed.

Lemma animate_surroundings (i : FrameInput num) (s : State num) :
  surroundings (animate i s) = surroundings s.
Proof.
  unfold animate, requestAnimationFrame. fields.
  match goal with |- context [hover i ?s1] => set (s' := s1) end.
  pose proof (hover_surroundings i s') as H. unfold surroundings in *. fields.
  exact H.
Qed.

Lemma move_surroundings (f : Focus num) (s : State num) :
  surroundings (move f s) = surroundings s.
Proof. unfold move. destruct (_ <? _); reflexivity. Qed.

End Untouched.

(** ** Invariants of the hover targets, the aspect and the listeners *)

Section StateInvariants.
Context {num : Type} {N : Number num}.
Local Open Scope num_scope.

Lemma target_pair_ext (s s' : State num) :
  hover_lights s' = hover_lights s -> target_pair_ok s -> target_pair_ok s'.
Proof.
  unfold hover_lights, target_pair_ok. intros E. injection E as _ _ _ _ E1 E2 _ _.
  now rewrite E1, E2.
Qed.

Lemma hover_target_pair (i : FrameInput num) (s : State num) :
  target_pair_ok s -> target_pair_ok (hover i s).
Proof.
  intros H. unfold hover. destruct (0 <? _)%nat; [|exact H].
  destruct (intersects i); unfold target_pair_ok; fields; [now left|].
  destruct (Ref_eqb _ _); fields; [right; now left|].
  destruct (Ref_eqb _ _); fields; [right; now right|exact H].
Qed.

Lemma animate_target_pair (i : FrameInput num) (s : State num) :
  target_pair_ok s -> target_pair_ok (animate i s).
Proof.
  intros H. destruct (animate_hover i s) as (_ & T1 & T2 & _).
  pose proof (hover_target_pair i s H) as H'.
  unfold target_pair_ok in *. now rewrite T1, T2.
Qed.

End StateInvariants.

Section StateTheorems.
Context {num : Type} {N : Number num}.
Local Open Scope num_scope.

(** X2: Whatever happened since setup, the two light targets are both 0, or
    one of them is 2.5 and the other 0: the hover stage never has both
    lights lit (lines 153-164). *)
Theorem at_most_one_light_targeted
  (w h : Z) (i0 : FrameInput num) (es : list (Event num)) :
  let s := run (threeSceneAction w h i0) es in
  (cameraTargetIntensity s = lit 0 /\ computerTargetIntensity s = lit 0) \/
  (cameraTargetIntensity s = lit 2.5 /\ computerTargetIntensity s = lit 0) \/
  (cameraTargetIntensity s = lit 0 /\ computerTargetIntensity s = lit 2.5).
Proof.
  intros s. change (target_pair_ok s). apply kept_since_setup; try (intros; assumption).
  - intros i s0. apply animate_target_pair.
  - intros f s0. apply target_pair_ext, move_hover_lights.
  - left. split; reflexivity.
Qed.

Lemma aspect_kept (s s' : State num) :
  surroundings s' = surroundings s -> aspect_in_sync s -> aspect_in_sync s'.
Proof.
  unfold surroundings, aspect_in_sync. intros E. injection E as E1 E2 E3 _ _ _.
  now rewrite E1, E2, E3.
Qed.

(** X3: Whatever happened since setup, the camera's aspect is the ratio of the
    render target's width and height, and the projection was updated since
    the aspect was last written (lines 15, 19, 210-214). *)
Theorem aspect_follows_render_size
  (w h : Z) (i0 : FrameInput num) (es : list (Event num)) :
  let s := run (threeSceneAction w h i0) es in
  camera_aspect s
    = lit (inject_Z (fst (renderer_size s))) / lit (inject_Z (snd (renderer_size s))) /\
  projection_aspect s = camera_aspect s.
Proof.
  intros s. change (aspect_in_sync s). apply kept_since_setup; try (intros; assumption).
  - intros i s0. apply aspect_kept, animate_surroundings.
  - intros f s0. apply aspect_kept, move_surroundings.
  - intros w0 h0 s0 _. split; reflexivity.
  - split; reflexivity.
Qed.

End StateTheorems.

(** ** The queue of the next frame *)

Section Queue.
Context {num : Type} {N : Number num}.
Local Open Scope num_scope.

Lemma animates_in_app (q q' : list (nat * Callback num)) :
  animates_in (q ++ q') = animates_in q ++ animates_in q'.
Proof. apply flat_map_app. Qed.

Lemma moves_in_app (q q' : list (nat * Callback num)) :
  moves_in (q ++ q') = moves_in q ++ moves_in q'.
Proof. apply flat_map_app. Qed.

Lemma animate_queue (i : FrameInput num) (s : State num) :
  frame_requests (animate i s) = frame_requests s ++ [(next_request s, Animate)] /\
  next_request (animate i s) = S (next_request s) /\
  animationFrameId (animate i s) = next_request s.
Proof.
  unfold animate, requestAnimationFrame. fields.
  match goal with |- context [hover i ?s1] => set (s' := s1) end.
  assert (H : frame_requests (hover i s') = frame_requests s' /\
              next_request (hover i s') = next_request s' /\
              animationFrameId (hover i s') = animationFrameId s').
  { unfold hover. destruct (0 <? _)%nat; [|auto].
    destruct (intersects i); [auto|]. fields.
    destruct (Ref_eqb _ _); [auto|]. destruct (Ref_eqb _ _); auto. }
  exact H.
Qed.

Lemma move_queue (f : Focus num) (s : State num) :
  frame_requests (move f s)
    = frame_requests s ++
      (if next_progress f <? lit 1
       then [(next_request s, Move (with_progress (next_progress f) f))] else []) /\
  next_request (move f s)
    = (if next_progress f <? lit 1 then S (next_request s) else next_request s) /\
  animationFrameId (move f s) = animationFrameId s /\
  rendered (move f s) = rendered s /\
  console (move f s)
    = console s ++
      (if next_progress f <? lit 1 then [] else [("Open portfolio:"%string, portfolio f)]).
Proof.
  unfold move, next_progress, requestAnimationFrame.
  destruct (_ <? _); fields; rewrite ?app_nil_r; repeat split.
Qed.

(** *** The ids *)

Lemma ids_ok_animate (i : FrameInput num) (s : State num) :
  ids_ok s -> ids_ok (animate i s).
Proof.
  intros (H1 & H2 & H3). destruct (animate_queue i s) as (Q & Nx & Id).
  unfold ids_ok. rewrite Q, Nx, Id. split; [|split].
  - intros r Hr. apply in_app_or in Hr. destruct Hr as [Hr|[<-|[]]].
    + specialize (H1 r Hr). lia.
    + cbn. lia.
  - lia.
  - intros id f Hr. apply in_app_or in Hr. destruct Hr as [Hr|[Hr|[]]].
    + specialize (H1 _ Hr). cbn in H1. lia.
    + discriminate.
Qed.

Lemma ids_ok_move (f : Focus num) (s : State num) :
  ids_ok s -> ids_ok (move f s).
Proof.
  intros (H1 & H2 & H3). destruct (move_queue f s) as (Q & Nx & Id & _).
  unfold ids_ok. rewrite Q, Nx, Id. destruct (_ <? _).
  - split; [|split].
    + intros r Hr. apply in_app_or in Hr. destruct Hr as [Hr|[<-|[]]].
      * specialize (H1 r Hr). lia.
      * cbn. lia.
    + lia.
    + intros id g Hr. apply in_app_or in Hr. destruct Hr as [Hr|[Hr|[]]].
      * eapply H3, Hr.
      * injection Hr as <- _. lia.
  - rewrite app_nil_r. auto.
Qed.

Lemma ids_ok_since_setup (w h : Z) (i0 : FrameInput num) (es : list (Event num)) :
  ids_ok (run (threeSceneAction w h i0) es).
Proof.
  apply kept_since_setup; try (intros; assumption).
  - apply ids_ok_animate.
  - apply ids_ok_move.
  - intros s (H1 & H2 & H3). unfold ids_ok. fields. split; [|split]; [|exact H2|].
    + intros r [].
    + intros id f [].
  - intros s (H1 & H2 & H3). unfold ids_ok, cancelAnimationFrame. fields.
    split; [|split]; [|exact H2|].
    + intros r Hr. apply filter_In in Hr. apply H1, Hr.
    + intros id f Hr. apply filter_In in Hr. eapply H3, Hr.
  - unfold ids_ok. cbn. split; [|split]; [|lia|]; intros; contradiction.
Qed.

Lemma moves_in_filter (a : nat) (q : list (nat * Callback num)) :
  (forall id f, In (id, Move f) q -> id <> a) ->
  moves_in (filter (fun r => negb (Nat.eqb (fst r) a)) q) = moves_in q.
Proof.
  induction q as [|[id cb] q IH]; intros H; [reflexivity|]. cbn [filter fst].
  destruct cb as [|f].
  - destruct (Nat.eqb id a); cbn; apply IH; intros; eapply H; right; eassumption.
  - assert (id <> a) by (eapply H; left; reflexivity).
    replace (Nat.eqb id a) with false by (symmetry; now apply Nat.eqb_neq).
    cbn. f_equal. apply IH. intros; eapply H; right; eassumption.
Qed.

Lemma animates_in_filter (a : nat) (q : list (nat * Callback num)) :
  animates_in (filter (fun r => negb (Nat.eqb (fst r) a)) q)
  = filter (fun id => negb (Nat.eqb id a)) (animates_in q).
Proof.
  induction q as [|[id cb] q IH]; [reflexivity|]. cbn [filter fst].
  destruct cb as [|f].
  - change (animates_in ((id, Animate) :: q)) with (id :: animates_in q).
    cbn [filter]. destruct (Nat.eqb id a); cbn [negb]; [exact IH|].
    change (animates_in ((id, Animate) :: ?l)) with (id :: animates_in l).
    cbn. now rewrite <- IH.
  - change (animates_in ((id, Move f) :: q)) with (animates_in q).
    destruct (Nat.eqb id a); cbn [negb]; exact IH.
Qed.

(** X4: [destroy] cancels no tick of a focus transition: the id it cancels is
    that of a tick of the main loop (lines 222, 194-197). *)
Theorem teardown_cancels_no_transition
  (w h : Z) (i0 : FrameInput num) (es : list (Event num)) :
  let s := run (threeSceneAction w h i0) es in
  pending_moves (step s teardown) = pending_moves s /\
  console (step s teardown) = console s /\
  camera_position (step s teardown) = camera_position s.
Proof.
  intros s. destruct (ids_ok_since_setup w h i0 es) as (_ & _ & H). fold s in H.
  cbn [step]. destruct (destroy_effects s) as (_ & _ & _ & Q & _ & C).
  split; [|split; [|exact C]].
  - unfold pending_moves. rewrite Q. apply moves_in_filter. exact H.
  - unfold destroy, removeEventListener, cancelAnimationFrame. reflexivity.
Qed.

End Queue.

(** ** The main loop runs until teardown, and never after *)

Section MainLoop.
Context {num : Type} {N : Number num}.
Local Open Scope num_scope.

Lemma move_appearance (f : Focus num) (s : State num) :
  appearance (move f s) = appearance s.
Proof. unfold move. destruct (_ <? _); reflexivity. Qed.

Lemma move_loop (f : Focus num) (s : State num) :
  animates_in (frame_requests (move f s)) = animates_in (frame_requests s) /\
  animationFrameId (move f s) = animationFrameId s /\
  listeners (move f s) = listeners s.
Proof.
  destruct (move_queue f s) as (Q & _ & Id & _). rewrite Q, Id, animates_in_app.
  split; [|split; [reflexivity|]].
  - destruct (_ <? _); cbn; now rewrite app_nil_r.
  - unfold move. destruct (_ <? _); reflexivity.
Qed.

Lemma onClick_loop (s : State num) :
  animates_in (frame_requests (onClick s)) = animates_in (frame_requests s) /\
  animationFrameId (onClick s) = animationFrameId s /\
  listeners (onClick s) = listeners s.
Proof.
  unfold onClick. destruct (hoveredObject s); auto.
  destruct (_ || _).
  - unfold focusOn. destruct (cameraModel s); auto. apply move_loop.
  - destruct (_ || _); auto. unfold focusOn. destruct (macbookModel s); auto.
    apply move_loop.
Qed.

Lemma onClick_appearance (s : State num) : appearance (onClick s) = appearance s.
Proof.
  unfold onClick. destruct (hoveredObject s); auto.
  destruct (_ || _).
  - unfold focusOn. destruct (cameraModel s); auto. apply move_appearance.
  - destruct (_ || _); auto. unfold focusOn. destruct (macbookModel s); auto.
    apply move_appearance.
Qed.

(** A frame in which only transitions tick. *)
Lemma fold_moves (i : FrameInput num) (q : list (nat * Callback num)) :
  animates_in q = [] ->
  forall s0,
    let s' := fold_left (fun s r => run_callback i (snd r) s) q s0 in
    animates_in (frame_requests s') = animates_in (frame_requests s0) /\
    animationFrameId s' = animationFrameId s0 /\
    listeners s' = listeners s0 /\
    appearance s' = appearance s0.
Proof.
  induction q as [|[id cb] q IH]; intros Hq s0; cbn [fold_left]; [auto|].
  destruct cb as [|f]; [discriminate|]. cbn [run_callback snd].
  destruct (IH Hq (move f s0)) as (A & B & C & D).
  destruct (move_loop f s0) as (A' & B' & C').
  cbn zeta. rewrite A, B, C, D, A', B', C', move_appearance. auto.
Qed.

Lemma animates_in_single (a : nat) (q : list (nat * Callback num)) :
  animates_in q = [a] ->
  exists q1 q2, q = q1 ++ (a, Animate) :: q2 /\ animates_in q1 = [] /\ animates_in q2 = [].
Proof.
  induction q as [|[id cb] q IH]; [discriminate|]. destruct cb as [|f].
  - change (animates_in ((id, Animate) :: q)) with (id :: animates_in q).
    intros E. injection E as -> E. exists [], q. auto.
  - change (animates_in ((id, Move f) :: q)) with (animates_in q).
    intros E. destruct (IH E) as (q1 & q2 & -> & E1 & E2).
    exists ((id, Move f) :: q1), q2. auto.
Qed.

(** A frame of the running loop: one tick, one render, and the next tick
    requested under the id [animationFrameId] then holds. *)
Lemma frame_looping (i : FrameInput num) (s : State num) :
  looping s ->
  looping (frame i s) /\
  List.length (rendered (frame i s)) = S (List.length (rendered s)) /\
  listeners (frame i s) = listeners s.
Proof.
  unfold looping. intros L.
  destruct (animates_in_single _ _ L) as (q1 & q2 & Q & E1 & E2).
  unfold frame. rewrite Q, fold_left_app. cbn [fold_left run_callback snd].
  set (s0 := set_frame_requests [] s).
  destruct (fold_moves i q1 E1 s0) as (A1 & B1 & C1 & D1). cbn zeta in *.
  set (s1 := fold_left _ q1 s0) in *.
  destruct (animate_queue i s1) as (Qa & Nx & Id).
  destruct (animate_host i s1) as (_ & _ & _ & R & Ls).
  destruct (fold_moves i q2 E2 (animate i s1)) as (A2 & B2 & C2 & D2). cbn zeta in *.
  set (s2 := fold_left _ q2 (animate i s1)) in *.
  rewrite A2, B2, C2, Qa, Id, animates_in_app, A1, Ls, C1.
  split; [reflexivity|]. split; [|reflexivity].
  assert (R2 : rendered s2 = rendered (animate i s1)) by (unfold appearance in D2; congruence).
  assert (R1 : rendered s1 = rendered s0) by (unfold appearance in D1; congruence).
  rewrite R2, R, R1, length_app. cbn. lia.
Qed.

(** A frame after the loop stopped: nothing is rendered, and what the loop
    writes stays as it is. *)
Lemma frame_stopped (i : FrameInput num) (s : State num) :
  stopped s ->
  stopped (frame i s) /\ appearance (frame i s) = appearance s /\
  listeners (frame i s) = listeners s /\
  animationFrameId (frame i s) = animationFrameId s.
Proof.
  unfold stopped, frame. intros St.
  destruct (fold_moves i _ St (set_frame_requests [] s)) as (A & B & C & D).
  cbn zeta in *. rewrite A, B, C, D. auto.
Qed.

Lemma destroy_stops (s : State num) :
  looping s \/ stopped s ->
  stopped (destroy s) /\ appearance (destroy s) = appearance s.
Proof.
  intros H. destruct (destroy_effects s) as (_ & _ & _ & Q & _).
  unfold stopped. rewrite Q, animates_in_filter. split; [|reflexivity].
  destruct H as [L|St]; [rewrite L|rewrite St]; cbn; [|reflexivity].
  now rewrite Nat.eqb_refl.
Qed.

Lemma destroy_listeners (s : State num) :
  listeners s = three_listeners \/ listeners s = [] -> listeners (destroy s) = [].
Proof.
  intros H. unfold destroy, removeEventListener, cancelAnimationFrame. fields.
  destruct H as [-> | ->]; reflexivity.
Qed.

(** After teardown no handler runs and no frame renders. *)
Lemma stopped_run (es : list (Event num)) :
  forall s, stopped s -> listeners s = [] ->
    stopped (run s es) /\ listeners (run s es) = [] /\
    appearance (run s es) = appearance s.
Proof.
  induction es as [|e es IH]; intros s St Ls; cbn [run fold_left]; [auto|].
  change (fold_left step es (step s e)) with (run (step s e) es).
  assert (H : stopped (step s e) /\ listeners (step s e) = [] /\
              appearance (step s e) = appearance s).
  { destruct e; cbn [step]; unfold listening; rewrite ?Ls; cbn [existsb]; auto.
    - destruct (frame_stopped i s St) as (A & B & C & _). rewrite C. auto.
    - destruct (destroy_stops s (or_intror St)) as (A & B).
      split; [exact A|]. split; [|exact B]. apply destroy_listeners. now right. }
  destruct H as (A & B & C). destruct (IH _ A B) as (A' & B' & C').
  rewrite C'. auto.
Qed.

Lemma looping_run (es : list (Event num)) :
  forall s, looping s -> listeners s = three_listeners ->
    List.length (rendered (run s es))
    = (List.length (rendered s) + List.length (frame_inputs (before_teardown es)))%nat /\
    (looping (run s es) /\ listeners (run s es) = three_listeners \/
     stopped (run s es) /\ listeners (run s es) = []).
Proof.
  induction es as [|e es IH]; intros s L Ls; cbn [run fold_left].
  - cbn. split; [lia|left; auto].
  - change (fold_left step es (step s e)) with (run (step s e) es).
    destruct e.
    + cbn [step before_teardown]. destruct (frame_looping i s L) as (A & B & C).
      rewrite Ls in C. destruct (IH _ A C) as (R & K). split; [|exact K].
      rewrite R, B. unfold frame_inputs. cbn [flat_map app List.length]. lia.
    + cbn [step before_teardown]. unfold listening. rewrite Ls. cbn.
      apply (IH (onMouseMove _ _ _ _ _ _ s)); assumption.
    + cbn [step before_teardown]. unfold listening. rewrite Ls. cbn.
      destruct (onClick_loop s) as (A & B & C).
      assert (R : rendered (onClick s) = rendered s)
        by (pose proof (onClick_appearance s) as D; unfold appearance in D; congruence).
      rewrite <- R. apply IH; [|congruence]. unfold looping. congruence.
    + cbn [step before_teardown]. unfold listening. rewrite Ls. cbn.
      apply (IH (handleResize _ _ s)); assumption.
    + cbn [step before_teardown]. apply (IH (camera_loaded _ s)); assumption.
    + cbn [step before_teardown]. apply (IH (computer_loaded _ s)); assumption.
    + cbn [step before_teardown frame_inputs flat_map List.length].
      destruct (destroy_stops s (or_introl L)) as (A & B).
      assert (Ld : listeners (destroy s) = []) by (apply destroy_listeners; now left).
      destruct (stopped_run es _ A Ld) as (A' & B' & C').
      split; [|right; auto].
      unfold appearance in B, C'. rewrite Nat.add_0_r. congruence.
Qed.

Lemma setup_looping (w h : Z) (i0 : FrameInput num) :
  looping (threeSceneAction w h i0) /\
  listeners (threeSceneAction w h i0) = three_listeners /\
  List.length (rendered (threeSceneAction w h i0)) = 1%nat.
Proof.
  rewrite threeSceneAction_unfold.
  set (s0 := addEventListener click onClick_handler _).
  destruct (animate_queue i0 s0) as (Q & _ & Id).
  destruct (animate_host i0 s0) as (_ & _ & _ & R & Ls).
  assert (L0 : listeners s0 = [(mousemove, onMouseMove_handler); (click, onClick_handler)])
    by reflexivity.
  assert (F0 : frame_requests s0 = []) by reflexivity.
  assert (R0 : rendered s0 = []) by reflexivity.
  unfold looping.
  replace (addEventListener resize handleResize_handler (animate i0 s0))
    with (set_listeners (listeners (animate i0 s0) ++ [(resize, handleResize_handler)])
            (animate i0 s0))
    by (unfold addEventListener; rewrite Ls, L0; reflexivity).
  fields. rewrite Q, Id, R, Ls, L0, F0, R0. repeat split.
Qed.

(** X5: The main loop renders once at setup and once per animation frame until
    teardown, and never after it: [destroy] cancels the one tick the loop
    has pending, whenever it is called (lines 133-136, 179, 207, 222). *)
Theorem one_render_per_frame_until_teardown
  (w h : Z) (i0 : FrameInput num) (es : list (Event num)) :
  List.length (rendered (run (threeSceneAction w h i0) es))
  = S (List.length (frame_inputs (before_teardown es))).
Proof.
  destruct (setup_looping w h i0) as (L & Ls & R).
  destruct (looping_run es _ L Ls) as (H & _). rewrite H, R. reflexivity.
Qed.

(** X6: After teardown the component is inert towards its inputs: whatever
    events follow, no frame is rendered, no handler runs, and the hover
    state, the lights, the pointer, the aspect and the render target stay
    as teardown left them; no listener is registered and the main loop has
    no tick pending (lines 219-227). *)
Theorem inert_after_teardown
  (w h : Z) (i0 : FrameInput num) (es es' : list (Event num)) :
  let s := run (threeSceneAction w h i0) (es ++ [teardown]) in
  let s' := run s es' in
  rendered s' = rendered s /\
  hoveredObject s' = hoveredObject s /\
  cameraTargetIntensity s' = cameraTargetIntensity s /\
  computerTargetIntensity s' = computerTargetIntensity s /\
  cameraGlow s' = cameraGlow s /\ computerGlow s' = computerGlow s /\
  mouse s' = mouse s /\
  camera_aspect s' = camera_aspect s /\ projection_aspect s' = projection_aspect s /\
  renderer_size s' = renderer_size s /\
  listeners s' = [] /\
  animates_in (frame_requests s') = [].
Proof.
  intros s s'.
  destruct (setup_looping w h i0) as (L & Ls & _).
  destruct (looping_run es _ L Ls) as (_ & K).
  assert (E : s = destroy (run (threeSceneAction w h i0) es))
    by (unfold s, run; rewrite fold_left_app; reflexivity).
  assert (St : stopped s /\ listeners s = []).
  { rewrite E. destruct K as [[K1 K2]|[K1 K2]].
    - split; [apply destroy_stops; now left|apply destroy_listeners; now left].
    - split; [apply destroy_stops; now right|apply destroy_listeners; now right]. }
  destruct St as [St Ld].
  destruct (stopped_run es' s St Ld) as (A & B & C). fold s' in A, B, C.
  unfold appearance in C. injection C as C1 C2 C3 C4 C5 C6 C7 C8 C9 C10.
  repeat split; assumption.
Qed.

End MainLoop.

(** ** Every transition completes, however many run *)

Section Transitions.
Context {num : Type} {N : Number num}.
Local Open Scope num_scope.

Lemma fold_transitions (i : FrameInput num) (q : list (nat * Callback num)) :
  forall s0,
    let s' := fold_left (fun s r => run_callback i (snd r) s) q s0 in
    pending_moves s'
      = pending_moves s0 ++ map advance (filter still_running (moves_in q)) /\
    console s'
      = console s0 ++ map selection_log (filter (fun f => negb (still_running f)) (moves_in q)).
Proof.
  induction q as [|[id cb] q IH]; intros s0; cbn [fold_left].
  - cbn. now rewrite !app_nil_r.
  - destruct cb as [|f]; cbn [run_callback snd].
    + destruct (IH (animate i s0)) as (A & B). cbn zeta in *. rewrite A, B.
      destruct (animate_queue i s0) as (Q & _). destruct (animate_host i s0) as (_ & C & _).
      unfold pending_moves. rewrite Q, C, moves_in_app. cbn. now rewrite app_nil_r.
    + destruct (IH (move f s0)) as (A & B). cbn zeta in *. rewrite A, B.
      destruct (move_queue f s0) as (Q & _ & _ & _ & C).
      change (next_progress f <? lit 1) with (still_running f) in Q, C.
      change (moves_in ((id, Move f) :: q)) with (f :: moves_in q). cbn [filter].
      unfold pending_moves. rewrite Q, C, moves_in_app.
      destruct (still_running f); cbn [negb map app];
        rewrite <- !app_assoc; cbn [moves_in flat_map snd app]; now rewrite ?app_nil_r.
Qed.

(** One frame ticks every Running transition once, in the order they were
    started: those whose progress stays below 1 stay Running, the others
    write their log line. *)
Lemma frame_transitions (i : FrameInput num) (s : State num) :
  pending_moves (frame i s) = map advance (filter still_running (pending_moves s)) /\
  console (frame i s)
    = console s ++ map selection_log
                     (filter (fun f => negb (still_running f)) (pending_moves s)).
Proof.
  unfold frame. destruct (fold_transitions i (frame_requests s) (set_frame_requests [] s))
    as (A & B). cbn zeta in *. rewrite A, B. split; reflexivity.
Qed.

Lemma moves_in_filter_Forall (P : Focus num -> Prop) (g : nat * Callback num -> bool)
      (q : list (nat * Callback num)) :
  Forall P (moves_in q) -> Forall P (moves_in (filter g q)).
Proof.
  induction q as [|[id cb] q IH]; intros H; [constructor|]. cbn [filter].
  destruct cb as [|f].
  - destruct (g _); apply IH, H.
  - change (moves_in ((id, Move f) :: q)) with (f :: moves_in q) in H.
    inversion H; subst. destruct (g _); [|now apply IH].
    change (moves_in ((id, Move f) :: ?l)) with (f :: moves_in l). constructor; auto.
Qed.

Lemma selection_log_advance (l : list (Focus num)) :
  map selection_log (map advance l) = map selection_log l.
Proof. rewrite map_map. reflexivity. Qed.

Lemma partition_permutation {A : Type} (p : A -> bool) (l : list A) :
  Permutation (filter (fun x => negb (p x)) l ++ filter p l) l.
Proof.
  induction l as [|x l IH]; [constructor|]. cbn [filter].
  destruct (p x); cbn [negb app].
  - apply Permutation_sym, Permutation_cons_app, Permutation_sym, IH.
  - now constructor.
Qed.

End Transitions.

Section TransitionsBinary64.
Local Open Scope num_scope.

Lemma frames_left_tick (r : nat) (f : Focus float) :
  frames_left (S r) f -> still_running f = true -> frames_left r (advance f).
Proof.
  intros (n & Hn & E) R. exists (S n). split.
  - assert (n <> 59%nat); [|lia]. intros ->.
    unfold still_running, next_progress in R. rewrite E in R.
    change (progress_after 59 + lit 0.02 / duration) with (progress_after 60 : float) in R.
    destruct progress_at_completion as (_ & C & _). congruence.
  - cbn [advance with_progress progress]. unfold next_progress. rewrite E. reflexivity.
Qed.

Lemma frames_left_none (f : Focus float) : frames_left 0 f -> False.
Proof. intros (n & Hn & _). lia. Qed.

Lemma frame_frames_left (r : nat) (i : FrameInput float) (s : State float) :
  Forall (frames_left (S r)) (pending_moves s) ->
  Forall (frames_left r) (pending_moves (frame i s)).
Proof.
  intros H. destruct (frame_transitions i s) as [-> _].
  apply Forall_map. induction (pending_moves s) as [|f l IH]; [constructor|].
  inversion H as [|? ? Hf Hl]; subst. cbn [filter].
  destruct (still_running f) eqn:R; [constructor|]; auto using frames_left_tick.
Qed.

Lemma frames_complete (inputs : list (FrameInput float)) :
  forall (r : nat) (s : State float),
    Forall (frames_left r) (pending_moves s) -> (r <= List.length inputs)%nat ->
    let s' := run s (map (@animation_frame float) inputs) in
    pending_moves s' = [] /\
    exists L, console s' = console s ++ L /\
              Permutation L (map selection_log (pending_moves s)).
Proof.
  induction inputs as [|i inputs IH]; intros r s H Hr; cbn [map run fold_left].
  - assert (r = 0%nat) by (cbn in Hr; lia). subst r.
    assert (E : pending_moves s = []).
    { destruct (pending_moves s) as [|f l]; [reflexivity|].
      inversion H; subst. now exfalso; eapply frames_left_none; eauto. }
    split; [exact E|]. exists []. rewrite E, app_nil_r. split; [reflexivity|constructor].
  - change (fold_left step (map (@animation_frame float) inputs) (step s (animation_frame i)))
      with (run (frame i s) (map (@animation_frame float) inputs)).
    destruct (frame_transitions i s) as (P1 & C1).
    assert (H1 : Forall (frames_left (pred r)) (pending_moves (frame i s))).
    { destruct r as [|r]; [|now apply frame_frames_left].
      assert (E : pending_moves s = []).
      { destruct (pending_moves s) as [|f l]; [reflexivity|].
        inversion H; subst. now exfalso; eapply frames_left_none; eauto. }
      rewrite P1, E. constructor. }
    destruct (IH (pred r) (frame i s) H1 ltac:(cbn in Hr; lia)) as (A & L & B & C).
    split; [exact A|].
    exists (map selection_log (filter (fun f => negb (still_running f)) (pending_moves s)) ++ L).
    split; [rewrite B, C1, app_assoc; reflexivity|].
    rewrite P1, selection_log_advance in C.
    eapply Permutation_trans; [apply Permutation_app_head, C|].
    rewrite <- map_app. apply Permutation_map, partition_permutation.
Qed.

Lemma focusOn_pending (s : State float) (o : Object3D) (key : string) :
  exists f, pending_moves (focusOn (ref o) key s) = pending_moves s ++ [f] /\
            frames_left 59 f.
Proof.
  rewrite focusOn_first_tick.
  set (f0 := {| start := camera_position s; end_ := focus_end s o;
                progress := lit 0; portfolio := key |}).
  destruct (move_queue f0 s) as (Q & _).
  assert (R : (next_progress f0 <? lit 1) = true) by (vm_compute; reflexivity).
  rewrite R in Q. exists (with_progress (next_progress f0) f0). split.
  - unfold pending_moves. rewrite Q, moves_in_app. reflexivity.
  - exists 1%nat. split; [lia|reflexivity].
Qed.

Lemma onClick_pending (s : State float) :
  Forall (frames_left 59) (pending_moves s) ->
  Forall (frames_left 59) (pending_moves (onClick s)).
Proof.
  intros H. unfold onClick. destruct (hoveredObject s) as [| |hov]; try exact H.
  destruct (_ || _).
  - destruct (cameraModel s) as [| |m]; try exact H.
    destruct (focusOn_pending s m "photography") as (f & -> & Hf).
    apply Forall_app. split; [exact H|now constructor].
  - destruct (_ || _); [|exact H].
    destruct (macbookModel s) as [| |m]; try exact H.
    destruct (focusOn_pending s m "computerscience") as (f & -> & Hf).
    apply Forall_app. split; [exact H|now constructor].
Qed.

Lemma in_flight_since_setup (w h : Z) (i0 : FrameInput float) (es : list (Event float)) :
  Forall (frames_left 59) (pending_moves (run (threeSceneAction w h i0) es)).
Proof.
  assert (H0 : Forall (frames_left 59) (pending_moves (threeSceneAction w h i0))).
  { destruct (setup_looping w h i0) as (L & _). unfold looping in L.
    unfold pending_moves.
    destruct (animates_in_single _ _ L) as (q1 & q2 & Q & _).
    rewrite threeSceneAction_unfold in *.
    set (s0 := addEventListener click onClick_handler _) in *.
    assert (E : frame_requests (addEventListener resize handleResize_handler (animate i0 s0))
                = frame_requests (animate i0 s0))
      by (unfold addEventListener; destruct (existsb _ _); reflexivity).
    rewrite E. destruct (animate_queue i0 s0) as (Qa & _). rewrite Qa. constructor. }
  revert H0. generalize (threeSceneAction w h i0).
  induction es as [|e es IH]; intros s H; cbn [run fold_left]; [exact H|].
  apply IH. destruct e; cbn [step]; try exact H.
  - assert (H' : Forall (frames_left 60) (pending_moves s)).
    { eapply Forall_impl; [|exact H]. intros f (n & Hn & E). exists n. split; [lia|exact E]. }
    apply (frame_frames_left 59 i s) in H'. exact H'.
  - destruct (listening _ _ _); exact H.
  - destruct (listening _ _ _); [now apply onClick_pending|exact H].
  - destruct (listening _ _ _); exact H.
  - destruct (destroy_effects s) as (_ & _ & _ & Q & _).
    unfold pending_moves in *. rewrite Q. now apply moves_in_filter_Forall.
Qed.

(** X7: Whatever happened since setup, teardown included, 59 animation frames
    later no transition is Running any more, and each transition that was
    Running has written its log line exactly once: the lines added are those
    of the Running transitions, in some order (lines 183-205). *)
Theorem every_transition_completes
  (w h : Z) (i0 : FrameInput float) (es : list (Event float))
  (inputs : list (FrameInput float)) :
  (59 <= List.length inputs)%nat ->
  let s := run (threeSceneAction w h i0) es in
  let s' := run s (map (@animation_frame float) inputs) in
  pending_moves s' = [] /\
  exists L, console s' = console s ++ L /\
            Permutation L (map selection_log (pending_moves s)).
Proof.
  intros Hn s s'. apply (frames_complete inputs 59); [|exact Hn].
  apply in_flight_since_setup.
Qed.

End TransitionsBinary64.

(** ** Hover looks further up than click *)

Section HoverAndClick.
Context {num : Type} {N : Number num}.
Local Open Scope num_scope.

Lemma hover_hit (i : FrameInput num) (s : State num) (target : Object3D)
      (rest : list Object3D) :
  models s <> [] -> intersects i = target :: rest ->
  hoveredObject (hover i s) = ref target.
Proof.
  intros Hm Hi. unfold hover. rewrite Hi.
  destruct (models s) as [|m0 ms]; [congruence|]. cbn [List.length Nat.ltb Nat.leb].
  fields. destruct (Ref_eqb _ _); [reflexivity|]. destruct (Ref_eqb _ _); reflexivity.
Qed.

(** X8: A hit on an object three or more levels below a model's root lights
    that model's lamp, as the ancestor loop of the hover stage goes all the
    way up; a click then does nothing, as [onClick] looks at the parent and
    the grandparent only (lines 113-122, 147-159). *)
Theorem deep_hit_lights_but_click_does_not_focus
  (w h : Z) (i0 : FrameInput num) (es : list (Event num)) (i : FrameInput num)
  (target : Object3D) (rest : list Object3D) (m below : Object3D) :
  let s := run (threeSceneAction w h i0) es in
  intersects i = target :: rest ->
  cameraModel s = ref m \/ macbookModel s = ref m ->
  target = below ++ m -> (3 <= List.length below)%nat ->
  let s1 := animate i s in
  hoveredObject s1 = ref target /\
  (cameraModel s = ref m ->
   cameraTargetIntensity s1 = lit 2.5 /\ computerTargetIntensity s1 = lit 0) /\
  (macbookModel s = ref m ->
   cameraTargetIntensity s1 = lit 0 /\ computerTargetIntensity s1 = lit 2.5) /\
  onClick s1 = s1.
Proof.
  intros s Hi Hm Ht Hlen s1.
  assert (Hinv : hover_invariant s) by apply run_invariant, threeSceneAction_invariant.
  destruct (animate_hover i s) as (H1 & H2 & H3 & H4 & H5 & _).
  assert (Hbelow : below <> []) by (intros ->; cbn in Hlen; lia).
  assert (Hmodels : models s <> []).
  { unfold models. destruct Hm as [-> | ->]; [discriminate|].
    destruct (cameraModel s); discriminate. }
  split; [|split; [|split]].
  - unfold s1. rewrite H1. now apply (hover_hit i s target rest).
  - intros Hc. unfold s1. rewrite H2, H3. apply hover_camera; [exact Hinv|].
    exists target, rest, m. repeat split; try assumption.
    exists below. split; [exact Hbelow|exact Ht].
  - intros Hc. unfold s1. rewrite H2, H3. apply hover_computer; [exact Hinv|].
    exists target, rest, m. repeat split; try assumption.
    exists below. split; [exact Hbelow|exact Ht].
  - apply onClick_elsewhere. intros h' m' Hh Hm'.
    assert (E : h' = target).
    { unfold s1 in Hh. rewrite H1, (hover_hit i s target rest Hmodels Hi) in Hh. congruence. }
    subst h'.
    assert (L1 : List.length m' = 1%nat).
    { apply (models_roots s Hinv). unfold s1 in Hm'. rewrite H4, H5 in Hm'.
      unfold models. destruct Hm' as [-> | ->]; cbn; [now left|].
      destruct (cameraModel s); cbn; auto. }
    assert (L2 : List.length m = 1%nat).
    { apply (models_roots s Hinv). unfold models. destruct Hm as [-> | ->]; cbn; [now left|].
      destruct (cameraModel s); cbn; auto. }
    destruct below as [|b1 [|b2 [|b3 below]]]; cbn in Hlen; try lia.
    subst target. unfold near. cbn [app parent parent_opt].
    intros [E|E]; injection E as E; apply (f_equal (@List.length nat)) in E;
      cbn in E; rewrite ?length_app in E; lia.
Qed.

End HoverAndClick.

(** ** Teardown releases every mesh (lines 228-236) *)

Lemma traverse_meshes (n : SceneNode) :
  traverse dispose_mesh n = flat_map mesh_disposals (meshes n).
Proof.
  revert n. fix IH 1. intros [m cs]. cbn [traverse meshes].
  rewrite flat_map_app. f_equal.
  - destruct m; reflexivity.
  - induction cs as [|c cs IHcs]; [reflexivity|].
    cbn [flat_map]. rewrite flat_map_app, IH, IHcs. reflexivity.
Qed.

Section Disposal.
Context {num : Type} {N : Number num}.
Local Open Scope num_scope.

Lemma step_scene (s : State num) (e : Event num) :
  scene (step s e) = scene s ++ loaded_scenes [e].
Proof.
  destruct e; cbn [step loaded_scenes flat_map app]; rewrite ?app_nil_r;
    try reflexivity.
  - assert (Ha : forall i0 s0, scene s0 = scene s -> scene (animate i0 s0) = scene s).
    { intros i0 s0 H. destruct (animate_hover i0 s0) as (_ & _ & _ & _ & _ & E). congruence. }
    assert (Hm : forall f s0, scene s0 = scene s -> scene (move f s0) = scene s).
    { intros f s0 H. pose proof (move_hover_lights f s0) as E. unfold hover_lights in E.
      congruence. }
    apply (kept_by_frame (fun s' => scene s' = scene s)); auto.
  - destruct (listening _ _ _); reflexivity.
  - destruct (listening _ _ _); [|reflexivity].
    pose proof (onClick_hover_lights s) as E. unfold hover_lights in E. congruence.
  - destruct (listening _ _ _); reflexivity.
Qed.

Lemma run_scene (es : list (Event num)) (s : State num) :
  scene (run s es) = scene s ++ loaded_scenes es.
Proof.
  revert s. induction es as [|e es IH]; intros s; cbn [run fold_left].
  - cbn. now rewrite app_nil_r.
  - change (fold_left step es (step s e)) with (run (step s e) es).
    rewrite IH, step_scene, <- app_assoc. f_equal.
    change (e :: es) with ([e] ++ es). unfold loaded_scenes. now rewrite flat_map_app.
Qed.

(** X9: Teardown disposes the renderer, the controls, and then the geometry
    and the material of every mesh of the scene graph, once per mesh and in
    the order of the traversal: the floor's, then those of the models loaded
    so far, in the order they were loaded (lines 228-236). *)
Theorem teardown_disposes_every_mesh
  (w h : Z) (i0 : FrameInput num) (es : list (Event num)) :
  let s := run (threeSceneAction w h i0) es in
  disposed (step s teardown)
  = disposed s
    ++ [renderer_dispose; controls_dispose; geometry_dispose 0; material_dispose 0]
    ++ flat_map mesh_disposals (flat_map meshes (loaded_scenes es)).
Proof.
  intros s. cbn [step]. destruct (destroy_effects s) as (_ & _ & _ & _ & D & _).
  rewrite D, traverse_meshes. cbn [meshes app].
  assert (Es : scene s = scene (threeSceneAction w h i0) ++ loaded_scenes es)
    by apply run_scene.
  rewrite Es.
  assert (E : scene (threeSceneAction w h i0) = [floor; light; light; light; light]).
  { rewrite threeSceneAction_unfold.
    set (s0 := addEventListener click onClick_handler _).
    assert (E0 : scene s0 = [floor; light; light; light; light]) by reflexivity.
    destruct (animate_hover i0 s0) as (_ & _ & _ & _ & _ & E1).
    unfold addEventListener. destruct (existsb _ _); fields; congruence. }
  rewrite E, flat_map_app. cbn [flat_map meshes floor light app mesh_disposals geometry material].
  rewrite <- !app_assoc. reflexivity.
Qed.

End Disposal.

(** ** The [onMount] variant: the lights and the loop *)

Section OnMountLoop.
Context {num : Type} {N : Number num}.
Local Open Scope num_scope.

Lemma onMount_hover_glows (i : FrameInput num) (s : State num) :
  glow_pair_ok s -> glow_pair_ok (OnMount.hover i s).
Proof.
  intros H. unfold OnMount.hover. destruct (0 <? _)%nat; [|exact H].
  destruct (intersects i); unfold glow_pair_ok; fields; [now left|].
  destruct (negb _); [|exact H]. fields.
  destruct (Ref_eqb _ _); fields; [right; now left|].
  destruct (Ref_eqb _ _); fields; [right; now right|exact H].
Qed.

Lemma onMount_hover_rest (i : FrameInput num) (s : State num) :
  frame_requests (OnMount.hover i s) = frame_requests s /\
  rendered (OnMount.hover i s) = rendered s /\
  listeners (OnMount.hover i s) = listeners s /\
  camera_position (OnMount.hover i s) = camera_position s.
Proof.
  unfold OnMount.hover. destruct (0 <? _)%nat; [|auto].
  destruct (intersects i); fields; [auto|].
  destruct (negb _); [|auto]. fields.
  destruct (Ref_eqb _ _); fields; [auto|]. destruct (Ref_eqb _ _); fields; auto.
Qed.

Lemma onMount_animate_effects (i : FrameInput num) (s : State num) :
  glow_pair_ok s ->
  glow_pair_ok (OnMount.animate i s) /\
  frame_requests (OnMount.animate i s) = frame_requests s ++ [(next_request s, Animate)] /\
  List.length (rendered (OnMount.animate i s)) = S (List.length (rendered s)) /\
  listeners (OnMount.animate i s) = listeners s.
Proof.
  intros H. unfold OnMount.animate, requestAnimationFrame. fields.
  match goal with |- context [OnMount.hover i ?s1] => set (s' := s1) end.
  destruct (onMount_hover_rest i s') as (A & B & C & _).
  assert (H' : glow_pair_ok s') by exact H.
  apply (onMount_hover_glows i) in H'.
  split; [exact H'|]. rewrite A, B, C. unfold s'. fields.
  rewrite length_app. cbn. repeat split. lia.
Qed.

Lemma onMount_move_effects (f : Focus num) (s : State num) :
  (glow_pair_ok s -> glow_pair_ok (OnMount.move f s)) /\
  animates_in (frame_requests (OnMount.move f s)) = animates_in (frame_requests s) /\
  rendered (OnMount.move f s) = rendered s /\
  listeners (OnMount.move f s) = listeners s.
Proof.
  unfold OnMount.move. destruct (_ <? _); unfold requestAnimationFrame; fields;
    rewrite ?animates_in_app; cbn; rewrite ?app_nil_r; auto.
Qed.


Lemma onMount_fold (i : FrameInput num) (q : list (nat * Callback num)) :
  forall s0, glow_pair_ok s0 ->
    let s' := fold_left (fun s r => OnMount.run_callback i (snd r) s) q s0 in
    List.length (animates_in (frame_requests s'))
      = (List.length (animates_in (frame_requests s0)) + List.length (animates_in q))%nat /\
    List.length (rendered s')
      = (List.length (rendered s0) + List.length (animates_in q))%nat /\
    listeners s' = listeners s0 /\ glow_pair_ok s'.
Proof.
  induction q as [|[id cb] q IH]; intros s0 H; cbn [fold_left].
  - cbn. rewrite !Nat.add_0_r. auto.
  - destruct cb as [|f]; cbn [OnMount.run_callback snd].
    + destruct (onMount_animate_effects i s0 H) as (G & Q & R & L).
      destruct (IH _ G) as (A & B & C & D). cbn zeta in *.
      rewrite A, B, C, Q, R, L, animates_in_app, length_app.
      change (animates_in ((id, Animate) :: q)) with (id :: animates_in q).
      cbn. repeat split; try lia. exact D.
    + destruct (onMount_move_effects f s0) as (G & Q & R & L).
      destruct (IH _ (G H)) as (A & B & C & D). cbn zeta in *.
      rewrite A, B, C, Q, R, L.
      change (animates_in ((id, Move f) :: q)) with (animates_in q). auto.
Qed.

Lemma onMount_frame (i : FrameInput num) (n : nat) (s : State num) :
  onMount_invariant n s -> onMount_invariant (S n) (OnMount.frame i s).
Proof.
  intros (A & B & C & D). unfold OnMount.frame.
  destruct (onMount_fold i (frame_requests s) (set_frame_requests [] s) D)
    as (A' & B' & C' & D'). cbn zeta in *.
  unfold onMount_invariant, listening in *. rewrite A', B', C'. fields.
  rewrite A, B. cbn. repeat split; auto. lia.
Qed.

Lemma onMount_onClick (n : nat) (s : State num) :
  onMount_invariant n s -> onMount_invariant n (OnMount.onClick s).
Proof.
  intros H. unfold OnMount.onClick. destruct (hoveredObject s); try exact H.
  assert (K : forall f, onMount_invariant n (OnMount.move f s)).
  { intros f. destruct H as (A & B & C & D).
    destruct (onMount_move_effects f s) as (G & Q & R & L).
    unfold onMount_invariant, listening in *. rewrite Q, R, L. auto. }
  destruct (Ref_eqb _ _).
  - unfold OnMount.focusOn. destruct (cameraModel s); auto.
  - destruct (Ref_eqb _ _); auto. unfold OnMount.focusOn. destruct (macbookModel s); auto.
Qed.

Lemma listening_after_remove (ty : EventType) (h : Handler) (s : State num) :
  ty <> resize ->
  listening resize handleResize_handler (removeEventListener ty h s)
  = listening resize handleResize_handler s.
Proof.
  intros Hty. unfold listening, removeEventListener. fields.
  induction (listeners s) as [|[ty' h'] l IH]; [reflexivity|]. cbn [filter existsb].
  destruct (same_listener ty h (ty', h')) eqn:E; cbn [negb existsb].
  - rewrite IH. unfold same_listener in *. cbn [fst snd] in *.
    destruct ty, ty'; try discriminate; try contradiction; reflexivity.
  - now rewrite IH.
Qed.

Lemma onMount_step (n : nat) (s : State num) (e : Event num) :
  onMount_invariant n s ->
  onMount_invariant (n + List.length (frame_inputs [e])) (OnMount.step s e).
Proof.
  intros H. destruct e; cbn [OnMount.step frame_inputs flat_map app List.length];
    rewrite ?Nat.add_0_r.
  - rewrite Nat.add_1_r. now apply onMount_frame.
  - destruct (listening mousemove _ _); exact H.
  - destruct (listening click _ _); [now apply onMount_onClick|exact H].
  - destruct (listening resize _ _); exact H.
  - exact H.
  - exact H.
  - destruct H as (A & B & C & D). unfold onMount_invariant, OnMount.cleanup.
    rewrite !listening_after_remove by discriminate. auto.
Qed.

Lemma onMount_setup_invariant (w h : Z) (i0 : FrameInput num) :
  onMount_invariant 1 (onMount w h i0).
Proof.
  unfold onMount.
  match goal with |- context [OnMount.animate i0 ?s1] => set (s0 := s1) end.
  assert (G0 : glow_pair_ok s0) by (left; split; reflexivity).
  destruct (onMount_animate_effects i0 s0 G0) as (G & Q & R & L).
  assert (L0 : listeners s0 = [(mousemove, onMouseMove_handler); (click, onClick_handler)])
    by reflexivity.
  replace (addEventListener resize handleResize_handler (OnMount.animate i0 s0))
    with (set_listeners (listeners (OnMount.animate i0 s0) ++ [(resize, handleResize_handler)])
            (OnMount.animate i0 s0))
    by (unfold addEventListener; rewrite L, L0; reflexivity).
  unfold onMount_invariant, listening. fields. rewrite Q, R, L, L0.
  repeat split; try reflexivity. exact G.
Qed.


(** X11: In the [onMount] variant the hover stage writes the two intensities
    together: whatever the events, both lights are off or exactly one is at
    2 (lines 365-385). *)
Theorem onMount_at_most_one_light_on
  (w h : Z) (i0 : FrameInput num) (es : list (Event num)) :
  let s := OnMount.run (onMount w h i0) es in
  (cameraGlow s = lit 0 /\ computerGlow s = lit 0) \/
  (cameraGlow s = lit 2 /\ computerGlow s = lit 0) \/
  (cameraGlow s = lit 0 /\ computerGlow s = lit 2).
Proof.
  intros s. change (glow_pair_ok s).
  assert (H : exists n, onMount_invariant n s).
  { unfold s. generalize (onMount_setup_invariant w h i0).
    generalize (onMount w h i0) 1%nat.
    induction es as [|e es IH]; intros s0 n H; cbn [OnMount.run fold_left].
    - now exists n.
    - apply (IH _ _ (onMount_step n s0 e H)). }
  destruct H as (n & _ & _ & _ & G). exact G.
Qed.

End OnMountLoop.

(** ** The smoothing step in binary64 never overshoots *)

Section MoreDoubles.
Local Open Scope Z_scope.

(** A value [k * 2^e] with [k] below 2^53 is a double. *)
Lemma representable (sx : bool) (k : positive) (e : Z) :
  Zpos k < 2 ^ 53 -> -1074 <= e <= 971 ->
  exists z, valid z /\ finite z /\ value z = cond_Zopp sx (scaled (Zpos k) e).
Proof.
  intros Hk He.
  destruct (digits2_bounds k) as [Lk Uk].
  set (d := Zpos (digits2_pos k)) in *.
  assert (Hd : d <= 53) by (apply digits_le; exact Hk).
  set (e' := Z.max (d + e - 53) (-1074)).
  assert (He' : -1074 <= e' <= e) by (unfold e'; lia).
  assert (P : 0 < 2 ^ (e - e')) by (apply pow2_pos; lia).
  assert (M : 0 < Zpos k * 2 ^ (e - e')) by (apply Z.mul_pos_pos; lia).
  set (m' := Z.to_pos (Zpos k * 2 ^ (e - e'))).
  assert (Em : Zpos m' = Zpos k * 2 ^ (e - e')) by (apply Z2Pos.id; exact M).
  assert (Dm : Zpos (digits2_pos m') = d + (e - e')).
  { apply Z.le_antisymm.
    - apply digits_le. rewrite Em, pow2_split by lia.
      apply Z.mul_lt_mono_pos_r; assumption.
    - pose proof (digits_ge m' (d - 1 + (e - e'))) as G.
      rewrite pow2_split in G by lia. rewrite Em in G.
      assert (2 ^ (d - 1) * 2 ^ (e - e') <= Zpos k * 2 ^ (e - e'))
        by (apply Z.mul_le_mono_nonneg_r; lia).
      lia. }
  exists (S754_finite sx m' e'). split; [|split; [exact I|]].
  - unfold valid, valid_binary, bounded, canonical_mantissa.
    rewrite Dm, fexp64. change (emax - prec) with 971.
    apply andb_true_iff. split; [apply Z.eqb_eq|apply Z.leb_le]; unfold e'; lia.
  - assert (E : scaled (Zpos m') e' = scaled (Zpos k) e).
    { unfold scaled. rewrite Em, <- Z.mul_assoc, <- pow2_split by lia.
      do 2 f_equal. lia. }
    destruct sx; cbn [value cond_Zopp]; now rewrite E.
Qed.

Lemma mantissa_below (m : positive) (e : Z) :
  bounded prec emax m e = true -> Zpos m < 2 ^ 53.
Proof.
  intros B. apply bounded_canonical in B. destruct B as (D & _).
  destruct (digits2_bounds m) as [_ U].
  assert (2 ^ Zpos (digits2_pos m) <= 2 ^ 53) by (apply Z.pow_le_mono_r; lia). lia.
Qed.

(** The difference of two positive doubles neither of which is more than
    twice the other is a double: their subtraction is exact. *)
Lemma sub_exact (x y : spec_float) :
  valid x -> valid y -> finite x -> finite y ->
  0 < value x -> 0 < value y ->
  value y <= 2 * value x -> value x <= 2 * value y ->
  finite (SFsub prec emax x y) /\
  value (SFsub prec emax x y) = value x - value y.
Proof.
  intros Vx Vy Fx Fy Px Py H1 H2.
  assert (Z : exists z, valid z /\ finite z /\ value z = value x - value y).
  { destruct (positive_value x Vx Fx Px) as (mx & ex & Ex & Bx).
    destruct (positive_value y Vy Fy Py) as (my & ey & Ey & By).
    subst x y. cbn [value] in *.
    pose proof (bounded_canonical _ _ Bx) as (_ & Rx & _).
    pose proof (bounded_canonical _ _ By) as (_ & Ry & _).
    pose proof (mantissa_below _ _ Bx) as Mx53.
    pose proof (mantissa_below _ _ By) as My53.
    pose proof (aligned mx ex ey ltac:(lia) ltac:(lia)) as Ax.
    pose proof (aligned my ey ex ltac:(lia) ltac:(lia)) as Ay.
    rewrite (Z.min_comm ey ex) in Ay.
    set (ez := Z.min ex ey) in *.
    set (Mx := Zpos (fst (shl_align mx ex ez))) in *.
    set (My := Zpos (fst (shl_align my ey ez))) in *.
    assert (G : 0 < 2 ^ (ez + 2200)) by (apply pow2_pos; unfold ez; lia).
    set (g := 2 ^ (ez + 2200)) in *.
    assert (Small : Z.abs (Mx - My) < 2 ^ 53).
    { destruct (Z.min_spec ex ey) as [[_ E]|[_ E]]; fold ez in E.
      - (* the exponent of x *)
        assert (Ex : Mx = Zpos mx).
        { apply Z.mul_reg_r with g; [lia|]. unfold scaled in Ax. rewrite Ax.
          unfold g. now rewrite E. }
        assert (My <= 2 * Mx).
        { apply le_cancel with g; [exact G|]. lia. }
        assert (0 < My) by (unfold My; lia).
        rewrite Ex in *. lia.
      - assert (Ey : My = Zpos my).
        { apply Z.mul_reg_r with g; [lia|]. unfold scaled in Ay. rewrite Ay.
          unfold g. now rewrite E. }
        assert (Mx <= 2 * My).
        { apply le_cancel with g; [exact G|]. lia. }
        assert (0 < Mx) by (unfold Mx; lia).
        rewrite Ey in *. lia. }
    assert (V : scaled (Zpos mx) ex - scaled (Zpos my) ey = (Mx - My) * g) by lia.
    rewrite V.
    assert (Rz : -1074 <= ez <= 971) by (unfold ez; lia).
    destruct (Mx - My) as [|k|k] eqn:K.
    - exists (S754_zero false). repeat split.
    - destruct (representable false k ez ltac:(cbn in Small; lia) Rz) as (z & Vz & Fz & Ez).
      exists z. split; [exact Vz|split; [exact Fz|]]. rewrite Ez. reflexivity.
    - destruct (representable true k ez ltac:(cbn in Small; lia) Rz) as (z & Vz & Fz & Ez).
      exists z. split; [exact Vz|split; [exact Fz|]].
      rewrite Ez. cbn [cond_Zopp]. unfold scaled, g. lia. }
  destruct Z as (z & Vz & Fz & Ez).
  destruct (sub_between z z x y) as (F & L & U); try assumption; [lia|].
  split; [exact F|lia].
Qed.

Lemma leb_value (x y : spec_float) :
  valid x -> valid y -> finite x -> finite y ->
  SFleb x y = true <-> value x <= value y.
Proof.
  intros Vx Vy Fx Fy. unfold SFleb. rewrite compare_value by assumption.
  destruct (Z.compare_spec (value x) (value y)); split; intros; try lia; try reflexivity;
    discriminate.
Qed.

(** The step [c + (t - c) * k], with bounds for the difference, the product
    and the sum. *)
Lemma smooth_between (c t k : float) (lD uD lP uP lR uR : spec_float) :
  valid lD -> valid uD -> valid lP -> valid uP -> valid lR -> valid uR ->
  finite lD -> finite uD -> finite lP -> finite uP -> finite lR -> finite uR ->
  finite (Prim2SF c) -> finite (Prim2SF t) -> finite (Prim2SF k) ->
  value lD <= value (Prim2SF t) - value (Prim2SF c) <= value uD ->
  (forall d, value lD <= d <= value uD ->
     value lP * 2 ^ 2200 <= d * value (Prim2SF k) <= value uP * 2 ^ 2200) ->
  (forall p, value lP <= p <= value uP ->
     value lR <= value (Prim2SF c) + p <= value uR) ->
  finite (Prim2SF (c + (t - c) * k)) /\
  value lR <= value (Prim2SF (c + (t - c) * k)) <= value uR.
Proof.
  intros VlD VuD VlP VuP VlR VuR FlD FuD FlP FuP FlR FuR Fc Ft Fk HD HP HR.
  pose proof (prim_valid c) as Vc. pose proof (prim_valid t) as Vt.
  pose proof (prim_valid k) as Vk.
  pose proof (prim_valid (t - c)) as VD. pose proof (prim_valid ((t - c) * k)) as VP.
  rewrite add_spec. rewrite mul_spec in *. rewrite sub_spec in *.
  unfold SF64add, SF64mul, SF64sub in *.
  destruct (sub_between lD uD (Prim2SF t) (Prim2SF c)) as (FD & BD); try assumption.
  destruct (mul_between lP uP (SFsub prec emax (Prim2SF t) (Prim2SF c)) (Prim2SF k))
    as (FP & BP); try assumption; [apply HP, BD|].
  apply add_between; try assumption. apply HR, BP.
Qed.

End MoreDoubles.

Section SmoothingBinary64.
Local Open Scope Z_scope.

Lemma factor_between_0_and_1 :
  0 <= value (Prim2SF 0.08) <= 2 ^ 2200.
Proof. vm_compute. split; discriminate. Qed.

Lemma smooth_toward_0 (c : float) :
  finite (Prim2SF c) -> 0 <= value (Prim2SF c) ->
  finite (Prim2SF (c + (0 - c) * 0.08)) /\
  0 <= value (Prim2SF (c + (0 - c) * 0.08)) <= value (Prim2SF c).
Proof.
  intros Fc Hc. pose proof factor_between_0_and_1 as Hk.
  pose proof (pow2_pos 2200 ltac:(lia)) as P.
  destruct (opp_value (Prim2SF c) (prim_valid c) Fc) as (Vo & Fo & Eo).
  apply (smooth_between c 0 0.08 (SFopp (Prim2SF c)) (SFopp (Prim2SF c))
           (SFopp (Prim2SF c)) (S754_zero false) (S754_zero false) (Prim2SF c));
    try assumption; try apply prim_valid; try reflexivity; try exact I.
  - rewrite Eo. change (value (Prim2SF 0)) with 0. lia.
  - intros d Hd. rewrite Eo in *. assert (d = - value (Prim2SF c)) by lia. subst d.
    change (value (S754_zero false)) with 0.
    set (vc := value (Prim2SF c)) in *. set (vk := value (Prim2SF 0.08)) in *.
    assert (vc * vk <= vc * 2 ^ 2200) by (apply Z.mul_le_mono_nonneg_l; lia).
    assert (0 <= vc * vk) by (apply Z.mul_nonneg_nonneg; lia).
    lia.
  - intros p Hp. rewrite Eo in Hp. change (value (S754_zero false)) with 0 in *. lia.
Qed.

Lemma smooth_toward_2_5 (c : float) :
  finite (Prim2SF c) -> 0 <= value (Prim2SF c) <= value (Prim2SF 4) ->
  finite (Prim2SF (c + (2.5 - c) * 0.08)) /\
  (value (Prim2SF c) <= value (Prim2SF 2.5) ->
   value (Prim2SF c) <= value (Prim2SF (c + (2.5 - c) * 0.08)) <= value (Prim2SF 2.5)) /\
  (value (Prim2SF 2.5) <= value (Prim2SF c) ->
   value (Prim2SF 2.5) <= value (Prim2SF (c + (2.5 - c) * 0.08)) <= value (Prim2SF c)).
Proof.
  intros Fc Hc. pose proof factor_between_0_and_1 as Hk.
  pose proof (pow2_pos 2200 ltac:(lia)) as P.
  pose proof (prim_valid c) as Vc.
  assert (A1 : value (Prim2SF 2.5) * value (Prim2SF 0.08) <= value (Prim2SF 0.25) * 2 ^ 2200)
    by (vm_compute; discriminate).
  assert (A2 : value (Prim2SF 1.25) + value (Prim2SF 0.25) <= value (Prim2SF 1.5))
    by (vm_compute; discriminate).
  assert (A3 : value (Prim2SF 1.5) <= value (Prim2SF 2.5)) by (vm_compute; discriminate).
  assert (A4 : value (Prim2SF 2.5) = 2 * value (Prim2SF 1.25)) by (vm_compute; reflexivity).
  assert (A5 : value (Prim2SF 4) <= 2 * value (Prim2SF 2.5)) by (vm_compute; discriminate).
  assert (A6 : 0 < value (Prim2SF 1.25)) by (vm_compute; reflexivity).
  assert (A7 : value (Prim2SF 0.25) = value (Prim2SF 1.5) - value (Prim2SF 1.25))
    by (vm_compute; reflexivity).
  set (vc := value (Prim2SF c)) in *. set (vk := value (Prim2SF 0.08)) in *.
  set (v25 := value (Prim2SF 2.5)) in *. set (v125 := value (Prim2SF 1.25)) in *.
  set (v15 := value (Prim2SF 1.5)) in *. set (v025 := value (Prim2SF 0.25)) in *.
  destruct (Z_lt_le_dec vc v125) as [Y|Y].
  - (* below 1.25: the difference is between 1.25 and 2.5 *)
    destruct (smooth_between c 2.5 0.08 (Prim2SF 1.25) (Prim2SF 2.5)
                (S754_zero false) (Prim2SF 0.25) (Prim2SF c) (Prim2SF 1.5))
      as (F & L & U); try assumption; try apply prim_valid; try reflexivity; try exact I.
    + fold vc v25 v125. lia.
    + intros d Hd. fold v125 v25 in Hd. fold vk v025.
      change (value (S754_zero false)) with 0.
      assert (0 <= d * vk) by (apply Z.mul_nonneg_nonneg; lia).
      assert (d * vk <= v25 * vk) by (apply Z.mul_le_mono_nonneg_r; lia).
      lia.
    + intros p Hp. change (value (S754_zero false)) with 0 in Hp.
      fold v025 in Hp. fold vc v15. lia.
    + fold vc v15 in L, U. split; [exact F|]. split; intros; lia.
  - (* from 1.25 on the difference is exact *)
    assert (Pc : 0 < vc) by lia.
    destruct (sub_exact (Prim2SF 2.5) (Prim2SF c)) as (FD & ED);
      try assumption; try apply prim_valid; try exact I;
      fold vc v25; try lia.
    pose proof (prim_valid (2.5 - c)) as VD. rewrite sub_spec in VD.
    unfold SF64sub in VD.
    set (D := SFsub prec emax (Prim2SF 2.5) (Prim2SF c)) in *.
    fold vc v25 in ED.
    destruct (Z_le_gt_dec vc v25) as [Y'|Y'].
    + destruct (smooth_between c 2.5 0.08 D D (S754_zero false) D (Prim2SF c) (Prim2SF 2.5))
        as (F & L & U); try assumption; try apply prim_valid; try reflexivity; try exact I.
      * fold vc v25. lia.
      * intros d Hd. assert (d = value D) by lia. subst d. fold vk.
        change (value (S754_zero false)) with 0.
        assert (0 <= value D * vk) by (apply Z.mul_nonneg_nonneg; lia).
        assert (value D * vk <= value D * 2 ^ 2200) by (apply Z.mul_le_mono_nonneg_l; lia).
        lia.
      * intros p Hp. change (value (S754_zero false)) with 0 in Hp. fold vc v25. lia.
      * fold vc v25 in L, U. split; [exact F|]. split; intros; lia.
    + destruct (smooth_between c 2.5 0.08 D D D (S754_zero false) (Prim2SF 2.5) (Prim2SF c))
        as (F & L & U); try assumption; try apply prim_valid; try reflexivity; try exact I.
      * fold vc v25. lia.
      * intros d Hd. assert (d = value D) by lia. subst d. fold vk.
        change (value (S754_zero false)) with 0.
        assert (0 <= (- value D) * vk) by (apply Z.mul_nonneg_nonneg; lia).
        assert ((- value D) * vk <= (- value D) * 2 ^ 2200)
          by (apply Z.mul_le_mono_nonneg_l; lia).
        lia.
      * intros p Hp. change (value (S754_zero false)) with 0 in Hp. fold vc v25. lia.
      * fold vc v25 in L, U. split; [exact F|]. split; intros; lia.
Qed.

Lemma prim_between (l u x : float) :
  finite (Prim2SF l) -> finite (Prim2SF u) -> finite (Prim2SF x) ->
  value (Prim2SF l) <= value (Prim2SF x) <= value (Prim2SF u) ->
  ((l <=? x) && (x <=? u))%float = true.
Proof.
  intros Fl Fu Fx H. rewrite !leb_spec.
  apply within_spec; try apply prim_valid; auto.
Qed.

Lemma prim_leb_value (x y : float) :
  finite (Prim2SF x) -> finite (Prim2SF y) ->
  (x <=? y)%float = true -> value (Prim2SF x) <= value (Prim2SF y).
Proof.
  intros Fx Fy H. rewrite leb_spec in H.
  apply leb_value in H; try apply prim_valid; assumption.
Qed.

(** X12: In binary64 the smoothing step of a light (lines 168-169) moves the
    intensity toward the target without passing it: from an intensity
    between 0 and 4, the new intensity lies between the old one and the
    target, whichever of 0 and 2.5 the target is. *)
Theorem smoothing_never_overshoots (c t : float) :
  in_range 4 c = true -> is_target t ->
  ((c <=? t)%float = true ->
   ((c <=? smooth c t) && (smooth c t <=? t))%float = true) /\
  ((t <=? c)%float = true ->
   ((t <=? smooth c t) && (smooth c t <=? c))%float = true).
Proof.
  intros Hc Ht. apply in_range_spec in Hc; [|exact I]. destruct Hc as (Fc & Hc0 & Hc4).
  destruct Ht as [-> | ->].
  - change (smooth c (lit 0)) with (c + (0 - c) * 0.08)%float.
    change (lit 0 : float) with 0%float.
    destruct (smooth_toward_0 c Fc Hc0) as (F & L & U).
    split; intros H; apply prim_leb_value in H; try assumption; try exact I;
      change (value (Prim2SF 0)) with 0 in H;
      apply prim_between; try assumption; try exact I;
      change (value (Prim2SF 0)) with 0; lia.
  - change (smooth c (lit 2.5)) with (c + (2.5 - c) * 0.08)%float.
    change (lit 2.5 : float) with 2.5%float.
    destruct (smooth_toward_2_5 c Fc (conj Hc0 Hc4)) as (F & Below & Above).
    split; intros H; apply prim_leb_value in H; try assumption; try exact I;
      apply prim_between; try assumption; try exact I; auto.
Qed.

End SmoothingBinary64.

Section Division.
Local Open Scope Z_scope.

(** [k] right shifts of a mantissa that carries a location: the quotient,
    and flags that are set only when something was or had been lost. *)
Lemma shr_iter_loc (m : Z) (r0 s0 : bool) (k : nat) :
  0 <= m ->
  forall r, r = Nat.iter k shr_1 {| shr_m := m; shr_r := r0; shr_s := s0 |} ->
  shr_m r = m / 2 ^ Z.of_nat k /\
  (shr_r r || shr_s r = true -> m mod 2 ^ Z.of_nat k <> 0 \/ r0 || s0 = true).
Proof.
  intros Hm. induction k as [|k IH]; intros r ->.
  - cbn. rewrite Z.div_1_r. split; [reflexivity|]. intros F. right. exact F.
  - rewrite Nat.iter_succ. destruct (IH _ eq_refl) as [IHm IHf].
    destruct (Nat.iter k shr_1 _) as [mk rk sk] eqn:E. cbn [shr_m shr_r shr_s] in *.
    assert (P : 0 < 2 ^ Z.of_nat k) by (apply Z.pow_pos_nonneg; lia).
    rewrite shr_1_spec by (subst mk; apply Z.div_pos; lia).
    cbn [shr_m shr_r shr_s]. rewrite Nat2Z.inj_succ, Z.pow_succ_r by lia.
    replace (2 * 2 ^ Z.of_nat k) with (2 ^ Z.of_nat k * 2) by lia.
    split.
    + subst mk. rewrite Z.div_div by lia. reflexivity.
    + intros F. rewrite Z.rem_mul_r by lia.
      pose proof (Z.mod_pos_bound m (2 ^ Z.of_nat k) P).
      pose proof (Z.mod_pos_bound (m / 2 ^ Z.of_nat k) 2 ltac:(lia)).
      apply orb_true_iff in F. destruct F as [F|F].
      * left. rewrite <- IHm, Zmod_odd, F. lia.
      * destruct (IHf F) as [G|G]; [left; nia|right; exact G].
Qed.

Lemma shr_loc_spec (q e n : Z) (l : location) :
  0 <= q -> 0 < n ->
  let '(r, e') := shr (shr_record_of_loc q l) e n in
  e' = e + n /\ shr_m r = q / 2 ^ n /\
  (shr_r r || shr_s r = true -> q mod 2 ^ n <> 0 \/ l <> loc_Exact).
Proof.
  intros Hq Hn. unfold shr. destruct n as [|p|p]; try lia.
  rewrite iter_pos_nat.
  assert (R : exists r0 s0, shr_record_of_loc q l = {| shr_m := q; shr_r := r0; shr_s := s0 |}
                            /\ (r0 || s0 = true -> l <> loc_Exact)).
  { destruct l as [|[| |]]; cbn [shr_record_of_loc]; eexists; eexists;
      (split; [reflexivity|]); cbn; intros; discriminate. }
  destruct R as (r0 & s0 & -> & Hl).
  pose proof (shr_iter_loc q r0 s0 (Pos.to_nat p) Hq _ eq_refl) as H.
  rewrite positive_nat_Z in H. destruct H as [H1 H2].
  split; [reflexivity|]. split; [exact H1|].
  intros F. destruct (H2 F) as [G|G]; [left; exact G|right; exact (Hl G)].
Qed.

Lemma location_exact (nb k : Z) : new_location nb k <> loc_Exact -> k <> 0.
Proof.
  intros H ->. apply H. unfold new_location, new_location_even, new_location_odd.
  destruct (Z.even nb); reflexivity.
Qed.

Lemma round_loc_spec (q : Z) (l : location) :
  let r := shr_record_of_loc q l in
  round_nearest_even (shr_m r) (loc_of_shr_record r) = q \/
  (round_nearest_even (shr_m r) (loc_of_shr_record r) = q + 1 /\ l <> loc_Exact).
Proof.
  destruct l as [|[| |]]; cbn; auto.
  - destruct (Z.even q); [auto|right; split; [reflexivity|discriminate]].
  - right; split; [reflexivity|discriminate].
Qed.

Lemma shifted_mantissa (m s : Z) :
  0 <= s ->
  match s with Z0 => m | Zpos _ => Z.shiftl m s | Zneg _ => 0 end = m * 2 ^ s.
Proof.
  intros H. destruct s as [|p|p]; try lia.
  apply Z.shiftl_mul_pow2. lia.
Qed.

(** The quotient and the remainder [SFdiv_core_binary] computes for two
    positive doubles, the first not above the second. *)
Lemma div_core_spec (mx : positive) (ex : Z) (my : positive) (ey : Z) :
  bounded prec emax mx ex = true -> bounded prec emax my ey = true ->
  scaled (Zpos mx) ex <= scaled (Zpos my) ey ->
  let '(q, e', l) := SFdiv_core_binary prec emax (Zpos mx) ex (Zpos my) ey in
  e' <= -53 /\ 0 <= q <= 2 ^ (- e') /\ (l <> loc_Exact -> q < 2 ^ (- e')).
Proof.
  intros Bx By Hle. unfold scaled in Hle.
  apply bounded_canonical in Bx. destruct Bx as (Dx & Ex & _).
  apply bounded_canonical in By. destruct By as (Dy & Ey & _).
  destruct (digits2_bounds mx) as [Lx Ux]. destruct (digits2_bounds my) as [Ly Uy].
  unfold SFdiv_core_binary. cbn [Zdigits2]. rewrite fexp64.
  set (dx := Zpos (digits2_pos mx)) in *. set (dy := Zpos (digits2_pos my)) in *.
  assert (Hd : dx + ex <= dy + ey).
  { destruct (Z_le_gt_dec (dx + ex) (dy + ey)) as [Y|Y]; [exact Y|exfalso].
    assert (2 ^ (dy + ey + 2200) <= 2 ^ (dx - 1 + ex + 2200))
      by (apply Z.pow_le_mono_r; lia).
    assert (A : Zpos my * 2 ^ (ey + 2200) < 2 ^ dy * 2 ^ (ey + 2200))
      by (apply Z.mul_lt_mono_pos_r; [apply pow2_pos; lia|exact Uy]).
    assert (B : 2 ^ (dx - 1) * 2 ^ (ex + 2200) <= Zpos mx * 2 ^ (ex + 2200))
      by (apply Z.mul_le_mono_nonneg_r; [apply Z.lt_le_incl, pow2_pos; lia|exact Lx]).
    rewrite <- pow2_split in A, B by lia.
    replace (dy + (ey + 2200)) with (dy + ey + 2200) in A by lia.
    replace (dx - 1 + (ex + 2200)) with (dx - 1 + ex + 2200) in B by lia.
    lia. }
  set (e' := Z.min (Z.max (dx + ex - (dy + ey) - 53) (-1074)) (ex - ey)).
  assert (He' : e' <= -53) by (unfold e'; lia).
  assert (Hs : 0 <= ex - ey - e') by (unfold e'; lia).
  set (s := ex - ey - e') in *.
  set (m' := match s with Z0 => Zpos mx | Zpos _ => Z.shiftl (Zpos mx) s | Zneg _ => 0 end).
  assert (Hm' : m' = Zpos mx * 2 ^ s).
  { unfold m'. apply shifted_mantissa. exact Hs. }
  clearbody m'.
  pose proof (Z_div_mod m' (Zpos my) ltac:(lia)) as DM.
  destruct (Z.div_eucl m' (Zpos my)) as [q r]. destruct DM as [DM1 DM2].
  assert (Pe : 0 < 2 ^ (ex + 2200)) by (apply pow2_pos; lia).
  assert (Ps : 0 < 2 ^ s) by (apply pow2_pos; lia).
  assert (Pg : 0 < 2 ^ (- e')) by (apply pow2_pos; lia).
  assert (K : m' <= Zpos my * 2 ^ (- e')).
  { apply le_cancel with (2 ^ (ex + 2200)); [exact Pe|].
    assert (EQ : 2 ^ (- e') * 2 ^ (ex + 2200) = 2 ^ (ey + 2200) * 2 ^ s)
      by (rewrite <- !pow2_split by lia; f_equal; unfold s; lia).
    replace (m' * 2 ^ (ex + 2200)) with (Zpos mx * 2 ^ (ex + 2200) * 2 ^ s)
      by (rewrite Hm'; ring).
    replace (Zpos my * 2 ^ (- e') * 2 ^ (ex + 2200))
      with (Zpos my * 2 ^ (ey + 2200) * 2 ^ s)
      by (rewrite <- (Z.mul_assoc _ (2 ^ (- e'))), EQ; ring).
    apply Z.mul_le_mono_nonneg_r; [lia|exact Hle]. }
  assert (Q0 : 0 <= q).
  { destruct (Z_le_gt_dec 0 q) as [Y|Y]; [exact Y|exfalso].
    assert (Zpos my * q <= Zpos my * (-1)) by (apply Z.mul_le_mono_nonneg_l; lia).
    assert (0 <= m') by (rewrite Hm'; apply Z.mul_nonneg_nonneg; lia).
    lia. }
  split; [exact He'|]. split; [split; [exact Q0|]|].
  - apply le_cancel with (Zpos my); [lia|]. lia.
  - intros Hl. apply location_exact in Hl.
    apply lt_cancel with (Zpos my); [lia|]. lia.
Qed.

(** The quotient of two positive doubles, the first not above the second,
    is finite and not above 1. *)
Lemma div_round_bound (s : bool) (q e' : Z) (l : location) :
  e' <= -53 -> 0 <= q <= 2 ^ (- e') -> (l <> loc_Exact -> q < 2 ^ (- e')) ->
  match binary_round_aux prec emax s q e' l with
  | S754_zero s' => True
  | S754_finite s' m1 e1 => s' = s /\ scaled (Zpos m1) e1 <= 2 ^ 2200
  | _ => False
  end.
Proof.
  intros He Hq Hl. unfold binary_round_aux, shr_fexp at 1. rewrite fexp64.
  set (dq := Zdigits2 q).
  assert (Dq : 0 <= dq /\ q < 2 ^ dq /\ (0 < q -> 2 ^ (dq - 1) <= q)).
  { unfold dq. destruct q as [|p|p]; cbn [Zdigits2]; [| |lia].
    - split; [lia|]. split; [reflexivity|lia].
    - destruct (digits2_bounds p). lia. }
  destruct Dq as (Dq0 & Dq1 & Dq2).
  assert (Dle : dq + e' <= 1).
  { destruct (Z.eq_dec q 0) as [Z0|NZ].
    - subst q. unfold dq. cbn [Zdigits2]. lia.
    - destruct (Z_le_gt_dec (dq + e') 1) as [Y|Y]; [exact Y|exfalso].
      assert (2 ^ (- e') < 2 ^ (dq - 1)) by (apply Z.pow_lt_mono_r; lia).
      specialize (Dq2 ltac:(lia)). lia. }
  set (E := Z.max (dq + e' - 53) (-1074)).
  assert (Pg : 0 < 2 ^ (- e')) by (apply pow2_pos; lia).
  assert (Common : forall q2 E1, -1074 <= E1 <= 0 -> 0 <= q2 <= 2 ^ 53 ->
            q2 <= 2 ^ (- E1) ->
            match (let '(mrs'', e'') := shr_fexp prec emax q2 E1 loc_Exact in
                   match shr_m mrs'' with
                   | 0 => S754_zero s
                   | Zpos m => if e'' <=? emax - prec then S754_finite s m e''
                               else S754_infinity s
                   | Zneg _ => S754_nan
                   end) with
            | S754_zero s' => True
            | S754_finite s' m1 e1 => s' = s /\ scaled (Zpos m1) e1 <= 2 ^ 2200
            | _ => False
            end).
  { intros q2 E1 HE1 Hq2 Hb.
    pose proof (second_shift q2 E1 Hq2 ltac:(lia)) as S2.
    destruct (shr_fexp prec emax q2 E1 loc_Exact) as [r2 e2].
    destruct S2 as [S2a S2b]. change (emax - prec) with 971.
    assert (V : q2 * 2 ^ (E1 + 2200) <= 2 ^ 2200).
    { replace 2200 with (- E1 + (E1 + 2200)) at 2 by lia.
      rewrite (pow2_split (- E1) (E1 + 2200)) by lia.
      apply Z.mul_le_mono_nonneg_r; [apply Z.lt_le_incl, pow2_pos; lia|exact Hb]. }
    destruct (Z.eq_dec q2 (2 ^ 53)) as [Y|Y].
    - destruct (S2b Y) as [-> ->]. change (2 ^ 52) with (Zpos (2 ^ 52)).
      cbv iota. destruct (Z.leb_spec (E1 + 1) 971); [|lia].
      split; [reflexivity|]. unfold scaled.
      replace (E1 + 1 + 2200) with (1 + (E1 + 2200)) by lia.
      rewrite (pow2_split 1 (E1 + 2200)) by lia. rewrite Z.mul_assoc.
      change (Zpos (2 ^ 52) * 2 ^ 1) with (2 ^ 53). rewrite <- Y. exact V.
    - destruct (S2a ltac:(lia)) as [-> ->].
      destruct q2 as [|p|p]; [exact I| |lia].
      destruct (Z.leb_spec E1 971); [|lia].
      split; [reflexivity|exact V]. }
  destruct (Z_le_gt_dec (E - e') 0) as [N|N].
  - assert (Sh : shr (shr_record_of_loc q l) e' (E - e') = (shr_record_of_loc q l, e')).
    { unfold shr. destruct (E - e') as [|p|p]; try lia; reflexivity. }
    fold dq. fold E. rewrite Sh.
    assert (D53 : dq <= 53) by (unfold E in N; lia).
    assert (Q53 : q < 2 ^ 53).
    { assert (2 ^ dq <= 2 ^ 53) by (apply Z.pow_le_mono_r; lia). lia. }
    destruct (round_loc_spec q l) as [R|[R Hx]]; rewrite R.
    + apply Common; [unfold E in N; lia|lia|lia].
    + specialize (Hl Hx). apply Common; [unfold E in N; lia|lia|lia].
  - pose proof (shr_loc_spec q e' (E - e') l ltac:(lia) ltac:(lia)) as S1.
    fold dq. fold E.
    destruct (shr (shr_record_of_loc q l) e' (E - e')) as [r1 e1].
    destruct S1 as (-> & Q1 & F1). replace (e' + (E - e')) with E by lia.
    set (n := E - e') in *.
    assert (Pn : 0 < 2 ^ n) by (apply pow2_pos; lia).
    assert (HE : -1074 <= E <= 0) by (unfold E; lia).
    assert (G : 2 ^ (- e') = 2 ^ (- E) * 2 ^ n).
    { rewrite <- pow2_split by lia. f_equal. unfold n. lia. }
    pose proof (Z.mul_div_le q (2 ^ n) Pn) as Fl.
    pose proof (Z.mod_pos_bound q (2 ^ n) Pn) as Md.
    pose proof (Z.div_mod q (2 ^ n) ltac:(lia)) as DMq.
    assert (Q1b : 0 <= q / 2 ^ n) by (apply Z.div_pos; lia).
    assert (Q1c : q / 2 ^ n < 2 ^ 53).
    { apply Z.div_lt_upper_bound; [exact Pn|].
      rewrite <- pow2_split by lia.
      assert (2 ^ dq <= 2 ^ (n + 53)) by (apply Z.pow_le_mono_r; unfold n, E; lia).
      lia. }
    assert (Q1d : q / 2 ^ n <= 2 ^ (- E)).
    { apply le_cancel with (2 ^ n); [exact Pn|]. rewrite <- G. lia. }
    destruct (round_nearest_even_spec r1) as [R|[R Fx]]; cbv zeta in R; rewrite R, Q1.
    + apply Common; [exact HE|lia|exact Q1d].
    + apply Common; [exact HE|lia|].
      assert (q / 2 ^ n < 2 ^ (- E)); [|lia].
      apply lt_cancel with (2 ^ n); [exact Pn|]. rewrite <- G.
      destruct (F1 Fx) as [X|X]; [lia|]. specialize (Hl X). lia.
Qed.

Lemma div_fraction (x y : spec_float) :
  valid x -> valid y -> finite x -> finite y ->
  0 <= value x <= value y -> 0 < value y ->
  finite (SFdiv prec emax x y) /\ 0 <= value (SFdiv prec emax x y) <= 2 ^ 2200.
Proof.
  intros Vx Vy Fx Fy [H0 H1] Hy.
  pose proof (pow2_pos 2200 ltac:(lia)) as P.
  destruct (positive_value y Vy Fy Hy) as (my & ey & -> & By).
  destruct x as [sx|sx| |sx mx ex]; try contradiction.
  - cbn. split; [exact I|lia].
  - pose proof (bounded_canonical _ _ Vx) as (_ & Ex & _).
    pose proof (scaled_pos mx ex ltac:(lia)) as Px.
    destruct sx; cbn [value] in H0, H1; [lia|].
    cbn [SFdiv xorb].
    pose proof (div_core_spec mx ex my ey Vx By H1) as C.
    destruct (SFdiv_core_binary prec emax (Zpos mx) ex (Zpos my) ey) as [[q e'] l].
    destruct C as (C1 & C2 & C3).
    pose proof (div_round_bound false q e' l C1 C2 C3) as R.
    destruct (binary_round_aux prec emax false q e' l) as [s'|s'| |s' m1 e1];
      try contradiction; cbn [finite value].
    + split; [exact I|lia].
    + destruct R as [-> R]. split; [exact I|].
      assert (0 <= scaled (Zpos m1) e1)
        by (unfold scaled; apply Z.mul_nonneg_nonneg; [lia|apply Z.pow_nonneg; lia]).
      lia.
Qed.

End Division.

Section PointerBinary64.
Local Open Scope Z_scope.

Lemma canvas_fraction (d w : float) :
  on_canvas d w = true ->
  finite (Prim2SF (d / w)) /\ 0 <= value (Prim2SF (d / w)) <= 2 ^ 2200.
Proof.
  unfold on_canvas. rewrite !andb_true_iff. intros [[R P] I].
  rewrite ltb_spec in P, I.
  assert (Fw : finite (Prim2SF w)).
  { change (Prim2SF infinity) with (S754_infinity false) in I.
    change (Prim2SF 0) with (S754_zero false) in P.
    destruct (Prim2SF w) as [sw|[|]| |sw mw ew]; try exact I0; try discriminate;
      exact Logic.I. }
  apply in_range_spec in R; [|exact Fw]. destruct R as (Fd & D0 & D1).
  apply ltb_value in P; try apply prim_valid; [|exact Logic.I|exact Fw].
  change (value (Prim2SF 0)) with 0 in P.
  rewrite div_spec. unfold SF64div.
  apply div_fraction; try apply prim_valid; try assumption. lia.
Qed.

Lemma device_range_spec (v : float) :
  in_device_range v = true <->
  finite (Prim2SF v) /\ - 2 ^ 2200 <= value (Prim2SF v) <= 2 ^ 2200.
Proof.
  unfold in_device_range. rewrite !leb_spec.
  apply (within_spec (Prim2SF (-1)) (Prim2SF 1) (Prim2SF v));
    try apply prim_valid; exact Logic.I.
Qed.

(** X13: The pointer in normalised device coordinates (lines 107-111): offsets
    that lie on the canvas give coordinates between -1 and 1. *)
Theorem pointer_on_canvas_gives_device_coordinates
  (clientX clientY left top width height : float) (s : State float) :
  on_canvas (clientX - left) width = true ->
  on_canvas (clientY - top) height = true ->
  let s' := onMouseMove clientX clientY left top width height s in
  in_device_range (fst (mouse s')) = true /\
  in_device_range (snd (mouse s')) = true.
Proof.
  intros Hx Hy. apply canvas_fraction in Hx, Hy.
  destruct Hx as (Fx & X0 & X1). destruct Hy as (Fy & Y0 & Y1).
  pose proof (pow2_pos 2200 ltac:(lia)) as P.
  assert (V2 : value (Prim2SF 2) = 2 * 2 ^ 2200) by (vm_compute; reflexivity).
  assert (V1 : value (Prim2SF 1) = 2 ^ 2200) by (vm_compute; reflexivity).
  assert (VM : value (Prim2SF (-1)) = - 2 ^ 2200) by (vm_compute; reflexivity).
  assert (VN : value (Prim2SF (-2)) = - (2 * 2 ^ 2200)) by (vm_compute; reflexivity).
  unfold onMouseMove. cbv zeta. cbn [mouse set_mouse fst snd].
  change (@lit float Binary64.number 2) with 2%float.
  change (@lit float Binary64.number 1) with 1%float.
  cbn [nsub nadd nmul ndiv nopp Binary64.number].
  set (qx := ((clientX - left) / width)%float) in *.
  set (qy := ((clientY - top) / height)%float) in *.
  split; apply device_range_spec.
  - pose proof (prim_valid (qx * 2)) as Vp.
    rewrite sub_spec. rewrite mul_spec in *. unfold SF64sub, SF64mul in *.
    destruct (mul_between (S754_zero false) (Prim2SF 2) (Prim2SF qx) (Prim2SF 2))
      as (Fp & Lp & Up); try apply prim_valid; try exact Logic.I; try assumption;
      try reflexivity.
    { change (value (S754_zero false)) with 0. rewrite V2.
      assert (0 <= value (Prim2SF qx) * (2 * 2 ^ 2200))
        by (apply Z.mul_nonneg_nonneg; lia).
      assert (value (Prim2SF qx) * (2 * 2 ^ 2200) <= 2 ^ 2200 * (2 * 2 ^ 2200))
        by (apply Z.mul_le_mono_nonneg_r; lia).
      lia. }
    change (value (S754_zero false)) with 0 in Lp. rewrite V2 in Up.
    rewrite <- VM, <- V1.
    apply (sub_between (Prim2SF (-1)) (Prim2SF 1)); try apply prim_valid;
      try exact Logic.I; try assumption.
    rewrite VM, V1. lia.
  - pose proof (prim_valid (- qy)) as Vo. pose proof (prim_valid (- qy * 2)) as Vp.
    rewrite add_spec. rewrite mul_spec in *. rewrite opp_spec in *.
    unfold SF64add, SF64mul in *.
    destruct (opp_value (Prim2SF qy) (prim_valid qy) Fy) as (_ & Fo & Eo).
    destruct (mul_between (Prim2SF (-2)) (S754_zero false) (SFopp (Prim2SF qy)) (Prim2SF 2))
      as (Fp & Lp & Up); try apply prim_valid; try exact Logic.I; try assumption;
      try reflexivity.
    { change (value (S754_zero false)) with 0. rewrite V2, VN, Eo.
      assert (0 <= value (Prim2SF qy) * (2 * 2 ^ 2200))
        by (apply Z.mul_nonneg_nonneg; lia).
      assert (value (Prim2SF qy) * (2 * 2 ^ 2200) <= 2 ^ 2200 * (2 * 2 ^ 2200))
        by (apply Z.mul_le_mono_nonneg_r; lia).
      lia. }
    change (value (S754_zero false)) with 0 in Up. rewrite VN in Lp.
    rewrite <- VM, <- V1.
    apply (add_between (Prim2SF (-1)) (Prim2SF 1)); try apply prim_valid;
      try exact Logic.I; try assumption.
    rewrite VM, V1. lia.
Qed.

End PointerBinary64.

(** ** The further theorems at sample runs *)

(** [every_transition_completes] after a click on the camera model: 59
    frames later the transition is over and its line is logged. *)
Lemma every_transition_completes_witness :
  (59 <= List.length (repeat still 59))%nat /\
  pending_moves
    (run (run (threeSceneAction 800 400 still)
              [loaded_camera camera_gltf; animation_frame (pointing_at [0; 5]%nat);
               window_click])
         (map (@animation_frame float) (repeat still 59))) = [].
Proof.
  assert (H : (59 <= List.length (repeat still 59))%nat)
    by (rewrite repeat_length; apply le_n).
  split; [exact H|].
  exact (proj1 (every_transition_completes 800 400 still
                  [loaded_camera camera_gltf; animation_frame (pointing_at [0; 5]%nat);
                   window_click]
                  (repeat still 59) H)).
Defined.

(** [deep_hit_lights_but_click_does_not_focus] for the mesh three levels
    below the root of the nested model. *)
Lemma deep_hit_lights_but_click_does_not_focus_witness :
  cameraModel (run (threeSceneAction 800 400 still) [loaded_camera nested_gltf])
  = ref [5]%nat /\
  onClick (animate (pointing_at [0; 0; 0; 5]%nat)
             (run (threeSceneAction 800 400 still) [loaded_camera nested_gltf]))
  = animate (pointing_at [0; 0; 0; 5]%nat)
      (run (threeSceneAction 800 400 still) [loaded_camera nested_gltf]).
Proof.
  assert (H : cameraModel (run (threeSceneAction 800 400 still)
                               [loaded_camera nested_gltf]) = ref [5]%nat)
    by reflexivity.
  split; [exact H|].
  refine (proj2 (proj2 (proj2
    (deep_hit_lights_but_click_does_not_focus 800 400 still
       [loaded_camera nested_gltf] (pointing_at [0; 0; 0; 5]%nat)
       [0; 0; 0; 5]%nat [] [5]%nat [0; 0; 0]%nat
       eq_refl (or_introl H) eq_refl _)))).
  cbn. lia.
Defined.

(** [smoothing_never_overshoots] from intensity 1 toward 2.5. *)
Lemma smoothing_never_overshoots_witness :
  in_range 4 1 = true /\
  ((1 <=? smooth 1 (lit 2.5)) && (smooth 1 (lit 2.5) <=? lit 2.5))%float = true.
Proof.
  assert (H : in_range 4 1 = true) by reflexivity.
  split; [exact H|].
  apply (proj1 (smoothing_never_overshoots 1 (lit 2.5) H (or_intror eq_refl))).
  reflexivity.
Defined.

(** [pointer_on_canvas_gives_device_coordinates] for the pointer at
    (600, 100) over a canvas of 800 by 400 at the origin. *)
Lemma pointer_on_canvas_gives_device_coordinates_witness :
  on_canvas (600 - 0) 800 = true /\ on_canvas (100 - 0) 400 = true /\
  in_device_range (fst (mouse (onMouseMove 600%float 100%float 0%float 0%float 800%float 400%float mounted))) = true /\
  in_device_range (snd (mouse (onMouseMove 600%float 100%float 0%float 0%float 800%float 400%float mounted))) = true.
Proof.
  assert (Hx : on_canvas (600 - 0) 800 = true) by reflexivity.
  assert (Hy : on_canvas (100 - 0) 400 = true) by reflexivity.
  split; [exact Hx|]. split; [exact Hy|].
  exact (pointer_on_canvas_gives_device_coordinates 600 100 0 0 800 400 mounted Hx Hy).
Defined.
